(** * bldb-ncbi-downloader: accession extraction, efetch query construction
      and retrying fetch

    A shallow embedding of [bldb_ncbi_downloader.py].  A Python [str] is a
    sequence of Unicode code points, [bytes] a sequence of octets; both are
    lists of [N].  A function that can raise returns in [py]; the network
    and the console are an explicit world.

    The functions of the Python standard library that the program calls are
    embedded next to the program's own, statement by statement, from
    CPython 3.11: [str.split], [re.findall] on the program's pattern, and
    [urllib.parse.parse_qs] with its default arguments (only [&] separates
    the pieces, as in every CPython since 3.10), and [time.sleep] with the
    exceptions it raises for a delay it refuses.  The state that [re] and
    [urllib.parse] keep between calls is passed along in a second
    embedding of the extractor, [Stateful]. *)

From Stdlib Require Import ZArith NArith List String Ascii Bool Lia Floats.
From stdpp Require Import base option list countable gmap.
Import ListNotations.

Local Open Scope N_scope.
Local Open Scope list_scope.

(** ** Python strings *)

Module PyStr.

Definition char := N.
Definition pystr := list char.
Definition bytes := list N.

(** A source-code literal (ASCII text between quotes). *)
Definition lit (s : string) : pystr :=
  List.map N_of_ascii (list_ascii_of_string s).

Definition dquote : char := 34.   (* the double-quote character *)
Definition qmark : char := 63.    (* ? *)
Definition ampersand : char := 38.
Definition equals : char := 61.
Definition plus : char := 43.
Definition space : char := 32.
Definition percent : char := 37.
Definition newline : char := 10.
Definition dot : char := 46.

(** Truthiness of a [str]: the empty string is falsy. *)
Definition truthy (s : pystr) : bool :=
  match s with [] => false | _ :: _ => true end.

(** Truthiness of an [Optional[str]]: [None] and the empty string are falsy. *)
Definition truthy_opt (o : option pystr) : bool :=
  match o with None => false | Some s => truthy s end.

(** [c in s] for a one-character [c]. *)
Fixpoint contains (c : char) (s : pystr) : bool :=
  match s with
  | [] => false
  | x :: s' => if x =? c then true else contains c s'
  end.

(** [s.split(sep)] for a one-character separator: always at least one piece. *)
Fixpoint split (sep : char) (s : pystr) : list pystr :=
  match s with
  | [] => [[]]
  | x :: s' =>
      if x =? sep then [] :: split sep s'
      else match split sep s' with
           | p :: ps => (x :: p) :: ps
           | [] => [[x]]
           end
  end.

(** [s.split(sep, 1)]: one piece when [sep] does not occur, else the text
    before the first [sep] and the text after it. *)
Fixpoint split1 (sep : char) (s : pystr) : list pystr :=
  match s with
  | [] => [[]]
  | x :: s' =>
      if x =? sep then [[]; s']
      else match split1 sep s' with
           | p :: ps => (x :: p) :: ps
           | [] => [[x]]
           end
  end.

(** The longest prefix of [s] without the character [q], and the rest. *)
Fixpoint span_not (q : char) (s : pystr) : pystr * pystr :=
  match s with
  | [] => ([], [])
  | c :: s' =>
      if c =? q then ([], s)
      else let (run, rest) := span_not q s' in (c :: run, rest)
  end.

(** [s.replace(a, b)] for one-character [a] and [b]. *)
Definition replace (a b : char) (s : pystr) : pystr :=
  List.map (fun x => if x =? a then b else x) s.

(** [sep.join(pieces)]. *)
Fixpoint join (sep : char) (pieces : list pystr) : pystr :=
  match pieces with
  | [] => []
  | [p] => p
  | p :: ps => p ++ sep :: join sep ps
  end.

End PyStr.
Import PyStr.

(** ** Exceptions *)

Inductive exn :=
| IndexError
| ValueError
| ConnectionError (msg : pystr)
| OtherException (msg : pystr).

Inductive py (A : Type) :=
| Returns (a : A)
| Raises (e : exn).
Arguments Returns {A} a.
Arguments Raises {A} e.

Definition py_bind {A B} (m : py A) (k : A -> py B) : py B :=
  match m with
  | Returns a => k a
  | Raises e => Raises e
  end.

Notation "'do' x <- m ; k" := (py_bind m (fun x => k))
  (at level 10, x name, m at level 100, k at level 200).
Notation "'do' ' pat <- m ; k" := (py_bind m (fun x => match x with pat => k end))
  (at level 10, pat pattern, m at level 100, k at level 200).

(** [xs[0]] *)
Definition index0 {A} (xs : list A) : py A :=
  match xs with
  | x :: _ => Returns x
  | [] => Raises IndexError
  end.

(** [a, b = xs] *)
Definition unpack2 {A} (xs : list A) : py (A * A) :=
  match xs with
  | [a; b] => Returns (a, b)
  | _ => Raises ValueError
  end.

(** ** The data model *)

Record Accession := {
  accession : pystr;
  from_position : option pystr;
  to_position : option pystr;
  strand : option pystr
}.

(** ** build_efetch_url *)

Definition base_url : pystr :=
  lit "https://eutils.ncbi.nlm.nih.gov/entrez/eutils/efetch.fcgi".

(** An f-string hole filled with an [Optional[str]]; the program only
    formats a qualifier after testing it truthy, where it is a [str]. *)
Definition fmt (o : option pystr) : pystr :=
  match o with Some s => s | None => lit "None" end.

Definition build_efetch_url (accession : pystr)
    (from_position to_position strand : option pystr) : pystr :=
  let efetch_url :=
    base_url ++ lit "?db=nuccore&id=" ++ accession ++ lit "&rettype=fasta&retmode=text" in
  let efetch_url :=
    if truthy_opt from_position && truthy_opt to_position
    then efetch_url ++ lit "&seq_start=" ++ fmt from_position
                    ++ lit "&seq_stop=" ++ fmt to_position
    else efetch_url in
  let efetch_url :=
    if truthy_opt strand
    then efetch_url ++ lit "&strand=" ++ fmt strand
    else efetch_url in
  efetch_url.

(** ** The regular expression of the program

    [accession_pattern] is a fixed text followed by one group: one or more
    characters other than the double quote.
    In the fixed text every character stands for itself except the dots,
    which are not escaped: each matches any character but a newline.  The
    group is greedy and nothing follows it, so where the fixed text matches
    the group is the longest run of characters other than the double quote,
    and the match fails when that run is empty. *)

Module Re.

Inductive atom :=
| Chr (c : char)
| AnyButNewline.

Definition compile_text (text : string) : list atom :=
  List.map (fun c => if c =? dot then AnyButNewline else Chr c) (lit text).

Definition atom_matches (a : atom) (c : char) : bool :=
  match a with
  | Chr x => c =? x
  | AnyButNewline => negb (c =? newline)
  end.

(** Match the atoms at the start of [s]; the text left after them. *)
Fixpoint match_atoms (p : list atom) (s : pystr) : option pystr :=
  match p with
  | [] => Some s
  | a :: p' =>
      match s with
      | [] => None
      | c :: s' => if atom_matches a c then match_atoms p' s' else None
      end
  end.

Definition accession_pattern_text : list atom :=
  compile_text "http://www.ncbi.nlm.nih.gov/nuccore/".

(** A match of [accession_pattern] starting exactly at the head of [s]:
    the text of group 1 and the text after the match. *)
Definition match_at (s : pystr) : option (pystr * pystr) :=
  match match_atoms accession_pattern_text s with
  | None => None
  | Some rest =>
      match span_not dquote rest with
      | ([], _) => None
      | (group, after) => Some (group, after)
      end
  end.

(** [re.findall(accession_pattern, s)]: scan from the left; where the
    pattern matches, keep group 1 and go on after the match; elsewhere move
    one character on.  [fuel] bounds the number of scan steps. *)
Fixpoint findall_from (fuel : nat) (s : pystr) : list pystr :=
  match fuel with
  | O => []
  | S fuel' =>
      match s with
      | [] => []
      | _ :: s' =>
          match match_at s with
          | Some (group, after) => group :: findall_from fuel' after
          | None => findall_from fuel' s'
          end
      end
  end.

Definition findall (s : pystr) : list pystr :=
  findall_from (length s) s.

End Re.

(** ** urllib.parse

    [parse_qs(qs)] as the program calls it: [keep_blank_values] and
    [strict_parsing] false, UTF-8 with errors replaced, separator [&]. *)

Module UrlParse.

Definition hexval (c : N) : option N :=
  if (48 <=? c) && (c <=? 57) then Some (c - 48)
  else if (65 <=? c) && (c <=? 70) then Some (c - 55)
  else if (97 <=? c) && (c <=? 102) then Some (c - 87)
  else None.

(** The body of the loop over [bits[1:]] in [unquote_to_bytes]: two hex
    digits become one octet, anything else keeps its percent sign. *)
Definition unquote_item (item : bytes) : bytes :=
  match item with
  | a :: b :: rest =>
      match hexval a, hexval b with
      | Some x, Some y => (16 * x + y) :: rest
      | _, _ => percent :: item
      end
  | _ => percent :: item
  end.

Definition unquote_to_bytes (string : bytes) : bytes :=
  match string with
  | [] => []
  | _ :: _ =>
      match split percent string with
      | [] | [_] => string
      | bit0 :: items => bit0 ++ concat (List.map unquote_item items)
      end
  end.

Definition is_continuation (b : N) : bool := (0x80 <=? b) && (b <=? 0xBF).

Definition replacement : char := 0xFFFD.

(** [bytes.decode('utf-8', 'replace')]: CPython's decoder.  An invalid
    start octet is replaced alone; a sequence cut short by an octet that
    cannot continue it is replaced up to that octet, which is then read
    again; a sequence cut short by the end of the data is replaced whole. *)
Fixpoint utf8_decode_replace (bs : bytes) : pystr :=
  match bs with
  | [] => []
  | b0 :: r0 =>
      if b0 <? 0x80 then b0 :: utf8_decode_replace r0
      else if b0 <? 0xC2 then replacement :: utf8_decode_replace r0
      else if b0 <? 0xE0 then
        match r0 with
        | [] => [replacement]
        | b1 :: r1 =>
            if negb (is_continuation b1)
            then replacement :: utf8_decode_replace r0
            else (b0 * 64 + b1 - 0x3080) :: utf8_decode_replace r1
        end
      else if b0 <? 0xF0 then
        match r0 with
        | [] => [replacement]
        | b1 :: r1 =>
            if negb (is_continuation b1)
               || (if b1 <? 0xA0 then b0 =? 0xE0 else b0 =? 0xED)
            then replacement :: utf8_decode_replace r0
            else
              match r1 with
              | [] => [replacement]
              | b2 :: r2 =>
                  if negb (is_continuation b2)
                  then replacement :: utf8_decode_replace r1
                  else (b0 * 4096 + b1 * 64 + b2 - 0xE2080)
                         :: utf8_decode_replace r2
              end
        end
      else if b0 <? 0xF5 then
        match r0 with
        | [] => [replacement]
        | b1 :: r1 =>
            if negb (is_continuation b1)
               || (if b1 <? 0x90 then b0 =? 0xF0 else b0 =? 0xF4)
            then replacement :: utf8_decode_replace r0
            else
              match r1 with
              | [] => [replacement]
              | b2 :: r2 =>
                  if negb (is_continuation b2)
                  then replacement :: utf8_decode_replace r1
                  else
                    match r2 with
                    | [] => [replacement]
                    | b3 :: r3 =>
                        if negb (is_continuation b3)
                        then replacement :: utf8_decode_replace r2
                        else (b0 * 262144 + b1 * 4096 + b2 * 64 + b3 - 0x3C82080)
                               :: utf8_decode_replace r3
                    end
              end
        end
      else replacement :: utf8_decode_replace r0
  end.

Definition is_ascii (c : char) : bool := c <=? 0x7f.

(** The loop of [unquote] over [_asciire.split(string)]: the text is cut
    into its longest runs of ASCII characters and what lies between them;
    a run is unquoted to octets and decoded, the rest is kept.  [run] is
    the ASCII run read so far. *)
Fixpoint unquote_runs (run : pystr) (s : pystr) : pystr :=
  match s with
  | [] => utf8_decode_replace (unquote_to_bytes run)
  | c :: s' =>
      if is_ascii c then unquote_runs (run ++ [c]) s'
      else utf8_decode_replace (unquote_to_bytes run) ++ c :: unquote_runs [] s'
  end.

Definition unquote (string : pystr) : pystr :=
  if negb (contains percent string) then string
  else unquote_runs [] string.

(** The body of the loop of [parse_qsl]: what one piece appends to [r]. *)
Definition parse_qsl_step (r : list (pystr * pystr)) (name_value : pystr)
  : list (pystr * pystr) :=
  if negb (truthy name_value) then r
  else
    match split1 equals name_value with
    | [nv0; nv1] =>
        if 0 <? N.of_nat (length nv1) then
          let name := unquote (replace plus space nv0) in
          let value := unquote (replace plus space nv1) in
          r ++ [(name, value)]
        else r
    | _ => r
    end.

Definition parse_qsl (qs : pystr) : list (pystr * pystr) :=
  let query_args := if truthy qs then split ampersand qs else [] in
  fold_left parse_qsl_step query_args [].

(** The body of the loop of [parse_qs]. *)
Definition parse_qs_step (parsed_result : gmap pystr (list pystr))
    (pair : pystr * pystr) : gmap pystr (list pystr) :=
  let (name, value) := pair in
  match parsed_result !! name with
  | Some values => <[name := values ++ [value]]> parsed_result
  | None => <[name := [value]]> parsed_result
  end.

Definition parse_qs (qs : pystr) : gmap pystr (list pystr) :=
  fold_left parse_qs_step (parse_qsl qs) ∅.

End UrlParse.

(** ** extract_ncbi_accessions *)

(** [query_params.get(key, [None])]: the values of the key, or the default
    one-element list holding [None]. *)
Definition get_or_none (query_params : gmap pystr (list pystr)) (key : pystr)
  : list (option pystr) :=
  match query_params !! key with
  | Some values => List.map Some values
  | None => [None]
  end.

(** The body of the loop over [matches]: the record one match appends. *)
Definition accession_of_match (match_ : pystr) : py Accession :=
  if contains qmark match_ then
    do '(accession, query_string) <- unpack2 (split1 qmark match_);
    let query_params := UrlParse.parse_qs query_string in
    do from_position <- index0 (get_or_none query_params (lit "from"));
    do to_position <- index0 (get_or_none query_params (lit "to"));
    do strand <- index0 (get_or_none query_params (lit "strand"));
    Returns {| accession := accession;
               from_position := from_position;
               to_position := to_position;
               strand := strand |}
  else
    Returns {| accession := match_;
               from_position := None;
               to_position := None;
               strand := None |}.

(** The loop over [matches], threading the list [accessions]. *)
Fixpoint extract_loop (matches : list pystr) (accessions : list Accession)
  : py (list Accession) :=
  match matches with
  | [] => Returns accessions
  | match_ :: matches' =>
      do a <- accession_of_match match_;
      extract_loop matches' (accessions ++ [a])
  end.

Definition extract_ncbi_accessions (html_content : pystr) : py (list Accession) :=
  let matches := Re.findall html_content in
  extract_loop matches [].

(** ** fetch_fasta_sequence

    The remote side is a script: what the n-th exchange of the session
    gives.  The world counts the exchanges made and records, in order,
    every exchange, printed line and pause. *)

Record response := { ok : bool; text : pystr }.

Inductive exchange :=
| Completes (r : response)
| Throws (e : exn).

Inductive line :=
| ConnectionErrorOnAttempt (n retries : Z) (e : pystr)
| MaxRetriesReached.

Inductive event :=
| Get (url : pystr)
| Print (l : line)
| Sleep (seconds : float).

Definition session := nat -> exchange.

Record world := { exchanges : nat; trace : list event }.

Definition emit (e : event) (w : world) : world :=
  {| exchanges := exchanges w; trace := trace w ++ [e] |}.

(** [session.get(url)] *)
Definition session_get (s : session) (url : pystr) (w : world) : exchange * world :=
  (s (exchanges w),
   {| exchanges := S (exchanges w); trace := trace w ++ [Get url] |}).

(** [range(n)] *)
Definition range (n : Z) : list Z :=
  List.map Z.of_nat (seq 0 (Z.to_nat n)).

(** [time.sleep(secs)] for a [float], as CPython 3.11 has it on x86-64.
    The seconds are turned into nanoseconds.  Not-a-number is a
    [ValueError]; a length beyond the 64-bit range of nanoseconds is an
    [OverflowError]; a negative length, or one that wraps to a negative
    number of nanoseconds, is a [ValueError].  Otherwise the call pauses and
    returns; the pause itself is an event of the world. *)
Definition OverflowError : exn := OtherException (lit "OverflowError").

Definition two63 : float := 0x1p63%float.

Definition time_sleep (secs : float) : py unit :=
  if PrimFloat.is_nan secs then Raises ValueError
  else
    let d := (secs * 1e9)%float in
    if negb ((- two63 <=? d)%float && (d <=? two63)%float) then Raises OverflowError
    else if (d <? 0)%float || (d =? two63)%float then Raises ValueError
    else Returns tt.

Section Fetch.

Variable efetch_url : pystr.
Variable s : session.
Variable retries : Z.
Variable delay : float.

(** The [for attempt in ...] loop over the attempts still to make; leaving
    it without a [return] falls through to [return None]. *)
Fixpoint fetch_loop (attempts : list Z) (w : world) : py (option pystr) * world :=
  match attempts with
  | [] => (Returns None, w)
  | attempt :: attempts' =>
      let (x, w) := session_get s efetch_url w in
      match x with
      | Completes response =>
          if ok response then (Returns (Some (text response)), w)
          else fetch_loop attempts' w
      | Throws (ConnectionError e) =>
          let w := emit (Print (ConnectionErrorOnAttempt (attempt + 1) retries e)) w in
          if (attempt <? retries - 1)%Z then
            match time_sleep delay with
            | Returns _ => fetch_loop attempts' (emit (Sleep delay) w)
            | Raises x => (Raises x, w)
            end
          else fetch_loop attempts' (emit (Print MaxRetriesReached) w)
      | Throws e => (Raises e, w)
      end
  end.

Definition fetch_fasta_sequence (w : world) : py (option pystr) * world :=
  fetch_loop (range retries) w.

End Fetch.

Definition default_retries : Z := 3.
Definition default_delay : float := 1.0%float.

(** * Notions used to state the properties *)

(** ** The locator, as the interface describes it *)

Definition locator_core (accession : pystr) : pystr :=
  base_url ++ lit "?db=nuccore&id=" ++ accession ++ lit "&rettype=fasta&retmode=text".

Definition range_segment (from_position to_position : option pystr) : pystr :=
  match from_position, to_position with
  | Some (c :: f), Some (d :: t) =>
      lit "&seq_start=" ++ (c :: f) ++ lit "&seq_stop=" ++ (d :: t)
  | _, _ => []
  end.

Definition strand_segment (strand : option pystr) : pystr :=
  match strand with
  | Some (c :: st) => lit "&strand=" ++ (c :: st)
  | _ => []
  end.

(** ** Query strings, as the contract of the extractor describes them *)

(** URL-decoding of one key or value: plus signs are spaces, percent
    escapes are octets of UTF-8 text. *)
Definition url_decode (s : pystr) : pystr :=
  UrlParse.unquote (replace plus space s).

(** A piece [key=value], cut at its first equals sign, with a value that is
    not blank. *)
Definition key_value (piece : pystr) : option (pystr * pystr) :=
  match span_not equals piece with
  | (key, _ :: c :: value) => Some (url_decode key, url_decode (c :: value))
  | _ => None
  end.

(** The key/value pairs of a query string, in the order of the text. *)
Definition query_fields (qs : pystr) : list (pystr * pystr) :=
  omap key_value (split ampersand qs).

(** The value of the first pair with the given key. *)
Fixpoint first_value (key : pystr) (fields : list (pystr * pystr)) : option pystr :=
  match fields with
  | [] => None
  | (k, v) :: fields' => if decide (k = key) then Some v else first_value key fields'
  end.

(** The record of one matched run. *)
Definition record_of_run (run : pystr) : Accession :=
  match span_not qmark run with
  | (acc, _ :: qs) =>
      {| accession := acc;
         from_position := first_value (lit "from") (query_fields qs);
         to_position := first_value (lit "to") (query_fields qs);
         strand := first_value (lit "strand") (query_fields qs) |}
  | (_, []) =>
      {| accession := run; from_position := None; to_position := None; strand := None |}
  end.

(** A reference occurrence as it stands in the markup: the fixed text, the
    run, the closing double quote. *)
Definition reference (run : pystr) : pystr :=
  lit "http://www.ncbi.nlm.nih.gov/nuccore/" ++ run ++ [dquote].

(** ** Observations of a fetch *)

Definition is_sleep (e : event) : bool :=
  match e with Sleep _ => true | _ => false end.

Definition is_get (e : event) : bool :=
  match e with Get _ => true | _ => false end.

Definition pauses (t : list event) : nat := length (List.filter is_sleep t).

Definition requests (t : list event) : nat := length (List.filter is_get t).

(** An exchange that yields no sequence and lets the loop go on: a
    connection-level failure, or a response with a non-success status. *)
Definition no_sequence (x : exchange) : Prop :=
  match x with
  | Completes r => ok r = false
  | Throws (ConnectionError _) => True
  | Throws _ => False
  end.

Definition connection_failure (x : exchange) : Prop :=
  match x with
  | Throws (ConnectionError _) => True
  | _ => False
  end.

Definition rejected (x : exchange) : Prop :=
  match x with
  | Completes r => ok r = false
  | Throws _ => False
  end.

(** The world after one exchange, and after one attempt that failed at the
    connection level. *)
Definition after_get (url : pystr) (w : world) : world :=
  {| exchanges := S (exchanges w); trace := trace w ++ [Get url] |}.

Definition after_failure (url : pystr) (retries : Z) (delay : float)
    (attempt : Z) (e : pystr) (w : world) : world :=
  emit (if (attempt <? retries - 1)%Z then Sleep delay else Print MaxRetriesReached)
    (emit (Print (ConnectionErrorOnAttempt (attempt + 1) retries e)) (after_get url w)).

(** ** Notions for the extractor *)

(** The values of a key among the pairs, in the order of the pairs. *)
Definition values_of (key : pystr) (pairs : list (pystr * pystr)) : list pystr :=
  omap (fun kv => if decide (fst kv = key) then Some (snd kv) else None) pairs.

(** Text in which the pattern matches nowhere, whatever follows it. *)
Definition quiet (junk : pystr) : Prop :=
  forall i rest, (i < length junk)%nat -> Re.match_at (drop i junk ++ rest) = None.

(** Markup made of reference occurrences, each after some quiet text, and a
    quiet tail. *)
Definition markup (segments : list (pystr * pystr)) (tail : pystr) : pystr :=
  concat (List.map (fun seg => fst seg ++ reference (snd seg)) segments) ++ tail.

Definition well_formed_run (run : pystr) : Prop :=
  run <> [] /\ contains dquote run = false.

(** One [key=value] piece of a query string. *)
Definition piece (kv : pystr * pystr) : pystr := fst kv ++ equals :: snd kv.

(** A pair that can be written as a piece and read back: no separator in
    the key, none in the value but equals signs, and a value that is not
    blank. *)
Definition well_formed_pair (kv : pystr * pystr) : Prop :=
  contains ampersand (fst kv) = false /\ contains equals (fst kv) = false
  /\ contains ampersand (snd kv) = false /\ snd kv <> [].

Definition decoded (kv : pystr * pystr) : pystr * pystr :=
  (url_decode (fst kv), url_decode (snd kv)).

Definition no_blank_qualifier (a : Accession) : Prop :=
  from_position a <> Some [] /\ to_position a <> Some [] /\ strand a <> Some [].

(** ** Sample inputs *)

Definition anchor : pystr := lit "<a href=" ++ [dquote].

Definition sample_page : pystr :=
  markup [ (anchor, lit "ABC123?from=10&to=50&strand=2");
           (lit ">ABC123</a> " ++ anchor, lit "CD2");
           (lit ">CD2</a> " ++ anchor, lit "ABC123?from=10&to=50&strand=2") ]
         (lit ">ABC123</a>").

Definition start : world := {| exchanges := 0%nat; trace := [] |}.

Definition sample_url : pystr :=
  build_efetch_url (lit "X1") (Some (lit "5")) (Some (lit "20")) None.

Definition fasta : response := {| ok := true; text := lit ">X1 sample" |}.


(** Two connection failures, then a success. *)
Definition flaky : session :=
  fun n => match n with
           | 0%nat => Throws (ConnectionError (lit "refused"))
           | 1%nat => Throws (ConnectionError (lit "reset"))
           | _ => Completes fasta
           end.

(** Connection failures only. *)
Definition unreachable : session :=
  fun _ => Throws (ConnectionError (lit "refused")).



(** * The rest of the program *)

(** ** fetch_html_content *)

(** The exception of [raise_for_status]; its message is not modelled. *)
Definition HTTPError : exn := OtherException (lit "HTTPError").

(** [response.raise_for_status()]: it raises exactly when [response.ok] is
    false, [ok] being defined in [requests] as its not raising. *)
Definition raise_for_status (r : response) : py unit :=
  if ok r then Returns tt else Raises HTTPError.

Definition fetch_html_content (url : pystr) (s : session) (w : world)
  : py pystr * world :=
  let (x, w) := session_get s url w in
  match x with
  | Completes response =>
      (do u <- raise_for_status response; Returns (text response), w)
  | Throws e => (Raises e, w)
  end.

(** ** The file system

    [os.path.join] for two components, on a POSIX system. *)

Definition slash : char := 47.

Definition startswith (c : char) (s : pystr) : bool :=
  match s with
  | x :: _ => x =? c
  | [] => false
  end.

Fixpoint endswith (c : char) (s : pystr) : bool :=
  match s with
  | [] => false
  | [x] => x =? c
  | _ :: s' => endswith c s'
  end.

Definition os_path_join (a b : pystr) : pystr :=
  if startswith slash b then b
  else if negb (truthy a) || endswith slash a then a ++ b
  else a ++ slash :: b.

(** What the program asks of the operating system.  A call can fail and
    still change the disk; a text written without an error is there
    afterwards. *)
Class FileSystem (fs : Type) := {
  (** [os.makedirs(path, exist_ok=True)] *)
  makedirs : pystr -> fs -> py unit * fs;
  (** [os.path.exists(path)] *)
  path_exists : pystr -> fs -> bool;
  (** [with open(path, "w") as f: f.write(text)] *)
  write_text : pystr -> pystr -> fs -> py unit * fs;
  write_text_exists : forall path text d d',
    write_text path text d = (Returns tt, d') -> path_exists path d' = true
}.

(** ** main *)

Inductive said :=
| AlreadyExists (accession file_path : pystr)
| SavedTo (accession file_path : pystr)
| Sequence (fasta_sequence : pystr)
| FailedToFetch (accession : pystr).

(** What a run does, in order: the events of the network calls, and the
    lines [main] prints itself. *)
Inductive main_event :=
| Net (e : event)
| Say (l : said).

Record run_state (fs : Type) := {
  made : nat;
  disk : fs;
  history : list main_event
}.
Arguments made {fs} r.
Arguments disk {fs} r.
Arguments history {fs} r.

Definition bldb_url : pystr := lit "http://www.bldb.eu/BLDB.php".

Definition pace : float := 0.5%float.

(** The locator of a record, as [main] asks for it. *)
Definition locator_of (a : Accession) : pystr :=
  build_efetch_url (accession a) (from_position a) (to_position a) (strand a).

(** [os.path.join(output_dir, f"{accession}.fasta")] *)
Definition fasta_path (output_dir accession : pystr) : pystr :=
  os_path_join output_dir (accession ++ lit ".fasta").

Section Main.

Context {fs : Type} `{FileSystem fs}.

Definition record (e : main_event) (m : run_state fs) : run_state fs :=
  {| made := made m; disk := disk m; history := history m ++ [e] |}.

(** A network call made within a run: it starts from the exchanges made so
    far, and its events go to the history. *)
Definition on_network {A} (call : world -> A * world) (m : run_state fs)
  : A * run_state fs :=
  let (a, w) := call {| exchanges := made m; trace := [] |} in
  (a, {| made := exchanges w;
         disk := disk m;
         history := history m ++ List.map Net (trace w) |}).

(** A file-system call made within a run. *)
Definition on_disk {A} (call : fs -> A * fs) (m : run_state fs)
  : A * run_state fs :=
  let (a, d) := call (disk m) in
  (a, {| made := made m; disk := d; history := history m |}).

Variable output_dir : option pystr.
Variable s : session.

(** The loop of [main] over the records. *)
Fixpoint main_loop (accessions : list Accession) (m : run_state fs)
  : py unit * run_state fs :=
  match accessions with
  | [] => (Returns tt, m)
  | accession_obj :: accessions' =>
      let file_path := fasta_path (fmt output_dir) (accession accession_obj) in
      if truthy_opt output_dir && path_exists file_path (disk m) then
        main_loop accessions'
          (record (Say (AlreadyExists (accession accession_obj) file_path)) m)
      else
        let efetch_url := locator_of accession_obj in
        let (r, m) :=
          on_network (fetch_fasta_sequence efetch_url s default_retries default_delay) m in
        match r with
        | Raises e => (Raises e, m)
        | Returns fasta_sequence =>
            if truthy_opt fasta_sequence then
              if truthy_opt output_dir then
                let (r, m) := on_disk (write_text file_path (fmt fasta_sequence)) m in
                match r with
                | Raises e => (Raises e, m)
                | Returns _ =>
                    main_loop accessions'
                      (record (Net (Sleep pace))
                         (record (Say (SavedTo (accession accession_obj) file_path)) m))
                end
              else
                main_loop accessions'
                  (record (Net (Sleep pace))
                     (record (Say (Sequence (fmt fasta_sequence))) m))
            else
              main_loop accessions'
                (record (Net (Sleep pace))
                   (record (Say (FailedToFetch (accession accession_obj))) m))
        end
  end.

Definition main (m : run_state fs) : py unit * run_state fs :=
  let (r, m) :=
    if truthy_opt output_dir then on_disk (makedirs (fmt output_dir)) m
    else (Returns tt, m) in
  match r with
  | Raises e => (Raises e, m)
  | Returns _ =>
      let (r, m) := on_network (fetch_html_content bldb_url s) m in
      match r with
      | Raises e => (Raises e, m)
      | Returns html_content =>
          match extract_ncbi_accessions html_content with
          | Raises e => (Raises e, m)
          | Returns accessions => main_loop accessions m
          end
      end
  end.

End Main.

(** A disk of plain files that never fails. *)
Definition flat_disk := gmap pystr pystr.

#[export] Instance flat_disk_fs : FileSystem (gmap pystr pystr).
Proof.
  refine {| makedirs := fun _ d => (Returns tt, d);
            path_exists := fun path d => bool_decide (is_Some (d !! path));
            write_text := fun path text d => (Returns tt, <[path := text]> d) |}.
  intros path text d d' [= <-]. apply bool_decide_eq_true_2.
  rewrite lookup_insert_eq. eexists. reflexivity.
Defined.

(** ** Further notions and sample inputs *)


(** The qualifiers that reach the locator: the range when both positions
    are non-empty strings, the strand when it is a non-empty string. *)
Definition effective_range (f t : option pystr) : option (pystr * pystr) :=
  match f, t with
  | Some (c :: f'), Some (d :: t') => Some (c :: f', d :: t')
  | _, _ => None
  end.

Definition effective_strand (st : option pystr) : option pystr :=
  match st with
  | Some (c :: st') => Some (c :: st')
  | _ => None
  end.

Definition amp_free (s : pystr) : Prop := contains ampersand s = false.

Definition amp_free_opt (o : option pystr) : Prop :=
  match o with
  | Some s => amp_free s
  | None => True
  end.

(** How often a character stands in a text. *)
Definition count_char (c : char) (s : pystr) : nat :=
  length (List.filter (fun x => x =? c) s).

(** The fixed text of the pattern with other characters where it has its
    dots. *)
Definition lookalike (a b c d : char) : pystr :=
  lit "http://www" ++ a :: lit "ncbi" ++ b :: lit "nlm" ++ c :: lit "nih"
    ++ d :: lit "gov/nuccore/".

(** A value that URL-decoding leaves as it is and that does not end its
    piece: not empty, no percent sign, no plus sign, no ampersand. *)
Definition plain (v : pystr) : Prop :=
  v <> [] /\ contains percent v = false /\ contains plus v = false
  /\ contains ampersand v = false.

(** A key that URL-decoding leaves as it is and that can stand before the
    equals sign of a piece. *)
Definition plain_key (k : pystr) : Prop :=
  contains percent k = false /\ contains plus k = false
  /\ contains ampersand k = false /\ contains equals k = false.

Definition plain_pair (kv : pystr * pystr) : Prop :=
  plain_key (fst kv) /\ plain (snd kv).

(** The state of a run after a network call that ended in world [w], and
    after a file-system call that left the disk [d]. *)
Definition after_call {fs : Type} (m : run_state fs) (w : world) : run_state fs :=
  {| made := exchanges w; disk := disk m; history := history m ++ List.map Net (trace w) |}.

Definition with_disk {fs : Type} (m : run_state fs) (d : fs) : run_state fs :=
  {| made := made m; disk := d; history := history m |}.

(** The world a network call of a run starts from. *)
Definition network_of {fs : Type} (m : run_state fs) : world :=
  {| exchanges := made m; trace := [] |}.

(** Where a run starts: nothing requested, nothing printed. *)
Definition fresh_run (d : gmap pystr pystr) : run_state (gmap pystr pystr) :=
  {| made := 0%nat; disk := d; history := [] |}.

(** The page, then the sequence for every request. *)
Definition serves (page : pystr) : session :=
  fun n => match n with
           | 0%nat => Completes {| ok := true; text := page |}
           | _ => Completes fasta
           end.

(** The first statement of [main]: the output directory is made when one
    is given. *)
Definition prepare {fs : Type} `{FileSystem fs} (output_dir : option pystr)
    (m : run_state fs) : py unit * run_state fs :=
  if truthy_opt output_dir then on_disk (makedirs (fmt output_dir)) m
  else (Returns tt, m).

(** A disk that holds the files of the two accessions of the sample page. *)
Definition filled_disk : gmap pystr pystr :=
  <[lit "out/ABC123.fasta" := lit ">ABC123"]> (<[lit "out/CD2.fasta" := lit ">CD2"]> ∅).

(** Text of ASCII characters only. *)
Definition ascii_text (v : pystr) : Prop := Forall (fun c => UrlParse.is_ascii c = true) v.

(** The body of the n-th exchange, when it completes. *)
Definition body_at (s : session) (n : nat) : pystr :=
  match s n with
  | Completes r => text r
  | Throws _ => []
  end.

(** An exchange that gives a sequence at once: a success status and a body
    that is not empty. *)
Definition delivers (x : exchange) : Prop :=
  match x with
  | Completes r => ok r = true /\ text r <> []
  | Throws _ => False
  end.

(** What a run without an output directory records when every request
    delivers: for each record its request, the sequence, the pause. *)
Fixpoint printed_run (s : session) (n : nat) (l : list Accession) : list main_event :=
  match l with
  | [] => []
  | a :: l' =>
      Net (Get (locator_of a)) :: Say (Sequence (body_at s n)) :: Net (Sleep pace)
        :: printed_run s (S n) l'
  end.

(** ** Notions for the fetcher on any session *)

(** The world after a connection failure whose pause [time.sleep] refused:
    the request and the line of the failure, nothing more. *)
Definition after_refusal (url : pystr) (retries : Z) (attempt : Z) (e : pystr)
    (w : world) : world :=
  emit (Print (ConnectionErrorOnAttempt (attempt + 1) retries e)) (after_get url w).

(** What one attempt records. A connection failure records the request,
    its line, and a pause or, at the last attempt, the line of exhaustion;
    any other exchange records the request alone. *)
Definition attempt_events (url : pystr) (retries : Z) (delay : float)
    (attempt : Z) (x : exchange) : list event :=
  match x with
  | Throws (ConnectionError e) =>
      [ Get url;
        Print (ConnectionErrorOnAttempt (attempt + 1) retries e);
        if (attempt <? retries - 1)%Z then Sleep delay else Print MaxRetriesReached ]
  | _ => [Get url]
  end.


(** How an exchange ends the call, when it does: a success status returns
    the body, an exception that is not a connection error is raised. *)
Definition ending (x : exchange) : option (py (option pystr)) :=
  match x with
  | Completes r => if ok r then Some (Returns (Some (text r))) else None
  | Throws (ConnectionError _) => None
  | Throws e => Some (Raises e)
  end.


(** ** Further notions for the extractor *)

(** A run stands in the markup: after some text comes a prefix that the
    fixed text of the pattern matches, then the run, which holds no double
    quote and goes on to the first double quote or to the end of the
    markup. *)
Definition occurrence (html run : pystr) : Prop :=
  exists before prefix after,
    html = before ++ prefix ++ run ++ after
    /\ Re.match_atoms Re.accession_pattern_text prefix = Some []
    /\ contains dquote run = false
    /\ (after = [] \/ exists rest, after = dquote :: rest).

(** ** URL encoding, as the standard describes it *)

(** A Unicode scalar value: a code point that is not a surrogate. *)
Definition scalar (c : char) : Prop :=
  c < 0xD800 \/ (0xE000 <= c /\ c <= 0x10FFFF).

(** The octets of a character in UTF-8. *)
Definition utf8_encode (c : char) : bytes :=
  if c <? 0x80 then [c]
  else if c <? 0x800 then [0xC0 + c / 64; 0x80 + c mod 64]
  else if c <? 0x10000 then
    [0xE0 + c / 4096; 0x80 + (c / 64) mod 64; 0x80 + c mod 64]
  else
    [0xF0 + c / 262144; 0x80 + (c / 4096) mod 64; 0x80 + (c / 64) mod 64;
     0x80 + c mod 64].

(** The hexadecimal digit of a number below sixteen, in capital or in small
    letters. *)
Definition hex_digit (lower : bool) (d : N) : char :=
  if d <? 10 then 48 + d else if lower then 87 + d else 55 + d.

(** The percent escape of an octet. *)
Definition escape (lower : bool) (b : N) : pystr :=
  [percent; hex_digit lower (b / 16); hex_digit lower (b mod 16)].

(** The characters that stand for themselves in an encoded text: letters,
    digits, hyphen, dot, underscore and tilde. *)
Definition unreserved (c : char) : bool :=
  ((48 <=? c) && (c <=? 57)) || ((65 <=? c) && (c <=? 90))
  || ((97 <=? c) && (c <=? 122))
  || (c =? 45) || (c =? 46) || (c =? 95) || (c =? 126).

Definition encode_char (lower : bool) (c : char) : pystr :=
  if c =? space then [plus]
  else if unreserved c then [c]
  else concat (List.map (escape lower) (utf8_encode c)).

(** The encoding of a key or a value in a query string: a space becomes a
    plus sign, an unreserved character stands for itself, and every other
    character becomes the percent escapes of its octets in UTF-8. *)
Definition url_encode (lower : bool) (s : pystr) : pystr :=
  concat (List.map (encode_char lower) s).

(** The query string written from key/value pairs. *)
Definition encoded_piece (lower : bool) (kv : pystr * pystr) : pystr :=
  url_encode lower (fst kv) ++ equals :: url_encode lower (snd kv).

Definition urlencode (lower : bool) (pairs : list (pystr * pystr)) : pystr :=
  join ampersand (List.map (encoded_piece lower) pairs).

(** The value of a hexadecimal digit, in capital or in small letters. *)
Definition hex_value (c : char) : option N :=
  if (48 <=? c) && (c <=? 57) then Some (c - 48)
  else if (65 <=? c) && (c <=? 70) then Some (c - 55)
  else if (97 <=? c) && (c <=? 102) then Some (c - 87)
  else None.

(** The octets that an encoded text stands for, read from the left: a plus
    sign is a space, a percent sign followed by two hexadecimal digits is
    the octet they write, and every other character, a stray percent sign
    too, is itself. *)
Fixpoint percent_octets (s : pystr) : bytes :=
  match s with
  | [] => []
  | c :: s' =>
      if c =? percent then
        match s' with
        | h :: l :: s'' =>
            match hex_value h, hex_value l with
            | Some x, Some y => (16 * x + y) :: percent_octets s''
            | _, _ => percent :: percent_octets s'
            end
        | _ => percent :: percent_octets s'
        end
      else (if c =? plus then space else c) :: percent_octets s'
  end.

(** A plus sign read as a space: what [replace] does to one character. *)
Definition spaced (c : char) : char := if c =? plus then space else c.

(** A pair that a query string can carry: Unicode text, and a value that
    is not blank. *)
Definition carried (kv : pystr * pystr) : Prop :=
  Forall scalar (fst kv) /\ Forall scalar (snd kv) /\ snd kv <> [].

(** The characters of an encoded text: ASCII, and none of the separators
    of a query string. *)
Definition encoded_char (c : char) : Prop :=
  UrlParse.is_ascii c = true /\ c <> ampersand /\ c <> equals.

(** ** The state behind the extractor

    [extract_ncbi_accessions] has no state of its own, but the library
    code it calls keeps some between calls: [re.findall] looks its pattern
    up in [re._cache] and compiles it only when it is not there, dropping
    the oldest entry of a full cache; [urllib.parse.unquote_to_bytes]
    builds the table [_hextobyte] at the first text with a percent sign it
    is given, and reads the two characters after each percent sign from
    that table.  The definitions below are the functions of the extractor
    once more, with this state passed along. *)

Module Stateful.

(** A compiled pattern: the atoms of the fixed text before the group. *)
Definition compiled := list Re.atom.

Record state := {
  re_cache : list (pystr * compiled);   (* a dict, in the order of insertion *)
  hextobyte : option (gmap bytes N)     (* [None] until it is built *)
}.

(** [accession_pattern], the key of the cache. *)
Definition accession_pattern : pystr :=
  lit "http://www.ncbi.nlm.nih.gov/nuccore/([^" ++ dquote :: lit "]+)".

Definition MAXCACHE : nat := 512.

Fixpoint cache_get (key : pystr) (cache : list (pystr * compiled)) : option compiled :=
  match cache with
  | [] => None
  | (k, p) :: cache' => if decide (k = key) then Some p else cache_get key cache'
  end.

(** [re._compile(accession_pattern, 0)]. *)
Definition re_compile (st : state) : compiled * state :=
  match cache_get accession_pattern (re_cache st) with
  | Some p => (p, st)
  | None =>
      let p := Re.accession_pattern_text in
      let cache :=
        if (MAXCACHE <=? length (re_cache st))%nat then tail (re_cache st)
        else re_cache st in
      (p, {| re_cache := cache ++ [(accession_pattern, p)];
             hextobyte := hextobyte st |})
  end.

(** A match of a compiled pattern at the head of [s]. *)
Definition match_at (p : compiled) (s : pystr) : option (pystr * pystr) :=
  match Re.match_atoms p s with
  | None => None
  | Some rest =>
      match span_not dquote rest with
      | ([], _) => None
      | (group, after) => Some (group, after)
      end
  end.

Fixpoint findall_from (p : compiled) (fuel : nat) (s : pystr) : list pystr :=
  match fuel with
  | O => []
  | S fuel' =>
      match s with
      | [] => []
      | _ :: s' =>
          match match_at p s with
          | Some (group, after) => group :: findall_from p fuel' after
          | None => findall_from p fuel' s'
          end
      end
  end.

(** [re.findall(accession_pattern, string)]. *)
Definition findall (string : pystr) (st : state) : list pystr * state :=
  let (p, st') := re_compile st in
  (findall_from p (length string) string, st').

Definition hexdig : pystr := lit "0123456789ABCDEFabcdef".

(** [bytes.fromhex(a + b)] for two hexadecimal digits. *)
Definition fromhex (a b : char) : N :=
  16 * default 0 (UrlParse.hexval a) + default 0 (UrlParse.hexval b).

(** The table that [unquote_to_bytes] builds: every pair of hexadecimal
    digits, with the octet it writes. *)
Definition build_hextobyte : gmap bytes N :=
  list_to_map
    (flat_map (fun a => List.map (fun b => ([a; b], fromhex a b)) hexdig) hexdig).

(** The body of the loop over [bits[1:]]: [_hextobyte[item[:2]]], and the
    [KeyError] caught. *)
Definition unquote_item (table : gmap bytes N) (item : bytes) : bytes :=
  match table !! take 2 item with
  | Some octet => octet :: drop 2 item
  | None => percent :: item
  end.

Definition unquote_to_bytes (string : bytes) (st : state) : bytes * state :=
  match string with
  | [] => ([], st)
  | _ :: _ =>
      match split percent string with
      | [] | [_] => (string, st)
      | bit0 :: items =>
          let table :=
            match hextobyte st with
            | Some table => table
            | None => build_hextobyte
            end in
          (bit0 ++ concat (List.map (unquote_item table) items),
           {| re_cache := re_cache st; hextobyte := Some table |})
      end
  end.

Fixpoint unquote_runs (run : pystr) (s : pystr) (st : state) : pystr * state :=
  match s with
  | [] =>
      let (octets, st') := unquote_to_bytes run st in
      (UrlParse.utf8_decode_replace octets, st')
  | c :: s' =>
      if UrlParse.is_ascii c then unquote_runs (run ++ [c]) s' st
      else
        let (octets, st1) := unquote_to_bytes run st in
        let (rest, st2) := unquote_runs [] s' st1 in
        (UrlParse.utf8_decode_replace octets ++ c :: rest, st2)
  end.

Definition unquote (string : pystr) (st : state) : pystr * state :=
  if negb (contains percent string) then (string, st)
  else unquote_runs [] string st.

(** The body of the loop of [parse_qsl], on the list [r] and the state. *)
Definition parse_qsl_step (acc : list (pystr * pystr) * state) (name_value : pystr)
  : list (pystr * pystr) * state :=
  let (r, st) := acc in
  if negb (truthy name_value) then (r, st)
  else
    match split1 equals name_value with
    | [nv0; nv1] =>
        if 0 <? N.of_nat (length nv1) then
          let (name, st1) := unquote (replace plus space nv0) st in
          let (value, st2) := unquote (replace plus space nv1) st1 in
          (r ++ [(name, value)], st2)
        else (r, st)
    | _ => (r, st)
    end.

Definition parse_qsl (qs : pystr) (st : state) : list (pystr * pystr) * state :=
  let query_args := if truthy qs then split ampersand qs else [] in
  fold_left parse_qsl_step query_args ([], st).

Definition parse_qs (qs : pystr) (st : state) : gmap pystr (list pystr) * state :=
  let (pairs, st') := parse_qsl qs st in
  (fold_left UrlParse.parse_qs_step pairs ∅, st').

Definition accession_of_match (match_ : pystr) (st : state) : py Accession * state :=
  if contains qmark match_ then
    match unpack2 (split1 qmark match_) with
    | Raises e => (Raises e, st)
    | Returns (accession, query_string) =>
        let (query_params, st') := parse_qs query_string st in
        (do from_position <- index0 (get_or_none query_params (lit "from"));
         do to_position <- index0 (get_or_none query_params (lit "to"));
         do strand <- index0 (get_or_none query_params (lit "strand"));
         Returns {| accession := accession;
                    from_position := from_position;
                    to_position := to_position;
                    strand := strand |},
         st')
    end
  else
    (Returns {| accession := match_;
                from_position := None;
                to_position := None;
                strand := None |},
     st).

Fixpoint extract_loop (matches : list pystr) (accessions : list Accession)
    (st : state) : py (list Accession) * state :=
  match matches with
  | [] => (Returns accessions, st)
  | match_ :: matches' =>
      match accession_of_match match_ st with
      | (Returns a, st') => extract_loop matches' (accessions ++ [a]) st'
      | (Raises e, st') => (Raises e, st')
      end
  end.

Definition extract_ncbi_accessions (html_content : pystr) (st : state)
  : py (list Accession) * state :=
  let (matches, st') := findall html_content st in
  extract_loop matches [] st'.

(** The state of an interpreter in which neither module was used yet. *)
Definition fresh : state := {| re_cache := []; hextobyte := None |}.

(** What the two modules keep true of their state: an entry of the cache
    is the compiled form of its key, and the table, once built, is the
    table of the hexadecimal pairs. *)
Definition coherent (st : state) : Prop :=
  (forall p, cache_get accession_pattern (re_cache st) = Some p ->
             p = Re.accession_pattern_text)
  /\ (forall table, hextobyte st = Some table -> table = build_hextobyte).

End Stateful.

(** A cache that is full of other patterns, and a table already built. *)
Definition used_state : Stateful.state :=
  {| Stateful.re_cache :=
       List.map (fun n => (lit "p" ++ [N.of_nat n], [Re.AnyButNewline]))
         (seq 0 Stateful.MAXCACHE);
     Stateful.hextobyte := Some Stateful.build_hextobyte |}.

(** A page whose link holds a percent escape. *)
Definition escaped_page : pystr := reference (lit "AB1?from=%31&to=5").

(** * Properties *)

Local Close Scope N_scope.

(** ** The query builder *)

Lemma range_segment_present f t :
  range_segment f t =
    if truthy_opt f && truthy_opt t
    then lit "&seq_start=" ++ fmt f ++ lit "&seq_stop=" ++ fmt t
    else [].
Proof.
  destruct f as [[|c f]|], t as [[|d t]|]; reflexivity.
Qed.

Lemma strand_segment_present st :
  strand_segment st = if truthy_opt st then lit "&strand=" ++ fmt st else [].
Proof.
  destruct st as [[|c st]|]; reflexivity.
Qed.

Example build_efetch_url_range_only :
  build_efetch_url (lit "X1") (Some (lit "5")) (Some (lit "20")) None
  = lit "https://eutils.ncbi.nlm.nih.gov/entrez/eutils/efetch.fcgi?db=nuccore&id=X1&rettype=fasta&retmode=text&seq_start=5&seq_stop=20".
Proof. reflexivity. Qed.

Example build_efetch_url_accession_only :
  build_efetch_url (lit "X1") None None None
  = lit "https://eutils.ncbi.nlm.nih.gov/entrez/eutils/efetch.fcgi?db=nuccore&id=X1&rettype=fasta&retmode=text".
Proof. reflexivity. Qed.

Example build_efetch_url_one_position_and_strand :
  build_efetch_url (lit "X1") (Some (lit "20")) None (Some (lit "2"))
  = lit "https://eutils.ncbi.nlm.nih.gov/entrez/eutils/efetch.fcgi?db=nuccore&id=X1&rettype=fasta&retmode=text&strand=2".
Proof. reflexivity. Qed.

(** C1.  The locator is the fixed core with the accession, followed by the
    range segment, which is there exactly when both positions are present
    and not empty and then carries them verbatim, followed by the strand
    segment, which is there exactly when the strand is present and not
    empty, whatever the range. *)
Theorem build_efetch_url_shape (acc : pystr) (f t st : option pystr) :
  build_efetch_url acc f t st
    = locator_core acc ++ range_segment f t ++ strand_segment st
  /\ (range_segment f t <> [] <->
        exists fv tv, f = Some fv /\ t = Some tv /\ fv <> [] /\ tv <> [])
  /\ (forall fv tv, f = Some fv -> t = Some tv -> fv <> [] -> tv <> [] ->
        range_segment f t = lit "&seq_start=" ++ fv ++ lit "&seq_stop=" ++ tv)
  /\ (strand_segment st <> [] <-> exists sv, st = Some sv /\ sv <> [])
  /\ (forall sv, st = Some sv -> sv <> [] ->
        strand_segment st = lit "&strand=" ++ sv).
Proof.
  split; [|split; [|split; [|split]]].
  - rewrite range_segment_present, strand_segment_present.
    unfold build_efetch_url, locator_core.
    destruct (truthy_opt f && truthy_opt t), (truthy_opt st);
      rewrite <- ?app_assoc, ?app_nil_r; reflexivity.
  - split.
    + destruct f as [[|c f]|], t as [[|d t]|]; simpl; try congruence.
      intros _. exists (c :: f), (d :: t). repeat split; congruence.
    + intros (fv & tv & -> & -> & Hf & Ht).
      destruct fv, tv; try congruence. discriminate.
  - intros fv tv -> -> Hf Ht. destruct fv, tv; try congruence. reflexivity.
  - split.
    + destruct st as [[|c st]|]; simpl; try congruence.
      intros _. exists (c :: st). split; congruence.
    + intros (sv & -> & Hs). destruct sv; try congruence. discriminate.
  - intros sv -> Hs. destruct sv; try congruence. reflexivity.
Qed.

Lemma build_efetch_url_shape_witness :
  build_efetch_url (lit "X1") (Some (lit "20")) (Some (lit "5")) (Some (lit "2"))
  = locator_core (lit "X1")
      ++ (lit "&seq_start=" ++ lit "20" ++ lit "&seq_stop=" ++ lit "5")
      ++ (lit "&strand=" ++ lit "2").
Proof.
  destruct (build_efetch_url_shape (lit "X1") (Some (lit "20")) (Some (lit "5"))
              (Some (lit "2"))) as (Hshape & _ & Hrange & _ & Hstrand).
  rewrite Hshape.
  rewrite (Hrange (lit "20") (lit "5")) by (reflexivity || discriminate).
  rewrite (Hstrand (lit "2")) by (reflexivity || discriminate).
  reflexivity.
Defined.

(** ** The resilient fetcher *)



Lemma connection_failure_no_sequence x : connection_failure x -> no_sequence x.
Proof. destruct x as [r|[| | |]]; simpl; tauto. Qed.

Section FetchFacts.

Variable url : pystr.
Variable s : session.
Variable retries : Z.
Variable delay : float.

Local Abbreviation loop := (fetch_loop url s retries delay).
Local Abbreviation got := (after_get url).
Local Abbreviation failed := (after_failure url retries delay).
Local Abbreviation refused := (after_refusal url retries).

(** *** One iteration *)

Lemma loop_success attempt attempts w r :
  s (exchanges w) = Completes r -> ok r = true ->
  loop (attempt :: attempts) w = (Returns (Some (text r)), got w).
Proof.
  intros Hx Hok. simpl. unfold session_get. rewrite Hx, Hok. reflexivity.
Qed.

Lemma loop_rejected attempt attempts w r :
  s (exchanges w) = Completes r -> ok r = false ->
  loop (attempt :: attempts) w = loop attempts (got w).
Proof.
  intros Hx Hok. simpl. unfold session_get. rewrite Hx, Hok. reflexivity.
Qed.

Lemma loop_raises attempt attempts w x :
  s (exchanges w) = Throws x -> (forall msg, x <> ConnectionError msg) ->
  loop (attempt :: attempts) w = (Raises x, got w).
Proof.
  intros Hx Hne. simpl. unfold session_get. rewrite Hx.
  destruct x; try reflexivity. destruct (Hne msg eq_refl).
Qed.

(** A connection failure, when the pause is taken or none is due. *)
Lemma loop_connection_error attempt attempts w e :
  s (exchanges w) = Throws (ConnectionError e) ->
  ((attempt <? retries - 1)%Z = true -> time_sleep delay = Returns tt) ->
  loop (attempt :: attempts) w = loop attempts (failed attempt e w).
Proof.
  intros Hx Hd. simpl. unfold session_get. rewrite Hx.
  unfold failed. destruct (attempt <? retries - 1)%Z; [|reflexivity].
  rewrite (Hd eq_refl). reflexivity.
Qed.

(** A connection failure whose pause [time.sleep] refuses. *)
Lemma loop_sleep_raises attempt attempts w e x :
  s (exchanges w) = Throws (ConnectionError e) ->
  (attempt <? retries - 1)%Z = true ->
  time_sleep delay = Raises x ->
  loop (attempt :: attempts) w = (Raises x, refused attempt e w).
Proof.
  intros Hx Hlt Hd. simpl. unfold session_get. rewrite Hx, Hlt, Hd. reflexivity.
Qed.

Lemma exchanges_after_failure attempt e w :
  exchanges (failed attempt e w) = S (exchanges w).
Proof.
  unfold failed. destruct (attempt <? retries - 1)%Z; reflexivity.
Qed.

(** One iteration ends the call right after its exchange, or goes on after
    a rejected exchange, or goes on after a connection failure, or ends the
    call with the exception of a refused pause. *)
Lemma loop_step a attempts w :
  (exists res, loop (a :: attempts) w = (res, got w)
     /\ ending (s (exchanges w)) = Some res)
  \/ (rejected (s (exchanges w))
      /\ loop (a :: attempts) w = loop attempts (got w))
  \/ (exists e, s (exchanges w) = Throws (ConnectionError e)
      /\ loop (a :: attempts) w = loop attempts (failed a e w))
  \/ (exists e x, s (exchanges w) = Throws (ConnectionError e)
      /\ (a <? retries - 1)%Z = true /\ time_sleep delay = Raises x
      /\ loop (a :: attempts) w = (Raises x, refused a e w)).
Proof.
  destruct (s (exchanges w)) as [r|x] eqn:Hx.
  - destruct (ok r) eqn:Hok.
    + left. eexists. split; [apply (loop_success a attempts w r Hx Hok)|].
      simpl. rewrite Hok. reflexivity.
    + right. left. simpl. split; [exact Hok|].
      apply loop_rejected with r; assumption.
  - destruct x as [| |msg|msg];
      try (left; eexists; split; [apply loop_raises; [exact Hx|discriminate]|reflexivity]).
    destruct (a <? retries - 1)%Z eqn:Hlt.
    + destruct (time_sleep delay) as [[]|x] eqn:Hd.
      * right. right. left. exists msg. split; [reflexivity|].
        apply loop_connection_error; [exact Hx|]. intros _. exact Hd.
      * right. right. right. exists msg, x. repeat split; try assumption.
        apply loop_sleep_raises; assumption.
    + right. right. left. exists msg. split; [reflexivity|].
      apply loop_connection_error; [exact Hx|]. rewrite Hlt. discriminate.
Qed.



(** *** Whatever the delay *)



Lemma requests_snoc_get t u : requests (t ++ [Get u]) = S (requests t).
Proof. unfold requests. rewrite List.filter_app, length_app. simpl. lia. Qed.

Lemma requests_snoc_other t e : is_get e = false -> requests (t ++ [e]) = requests t.
Proof.
  intros He. unfold requests. rewrite List.filter_app, length_app. simpl.
  rewrite He. simpl. lia.
Qed.

Lemma pauses_snoc_sleep t d : pauses (t ++ [Sleep d]) = S (pauses t).
Proof. unfold pauses. rewrite List.filter_app, length_app. simpl. lia. Qed.

Lemma pauses_snoc_other t e : is_sleep e = false -> pauses (t ++ [e]) = pauses t.
Proof.
  intros He. unfold pauses. rewrite List.filter_app, length_app. simpl.
  rewrite He. simpl. lia.
Qed.

Lemma requests_after_get w : requests (trace (got w)) = S (requests (trace w)).
Proof. apply requests_snoc_get. Qed.

Lemma requests_after_failure a e w :
  requests (trace (failed a e w)) = S (requests (trace w)).
Proof.
  unfold after_failure, emit. simpl.
  destruct (a <? retries - 1)%Z;
    rewrite !requests_snoc_other by reflexivity; apply requests_snoc_get.
Qed.

Lemma requests_after_refusal a e w :
  requests (trace (refused a e w)) = S (requests (trace w)).
Proof.
  unfold after_refusal, emit. simpl.
  rewrite requests_snoc_other by reflexivity. apply requests_snoc_get.
Qed.

Lemma pauses_after_get w : pauses (trace (got w)) = pauses (trace w).
Proof. apply pauses_snoc_other. reflexivity. Qed.

Lemma pauses_after_failure a e w :
  pauses (trace (failed a e w))
  = pauses (trace w) + (if (a <? retries - 1)%Z then 1 else 0).
Proof.
  unfold after_failure, emit. simpl. destruct (a <? retries - 1)%Z.
  - rewrite pauses_snoc_sleep, !pauses_snoc_other by reflexivity. lia.
  - rewrite !pauses_snoc_other by reflexivity. lia.
Qed.

Lemma pauses_after_refusal a e w :
  pauses (trace (refused a e w)) = pauses (trace w).
Proof.
  unfold after_refusal, emit. simpl.
  rewrite !pauses_snoc_other by reflexivity. reflexivity.
Qed.

(** The exchanges made and the requests recorded, for any run of attempts. *)
Lemma loop_counts : forall attempts w,
  exchanges (snd (loop attempts w)) <= exchanges w + length attempts
  /\ requests (trace (snd (loop attempts w))) + exchanges w
       = requests (trace w) + exchanges (snd (loop attempts w)).
Proof.
  induction attempts as [|a attempts IH]; intros w; [simpl; lia|].
  destruct (loop_step a attempts w)
    as [(res & -> & _)|[(_ & ->)|[(e & _ & ->)|(e & x & _ & _ & _ & ->)]]].
  - cbn [snd]. rewrite requests_after_get. simpl. lia.
  - destruct (IH (got w)) as [Hle Hreq].
    rewrite requests_after_get in Hreq. simpl in *. lia.
  - destruct (IH (failed a e w)) as [Hle Hreq].
    rewrite requests_after_failure, exchanges_after_failure in *. simpl. lia.
  - cbn [snd]. rewrite requests_after_refusal. simpl. lia.
Qed.

Lemma loop_exchanges_ge : forall attempts w,
  exchanges w <= exchanges (snd (loop attempts w)).
Proof.
  induction attempts as [|a attempts IH]; intros w; [simpl; lia|].
  destruct (loop_step a attempts w)
    as [(res & -> & _)|[(_ & ->)|[(e & _ & ->)|(e & x & _ & _ & _ & ->)]]].
  - simpl. lia.
  - specialize (IH (got w)). simpl in IH. lia.
  - specialize (IH (failed a e w)). rewrite exchanges_after_failure in IH. lia.
  - simpl. lia.
Qed.

(** The pauses of a run of attempts that ends with the last attempt of the
    loop: at most one fewer than the attempts, and the last event recorded
    is not a pause. *)
Lemma loop_pauses n : forall a w,
  Z.of_nat (a + S n) = retries ->
  pauses (trace (snd (loop (List.map Z.of_nat (seq a (S n))) w))) <= pauses (trace w) + n
  /\ exists t e,
       trace (snd (loop (List.map Z.of_nat (seq a (S n))) w)) = t ++ [e]
       /\ is_sleep e = false.
Proof.
  induction n as [|n IH]; intros a w Hend.
  - change (List.map Z.of_nat (seq a 1)) with [Z.of_nat a].
    destruct (loop_step (Z.of_nat a) [] w)
      as [(res & -> & _)|[(_ & ->)|[(e & _ & ->)|(e & x & _ & Hlt & _ & _)]]];
      cbn [fetch_loop snd].
    + rewrite pauses_after_get. split; [lia|].
      exists (trace w), (Get url). split; reflexivity.
    + rewrite pauses_after_get. split; [lia|].
      exists (trace w), (Get url). split; reflexivity.
    + rewrite pauses_after_failure.
      assert (Hlt : (Z.of_nat a <? retries - 1)%Z = false) by (apply Z.ltb_ge; lia).
      rewrite Hlt. split; [lia|].
      unfold after_failure. rewrite Hlt. eexists _, _. split; reflexivity.
    + apply Z.ltb_lt in Hlt. lia.
  - change (List.map Z.of_nat (seq a (S (S n))))
      with (Z.of_nat a :: List.map Z.of_nat (seq (S a) (S n))).
    destruct (loop_step (Z.of_nat a) (List.map Z.of_nat (seq (S a) (S n))) w)
      as [(res & -> & _)|[(_ & ->)|[(e & _ & ->)|(e & x & _ & _ & _ & ->)]]].
    + cbn [snd]. rewrite pauses_after_get. split; [lia|].
      exists (trace w), (Get url). split; reflexivity.
    + destruct (IH (S a) (got w)) as [Hp Hlast]; [lia|].
      split; [|exact Hlast]. rewrite pauses_after_get in Hp. lia.
    + destruct (IH (S a) (failed (Z.of_nat a) e w)) as [Hp Hlast]; [lia|].
      split; [|exact Hlast]. rewrite pauses_after_failure in Hp.
      destruct (Z.of_nat a <? retries - 1)%Z; lia.
    + cbn [snd]. rewrite pauses_after_refusal. split; [lia|].
      eexists _, _. split; reflexivity.
Qed.


(** The loop reads the world only through the number of exchanges made: what
    was recorded before stays in front of what the loop records. *)
Lemma loop_frame : forall attempts n t0 t,
  loop attempts {| exchanges := n; trace := t0 ++ t |}
  = (fst (loop attempts {| exchanges := n; trace := t |}),
     {| exchanges := exchanges (snd (loop attempts {| exchanges := n; trace := t |}));
        trace := t0 ++ trace (snd (loop attempts {| exchanges := n; trace := t |})) |}).
Proof.
  induction attempts as [|a attempts IH]; intros n t0 t; [reflexivity|].
  cbn [fetch_loop]. unfold session_get. cbn [exchanges trace].
  destruct (s n) as [r|x].
  - destruct (ok r); [rewrite <- app_assoc; reflexivity|].
    rewrite <- app_assoc. apply IH.
  - destruct x as [| |msg|msg]; try (rewrite <- app_assoc; reflexivity).
    unfold emit. cbn [exchanges trace].
    destruct (a <? retries - 1)%Z; cbn [exchanges trace].
    + destruct (time_sleep delay) as [[]|x].
      * rewrite <- !app_assoc. apply (IH (S n) t0).
      * rewrite <- !app_assoc. reflexivity.
    + rewrite <- !app_assoc. apply (IH (S n) t0).
Qed.

(** *** With a delay that [time.sleep] accepts *)

Hypothesis accepted : time_sleep delay = Returns tt.

(** An exchange that yields no sequence records the events of its attempt,
    and the loop goes on, one exchange later. *)
Lemma loop_no_sequence_events attempt attempts w :
  no_sequence (s (exchanges w)) ->
  loop (attempt :: attempts) w
  = loop attempts
      {| exchanges := S (exchanges w);
         trace := trace w ++ attempt_events url retries delay attempt (s (exchanges w)) |}.
Proof using accepted.
  intros H. destruct (s (exchanges w)) as [r|e] eqn:Hx.
  - rewrite (loop_rejected attempt attempts w r Hx H). reflexivity.
  - destruct e; try contradiction.
    rewrite (loop_connection_error attempt attempts w msg Hx (fun _ => accepted)).
    unfold after_failure, after_get, emit, attempt_events.
    cbn [exchanges trace].
    destruct (attempt <? retries - 1)%Z; cbn [exchanges trace];
      rewrite <- !app_assoc; reflexivity.
Qed.

Lemma loop_no_sequence attempt attempts w :
  no_sequence (s (exchanges w)) ->
  exists w', exchanges w' = S (exchanges w)
             /\ loop (attempt :: attempts) w = loop attempts w'.
Proof using accepted.
  intros H. eexists. split; [|apply loop_no_sequence_events, H]. reflexivity.
Qed.






(** After [k] exchanges that yield no sequence, an attempt that is left is
    made. *)
Lemma loop_reaches k : forall attempts w,
  k < length attempts ->
  (forall j, j < k -> no_sequence (s (exchanges w + j))) ->
  exchanges w + S k <= exchanges (snd (loop attempts w)).
Proof using accepted.
  induction k as [|k IH]; intros attempts w Hlen Hbefore;
    (destruct attempts as [|a attempts]; [simpl in Hlen; lia|]).
  - destruct (loop_step a attempts w)
      as [(res & -> & _)|[(_ & ->)|[(e & _ & ->)|(e & x & _ & _ & _ & ->)]]].
    + simpl. lia.
    + pose proof (loop_exchanges_ge attempts (got w)) as Hge. simpl in Hge. lia.
    + pose proof (loop_exchanges_ge attempts (failed a e w)) as Hge.
      rewrite exchanges_after_failure in Hge. lia.
    + simpl. lia.
  - destruct (loop_no_sequence a attempts w) as (w' & Hw' & ->).
    { specialize (Hbefore 0). rewrite Nat.add_0_r in Hbefore. apply Hbefore. lia. }
    specialize (IH attempts w'). rewrite Hw' in IH.
    etransitivity; [|apply IH].
    + lia.
    + simpl in Hlen. lia.
    + intros j Hj. replace (S (exchanges w) + j) with (exchanges w + S j) by lia.
      apply Hbefore. lia.
Qed.


End FetchFacts.

Lemma length_range n : length (range n) = Z.to_nat n.
Proof. unfold range. rewrite length_map, length_seq. reflexivity. Qed.

Lemma time_sleep_default : time_sleep default_delay = Returns tt.
Proof. reflexivity. Qed.








(** C9.  With [retries] zero or negative the loop body never runs: no
    exchange, no pause, nothing printed, and the result is [None]. *)
Theorem fetch_without_attempts
    (url : pystr) (s : session) (retries : Z) (delay : float) (w : world) :
  (retries <= 0)%Z ->
  fetch_fasta_sequence url s retries delay w = (Returns None, w).
Proof.
  intros Hle. unfold fetch_fasta_sequence, range.
  replace (Z.to_nat retries) with 0 by lia. reflexivity.
Qed.

Lemma fetch_without_attempts_witness :
  (0 <= 0)%Z
  /\ fetch_fasta_sequence sample_url flaky 0 default_delay start = (Returns None, start)
  /\ fetch_fasta_sequence sample_url flaky (-2) default_delay start = (Returns None, start)
  /\ requests (trace start) = 0 /\ pauses (trace start) = 0.
Proof.
  split; [lia|]. split; [|split].
  - apply (fetch_without_attempts sample_url flaky 0 default_delay start). lia.
  - apply (fetch_without_attempts sample_url flaky (-2) default_delay start). lia.
  - split; reflexivity.
Defined.

(** ** Strings *)

Lemma contains_false_cons c x s :
  contains c (x :: s) = false <-> x <> c /\ contains c s = false.
Proof.
  simpl. destruct (N.eqb_spec x c); split; intros H; tauto || discriminate.
Qed.

Lemma contains_true_split c : forall s,
  contains c s = true ->
  exists a b, s = a ++ c :: b /\ contains c a = false.
Proof.
  induction s as [|x s IH]; simpl; [discriminate|].
  destruct (N.eqb_spec x c) as [->|Hne]; intros H.
  - exists [], s. split; reflexivity.
  - destruct (IH H) as (a & b & -> & Ha).
    exists (x :: a), b. split; [reflexivity|].
    apply contains_false_cons. split; assumption.
Qed.

Lemma contains_app_mid c a b : contains c (a ++ c :: b) = true.
Proof.
  induction a as [|x a IH]; simpl.
  - rewrite N.eqb_refl. reflexivity.
  - rewrite IH. destruct (x =? c)%N; reflexivity.
Qed.

Lemma span_not_app q : forall a b,
  contains q a = false -> span_not q (a ++ q :: b) = (a, q :: b).
Proof.
  induction a as [|x a IH]; intros b Ha; simpl.
  - rewrite N.eqb_refl. reflexivity.
  - apply contains_false_cons in Ha as [Hne Ha].
    destruct (N.eqb_spec x q); [contradiction|].
    rewrite (IH b Ha). reflexivity.
Qed.

Lemma span_not_all q : forall s,
  contains q s = false -> span_not q s = (s, []).
Proof.
  induction s as [|x s IH]; intros Hs; simpl; [reflexivity|].
  apply contains_false_cons in Hs as [Hne Hs].
  destruct (N.eqb_spec x q); [contradiction|].
  rewrite (IH Hs). reflexivity.
Qed.

Lemma span_not_spec q : forall s run rest,
  span_not q s = (run, rest) ->
  s = run ++ rest /\ contains q run = false
  /\ (rest = [] \/ exists rest', rest = q :: rest').
Proof.
  induction s as [|x s IH]; intros run rest; simpl.
  - intros [= <- <-]. repeat split. left. reflexivity.
  - destruct (N.eqb_spec x q) as [->|Hne].
    + intros [= <- <-]. repeat split. right. eexists. reflexivity.
    + destruct (span_not q s) as [run' rest'] eqn:Hs.
      intros [= <- <-]. destruct (IH _ _ eq_refl) as (-> & Hrun & Hrest).
      split; [reflexivity|]. split; [|exact Hrest].
      apply contains_false_cons. split; assumption.
Qed.

Lemma split1_app c : forall a b,
  contains c a = false -> split1 c (a ++ c :: b) = [a; b].
Proof.
  induction a as [|x a IH]; intros b Ha; simpl.
  - rewrite N.eqb_refl. reflexivity.
  - apply contains_false_cons in Ha as [Hne Ha].
    destruct (N.eqb_spec x c); [contradiction|].
    rewrite (IH b Ha). reflexivity.
Qed.

Lemma split1_all c : forall s,
  contains c s = false -> split1 c s = [s].
Proof.
  induction s as [|x s IH]; intros Hs; simpl; [reflexivity|].
  apply contains_false_cons in Hs as [Hne Hs].
  destruct (N.eqb_spec x c); [contradiction|].
  rewrite (IH Hs). reflexivity.
Qed.

Lemma split_all c : forall s,
  contains c s = false -> split c s = [s].
Proof.
  induction s as [|x s IH]; intros Hs; simpl; [reflexivity|].
  apply contains_false_cons in Hs as [Hne Hs].
  destruct (N.eqb_spec x c); [contradiction|].
  rewrite (IH Hs). reflexivity.
Qed.

Lemma split_app c : forall a b,
  contains c a = false -> split c (a ++ c :: b) = a :: split c b.
Proof.
  induction a as [|x a IH]; intros b Ha; simpl.
  - rewrite N.eqb_refl. reflexivity.
  - apply contains_false_cons in Ha as [Hne Ha].
    destruct (N.eqb_spec x c); [contradiction|].
    rewrite (IH b Ha). reflexivity.
Qed.

(** Splitting undoes joining, for pieces without the separator. *)
Lemma split_join c : forall pieces,
  pieces <> [] ->
  Forall (fun p => contains c p = false) pieces ->
  split c (join c pieces) = pieces.
Proof.
  induction pieces as [|p pieces IH]; intros Hne Hall; [congruence|].
  inversion Hall as [|? ? Hp Hps]; subst.
  destruct pieces as [|p' pieces].
  - simpl. apply split_all. exact Hp.
  - change (join c (p :: p' :: pieces)) with (p ++ c :: join c (p' :: pieces)).
    rewrite split_app by exact Hp.
    rewrite IH; [reflexivity|congruence|exact Hps].
Qed.

Lemma length_replace a b s : length (replace a b s) = length s.
Proof. unfold replace. apply length_map. Qed.

(** ** Query-string parsing *)

Module UrlParseFacts.
Import UrlParse.

(** Decoding never turns octets into no text. *)
Lemma utf8_decode_replace_nil bs : utf8_decode_replace bs = [] -> bs = [].
Proof.
  destruct bs as [|b0 r0]; [reflexivity|]. simpl.
  repeat match goal with
         | |- context [if ?b then _ else _] => destruct b
         | |- context [match ?l with [] => _ | _ :: _ => _ end] => destruct l
         end; discriminate.
Qed.

Lemma unquote_item_not_nil item : unquote_item item <> [].
Proof.
  unfold unquote_item.
  destruct item as [|a [|b rest]]; try discriminate.
  destruct (hexval a), (hexval b); discriminate.
Qed.

Lemma unquote_to_bytes_nil string : unquote_to_bytes string = [] -> string = [].
Proof.
  unfold unquote_to_bytes. destruct string as [|c string]; [reflexivity|].
  destruct (split percent (c :: string)) as [|bit0 [|item items]]; try discriminate.
  simpl. intros H. apply app_eq_nil in H as [_ H].
  apply app_eq_nil in H as [H _]. destruct (unquote_item_not_nil _ H).
Qed.

Lemma unquote_runs_nil : forall s run, unquote_runs run s = [] -> run = [] /\ s = [].
Proof.
  induction s as [|c s IH]; intros run; simpl.
  - intros H. split; [|reflexivity].
    apply unquote_to_bytes_nil, utf8_decode_replace_nil, H.
  - destruct (is_ascii c).
    + intros H. apply IH in H as [H _]. destruct run; discriminate.
    + intros H. apply app_eq_nil in H as [_ H]. discriminate.
Qed.

Lemma unquote_nil string : unquote string = [] -> string = [].
Proof.
  unfold unquote. destruct (negb (contains percent string)); [tauto|].
  intros H. apply unquote_runs_nil in H. tauto.
Qed.

(** Text without a percent sign is its own unquoting. *)
Lemma unquote_plain string : contains percent string = false -> unquote string = string.
Proof. unfold unquote. intros ->. reflexivity. Qed.

Lemma url_decode_nil s : url_decode s = [] -> s = [].
Proof.
  unfold url_decode. intros H. apply unquote_nil in H.
  destruct s; [reflexivity|discriminate].
Qed.

Lemma key_value_value_not_nil piece k v : key_value piece = Some (k, v) -> v <> [].
Proof.
  unfold key_value. destruct (span_not equals piece) as [key [|e [|c value]]]; try discriminate.
  intros [= <- <-] H. apply url_decode_nil in H. discriminate.
Qed.

(** What one piece appends to the list of pairs. *)
Lemma parse_qsl_step_key_value r piece :
  parse_qsl_step r piece = r ++ option_list (key_value piece).
Proof.
  unfold parse_qsl_step, key_value.
  destruct piece as [|x piece]; [simpl; rewrite app_nil_r; reflexivity|].
  cbn [truthy negb].
  destruct (contains equals (x :: piece)) eqn:Hc.
  - apply contains_true_split in Hc as (k & v & -> & Hk).
    rewrite (split1_app _ _ _ Hk), (span_not_app _ _ _ Hk).
    destruct v as [|c v]; simpl; [rewrite app_nil_r; reflexivity|].
    reflexivity.
  - rewrite (split1_all _ _ Hc), (span_not_all _ _ Hc).
    simpl. rewrite app_nil_r. reflexivity.
Qed.

Lemma parse_qsl_fold : forall pieces r,
  fold_left parse_qsl_step pieces r = r ++ omap key_value pieces.
Proof.
  induction pieces as [|p pieces IH]; intros r; simpl.
  - rewrite app_nil_r. reflexivity.
  - rewrite IH, parse_qsl_step_key_value, <- app_assoc.
    destruct (key_value p); reflexivity.
Qed.

Lemma parse_qsl_query_fields qs : parse_qsl qs = query_fields qs.
Proof.
  unfold parse_qsl, query_fields. destruct qs as [|c qs].
  - reflexivity.
  - cbn [truthy]. apply parse_qsl_fold.
Qed.

(** The dictionary after the loop of [parse_qs]: under each key, the
    values it had, then the values of the key among the pairs. *)
Lemma parse_qs_fold_lookup key : forall pairs (d : gmap pystr (list pystr)),
  fold_left parse_qs_step pairs d !! key =
    match d !! key with
    | Some values => Some (values ++ values_of key pairs)
    | None => match values_of key pairs with
              | [] => None
              | values => Some values
              end
    end.
Proof.
  induction pairs as [|[k v] pairs IH]; intros d.
  - simpl. destruct (d !! key); [rewrite app_nil_r|]; reflexivity.
  - cbn [fold_left]. rewrite IH. unfold parse_qs_step.
    unfold values_of. cbn [omap list_omap fst snd].
    fold (values_of key pairs).
    destruct (decide (k = key)) as [->|Hne].
    + destruct (d !! key) as [values|] eqn:Hd.
      * rewrite lookup_insert_eq, <- app_assoc. reflexivity.
      * rewrite lookup_insert_eq. reflexivity.
    + destruct (d !! k) as [values|] eqn:Hd;
        rewrite lookup_insert_ne by exact Hne; reflexivity.
Qed.

Lemma head_values_of key : forall pairs,
  head (values_of key pairs) = first_value key pairs.
Proof.
  induction pairs as [|[k v] pairs IH]; [reflexivity|].
  unfold values_of. cbn [omap list_omap fst snd first_value].
  destruct (decide (k = key)); [reflexivity|exact IH].
Qed.

(** [parse_qs(qs).get(key, [None])[0]] is the first value of the key. *)
Lemma get_first_value qs key :
  index0 (get_or_none (parse_qs qs) key) = Returns (first_value key (query_fields qs)).
Proof.
  unfold get_or_none, parse_qs. rewrite parse_qs_fold_lookup, lookup_empty.
  rewrite parse_qsl_query_fields, <- head_values_of.
  destruct (values_of key (query_fields qs)); reflexivity.
Qed.

Lemma first_value_not_blank key qs : first_value key (query_fields qs) <> Some [].
Proof.
  unfold query_fields.
  induction (split ampersand qs) as [|p pieces IH]; [discriminate|].
  cbn [omap list_omap]. destruct (key_value p) as [[k v]|] eqn:Hp; [|exact IH].
  cbn [first_value]. destruct (decide (k = key)); [|exact IH].
  intros [= ->]. exact (key_value_value_not_nil _ _ _ Hp eq_refl).
Qed.

Lemma first_value_absent key : forall fields,
  (forall v, ~ In (key, v) fields) -> first_value key fields = None.
Proof.
  induction fields as [|[k v] fields IH]; intros Habs; [reflexivity|].
  cbn [first_value]. destruct (decide (k = key)) as [->|Hne].
  - destruct (Habs v). left. reflexivity.
  - apply IH. intros v' Hin. apply (Habs v'). right. exact Hin.
Qed.

Lemma first_value_first key : forall before v after,
  (forall v', ~ In (key, v') before) ->
  first_value key (before ++ (key, v) :: after) = Some v.
Proof.
  induction before as [|[k w] before IH]; intros v after Habs.
  - cbn [app first_value]. destruct (decide (key = key)); [reflexivity|congruence].
  - cbn [app first_value]. destruct (decide (k = key)) as [->|Hne].
    + destruct (Habs w). left. reflexivity.
    + apply IH. intros v' Hin. apply (Habs v'). right. exact Hin.
Qed.

End UrlParseFacts.

(** ** The pattern *)

Module ReFacts.
Import Re.

Lemma match_atoms_length : forall p s rest,
  match_atoms p s = Some rest -> length s = length p + length rest.
Proof.
  induction p as [|a p IH]; intros s rest; simpl.
  - intros [= ->]. reflexivity.
  - destruct s as [|c s]; [discriminate|].
    destruct (atom_matches a c); [|discriminate].
    intros H. apply IH in H. simpl. lia.
Qed.

(** A match has a group that is not empty and holds no double quote, and
    leaves strictly less text. *)
Lemma match_at_spec s group after :
  match_at s = Some (group, after) ->
  group <> [] /\ contains dquote group = false /\ length after < length s.
Proof.
  unfold match_at.
  destruct (match_atoms accession_pattern_text s) as [rest|] eqn:Hp; [|discriminate].
  destruct (span_not dquote rest) as [g a] eqn:Hs.
  apply span_not_spec in Hs as (-> & Hg & _).
  apply match_atoms_length in Hp. rewrite length_app in Hp.
  destruct g as [|c g]; [discriminate|].
  intros [= <- <-]. split; [discriminate|]. split; [exact Hg|].
  simpl in *. lia.
Qed.

Lemma match_at_nil : match_at [] = None.
Proof. reflexivity. Qed.

(** The scan does not depend on the fuel once there is enough of it. *)
Lemma findall_from_enough : forall fuel fuel' s,
  length s <= fuel -> length s <= fuel' ->
  findall_from fuel s = findall_from fuel' s.
Proof.
  induction fuel as [|fuel IH]; intros fuel' s Hf Hf'.
  - destruct s; [|simpl in Hf; lia]. destruct fuel'; reflexivity.
  - destruct fuel' as [|fuel'].
    + destruct s; [reflexivity|simpl in Hf'; lia].
    + destruct s as [|c s]; [reflexivity|].
      cbn [findall_from].
      destruct (match_at (c :: s)) as [[group after]|] eqn:Hm.
      * apply match_at_spec in Hm as (_ & _ & Hlen). simpl in *.
        f_equal. apply IH; lia.
      * simpl in *. apply IH; lia.
Qed.

Lemma findall_nil : findall [] = [].
Proof. reflexivity. Qed.

Lemma findall_hit s group after :
  match_at s = Some (group, after) -> findall s = group :: findall after.
Proof.
  intros Hm. unfold findall.
  destruct s as [|c s]; [discriminate|].
  cbn [length findall_from]. rewrite Hm. f_equal.
  apply match_at_spec in Hm as (_ & _ & Hlen). simpl in Hlen.
  apply findall_from_enough; lia.
Qed.

Lemma findall_miss c s :
  match_at (c :: s) = None -> findall (c :: s) = findall s.
Proof.
  intros Hm. unfold findall. cbn [length findall_from]. rewrite Hm. reflexivity.
Qed.

(** Every group found is a run that is not empty and holds no double
    quote. *)
Lemma findall_groups : forall n s,
  length s <= n -> Forall well_formed_run (findall s).
Proof.
  induction n as [|n IH]; intros s Hn.
  - destruct s; [constructor|simpl in Hn; lia].
  - destruct s as [|c s]; [constructor|].
    destruct (match_at (c :: s)) as [[group after]|] eqn:Hm.
    + rewrite (findall_hit _ _ _ Hm).
      apply match_at_spec in Hm as (Hne & Hq & Hlen).
      constructor; [split; assumption|].
      apply IH. simpl in *. lia.
    + rewrite (findall_miss _ _ Hm). apply IH. simpl in Hn. lia.
Qed.

(** No occurrence, nothing found; and conversely. *)
Lemma findall_none : forall s,
  findall s = [] <-> (forall i, match_at (drop i s) = None).
Proof.
  induction s as [|c s IH].
  - split; [|reflexivity]. intros _ i. rewrite drop_nil. reflexivity.
  - destruct (match_at (c :: s)) as [[group after]|] eqn:Hm.
    + rewrite (findall_hit _ _ _ Hm). split; [discriminate|].
      intros H. specialize (H 0). simpl in H. congruence.
    + rewrite (findall_miss _ _ Hm), IH. split.
      * intros H [|i]; [exact Hm|apply H].
      * intros H i. apply (H (S i)).
Qed.

Lemma findall_quiet : forall junk rest,
  quiet junk -> findall (junk ++ rest) = findall rest.
Proof.
  induction junk as [|c junk IH]; intros rest Hq; [reflexivity|].
  change ((c :: junk) ++ rest) with (c :: (junk ++ rest)).
  rewrite findall_miss.
  - apply IH. intros i rest' Hi. apply (Hq (S i) rest'). simpl. lia.
  - apply (Hq 0 rest). simpl. lia.
Qed.

Lemma match_atoms_reference rest :
  match_atoms accession_pattern_text
    (lit "http://www.ncbi.nlm.nih.gov/nuccore/" ++ rest) = Some rest.
Proof. reflexivity. Qed.

Lemma match_at_reference run rest :
  well_formed_run run ->
  match_at (reference run ++ rest) = Some (run, dquote :: rest).
Proof.
  intros [Hne Hq]. unfold match_at, reference.
  rewrite <- !app_assoc, match_atoms_reference.
  change ([dquote] ++ rest) with (dquote :: rest).
  rewrite (span_not_app _ _ _ Hq).
  destruct run; [congruence|reflexivity].
Qed.

Lemma match_at_dquote rest : match_at (dquote :: rest) = None.
Proof. reflexivity. Qed.

Lemma findall_reference run rest :
  well_formed_run run ->
  findall (reference run ++ rest) = run :: findall rest.
Proof.
  intros Hrun. rewrite (findall_hit _ _ _ (match_at_reference run rest Hrun)).
  rewrite findall_miss by apply match_at_dquote. reflexivity.
Qed.

(** In markup made of occurrences between quiet text, the runs come out
    in the order of the text, each as often as it stands there. *)
Lemma findall_markup : forall segments tail,
  Forall (fun seg => quiet (fst seg) /\ well_formed_run (snd seg)) segments ->
  quiet tail ->
  findall (markup segments tail) = List.map snd segments.
Proof.
  unfold markup.
  induction segments as [|[junk run] segments IH]; intros tail Hsegs Htail.
  - simpl. rewrite <- (app_nil_r tail), (findall_quiet _ _ Htail). reflexivity.
  - inversion Hsegs as [|? ? [Hjunk Hrun] Hrest]; subst. simpl in *.
    rewrite <- !app_assoc, (findall_quiet _ _ Hjunk).
    rewrite (findall_reference _ _ Hrun). f_equal.
    apply IH; assumption.
Qed.

Lemma match_atoms_prefix : forall p s rest,
  match_atoms p s = Some rest ->
  exists pre, s = pre ++ rest /\ match_atoms p pre = Some [].
Proof.
  induction p as [|a p IH]; intros s rest; simpl.
  - intros [= ->]. exists []. split; reflexivity.
  - destruct s as [|c s]; [discriminate|].
    destruct (atom_matches a c) eqn:Hc; [|discriminate].
    intros H. apply IH in H as (pre & -> & Hpre).
    exists (c :: pre). split; [reflexivity|]. simpl. rewrite Hc. exact Hpre.
Qed.

(** Where the pattern matches, the text is the matched prefix, the group
    and the rest, and the rest is empty or begins with a double quote. *)
Lemma match_at_occurrence s group after :
  match_at s = Some (group, after) ->
  exists prefix, s = prefix ++ group ++ after
    /\ match_atoms accession_pattern_text prefix = Some []
    /\ contains dquote group = false
    /\ (after = [] \/ exists rest, after = dquote :: rest).
Proof.
  unfold match_at.
  destruct (match_atoms accession_pattern_text s) as [rest|] eqn:Hp; [|discriminate].
  destruct (span_not dquote rest) as [g a] eqn:Hs.
  apply span_not_spec in Hs as (-> & Hg & Ha).
  apply match_atoms_prefix in Hp as (pre & -> & Hpre).
  destruct g as [|c g]; [discriminate|].
  intros [= <- <-]. exists pre. repeat split; assumption.
Qed.

(** Every group found stands in the text. *)
Lemma findall_occurs : forall n s,
  length s <= n -> Forall (occurrence s) (findall s).
Proof.
  induction n as [|n IH]; intros s Hn.
  - destruct s; [constructor|simpl in Hn; lia].
  - destruct s as [|c s]; [constructor|].
    destruct (match_at (c :: s)) as [[group after]|] eqn:Hm.
    + rewrite (findall_hit _ _ _ Hm).
      pose proof (match_at_spec _ _ _ Hm) as (_ & _ & Hlen).
      apply match_at_occurrence in Hm as (prefix & Hs & Hpre & Hq & Hafter).
      constructor.
      * exists [], prefix, after. repeat split; assumption.
      * eapply Forall_impl; [apply (IH after); simpl in *; lia|].
        intros run (before' & prefix' & after' & -> & Hpre' & Hq' & Hafter').
        exists (prefix ++ group ++ before'), prefix', after'.
        rewrite Hs, <- !app_assoc. repeat split; assumption.
    + rewrite (findall_miss _ _ Hm).
      eapply Forall_impl; [apply (IH s); simpl in Hn; lia|].
      intros run (before' & prefix' & after' & -> & Hpre' & Hq' & Hafter').
      exists (c :: before'), prefix', after'. repeat split; assumption.
Qed.

End ReFacts.

(** ** The reference extractor *)

Lemma accession_of_match_record run :
  accession_of_match run = Returns (record_of_run run).
Proof.
  unfold accession_of_match, record_of_run.
  destruct (contains qmark run) eqn:Hc.
  - apply contains_true_split in Hc as (acc & qs & -> & Hacc).
    rewrite (split1_app _ _ _ Hacc), (span_not_app _ _ _ Hacc).
    cbn [unpack2 py_bind].
    rewrite !UrlParseFacts.get_first_value. reflexivity.
  - rewrite (span_not_all _ _ Hc). reflexivity.
Qed.

Lemma record_of_run_query acc qs :
  contains qmark acc = false ->
  record_of_run (acc ++ qmark :: qs)
    = {| accession := acc;
         from_position := first_value (lit "from") (query_fields qs);
         to_position := first_value (lit "to") (query_fields qs);
         strand := first_value (lit "strand") (query_fields qs) |}.
Proof.
  intros Hacc. unfold record_of_run. rewrite (span_not_app _ _ _ Hacc). reflexivity.
Qed.

Lemma record_of_run_plain run :
  contains qmark run = false ->
  record_of_run run
    = {| accession := run; from_position := None; to_position := None; strand := None |}.
Proof.
  intros Hc. unfold record_of_run. rewrite (span_not_all _ _ Hc). reflexivity.
Qed.

Lemma extract_loop_map : forall matches accessions,
  extract_loop matches accessions
    = Returns (accessions ++ List.map record_of_run matches).
Proof.
  induction matches as [|m matches IH]; intros accessions; simpl.
  - rewrite app_nil_r. reflexivity.
  - rewrite accession_of_match_record. cbn [py_bind].
    rewrite IH, <- app_assoc. reflexivity.
Qed.

Lemma extract_map html :
  extract_ncbi_accessions html = Returns (List.map record_of_run (Re.findall html)).
Proof. unfold extract_ncbi_accessions. apply extract_loop_map. Qed.

Lemma record_of_run_no_blank run : no_blank_qualifier (record_of_run run).
Proof.
  unfold record_of_run, no_blank_qualifier.
  destruct (span_not qmark run) as [acc [|q qs]]; simpl.
  - repeat split; discriminate.
  - repeat split; apply UrlParseFacts.first_value_not_blank.
Qed.

Lemma accession_of_run_empty run :
  run <> [] ->
  (accession (record_of_run run) = [] <-> exists qs, run = qmark :: qs).
Proof.
  intros Hne. destruct run as [|x run]; [congruence|].
  unfold record_of_run. cbn [span_not].
  destruct (N.eqb_spec x qmark) as [->|Hx].
  - simpl. split; [|reflexivity]. intros _. exists run. reflexivity.
  - destruct (span_not qmark run) as [acc [|q qs]]; simpl;
      (split; [discriminate|]); intros [qs' [= ? ?]]; contradiction.
Qed.

Lemma contains_app c a b : contains c (a ++ b) = contains c a || contains c b.
Proof.
  induction a as [|x a IH]; simpl; [reflexivity|].
  rewrite IH. destruct (x =? c)%N; reflexivity.
Qed.

Lemma query_fields_join pieces :
  Forall (fun p => contains ampersand p = false) pieces ->
  query_fields (join ampersand pieces) = omap key_value pieces.
Proof.
  intros Hall. unfold query_fields.
  destruct pieces as [|p pieces]; [reflexivity|].
  rewrite split_join; [reflexivity|discriminate|exact Hall].
Qed.

Lemma key_value_piece kv :
  well_formed_pair kv -> key_value (piece kv) = Some (decoded kv).
Proof.
  destruct kv as [k v]. intros (_ & Hk & _ & Hv). simpl in *.
  unfold key_value, piece, decoded. simpl.
  rewrite (span_not_app _ _ _ Hk). destruct v; [congruence|reflexivity].
Qed.

Lemma piece_no_ampersand kv :
  well_formed_pair kv -> contains ampersand (piece kv) = false.
Proof.
  destruct kv as [k v]. intros (Hk & _ & Hv & _). simpl in *.
  unfold piece. simpl. rewrite contains_app. simpl. rewrite Hk, Hv. reflexivity.
Qed.

(** A query string written from pairs reads back as the decoded pairs, in
    order. *)
Lemma query_fields_pairs : forall pairs,
  Forall well_formed_pair pairs ->
  query_fields (join ampersand (List.map piece pairs)) = List.map decoded pairs.
Proof.
  intros pairs Hall. rewrite query_fields_join.
  - induction Hall as [|kv pairs Hkv _ IH]; [reflexivity|].
    cbn [List.map omap list_omap]. rewrite (key_value_piece _ Hkv), IH. reflexivity.
  - induction Hall as [|kv pairs Hkv _ IH]; constructor; [|exact IH].
    apply piece_no_ampersand, Hkv.
Qed.

Lemma key_value_blank key :
  contains equals key = false -> key_value (key ++ [equals]) = None.
Proof.
  intros Hk. unfold key_value. rewrite (span_not_app _ _ _ Hk). reflexivity.
Qed.

(** A piece with a blank value contributes no pair. *)
Lemma query_fields_blank before key after :
  contains ampersand key = false -> contains equals key = false ->
  Forall (fun p => contains ampersand p = false) before ->
  Forall (fun p => contains ampersand p = false) after ->
  query_fields (join ampersand (before ++ (key ++ [equals]) :: after))
    = query_fields (join ampersand (before ++ after)).
Proof.
  intros Hamp Heq Hb Ha. rewrite !query_fields_join.
  - rewrite !omap_app. cbn [omap list_omap]. rewrite (key_value_blank _ Heq). reflexivity.
  - apply Forall_app. split; assumption.
  - apply Forall_app. split; [assumption|]. constructor; [|assumption].
    rewrite contains_app, Hamp. reflexivity.
Qed.

Lemma quiet_anchor : quiet anchor.
Proof.
  intros i rest Hi.
  do 9 (destruct i as [|i]; [reflexivity|]).
  simpl in Hi. lia.
Qed.

Lemma quiet_after_text text :
  quiet text -> quiet (text ++ anchor).
Proof.
  intros Ht i rest Hi.
  destruct (Nat.lt_ge_cases i (length text)) as [Hlt|Hge].
  - rewrite drop_app_le by lia. rewrite <- app_assoc. apply Ht. exact Hlt.
  - rewrite drop_app_ge by lia. apply quiet_anchor.
    rewrite length_app in Hi. lia.
Qed.

Ltac quiet_by_cases :=
  let i := fresh "i" in
  let rest := fresh "rest" in
  let Hi := fresh "Hi" in
  intros i rest Hi;
  repeat (destruct i as [|i]; [reflexivity|]);
  exfalso; vm_compute in Hi; lia.

Lemma sample_page_segments :
  Forall (fun seg => quiet (fst seg) /\ well_formed_run (snd seg))
    [ (anchor, lit "ABC123?from=10&to=50&strand=2");
      (lit ">ABC123</a> " ++ anchor, lit "CD2");
      (lit ">CD2</a> " ++ anchor, lit "ABC123?from=10&to=50&strand=2") ].
Proof.
  assert (Hrun : forall run, truthy run && negb (contains dquote run) = true ->
                             well_formed_run run).
  { intros run H. apply andb_true_iff in H as [H1 H2]. split.
    - destruct run; discriminate.
    - destruct (contains dquote run); [discriminate|reflexivity]. }
  constructor; [split; [apply quiet_anchor|apply Hrun; reflexivity]|].
  constructor;
    [split; [apply quiet_after_text; quiet_by_cases|apply Hrun; reflexivity]|].
  constructor;
    [split; [apply quiet_after_text; quiet_by_cases|apply Hrun; reflexivity]|].
  constructor.
Qed.

Lemma sample_page_tail : quiet (lit ">ABC123</a>").
Proof. quiet_by_cases. Qed.

(** ** URL decoding *)

Lemma utf8_decode_ascii : forall bs,
  ascii_text bs -> UrlParse.utf8_decode_replace bs = bs.
Proof.
  induction bs as [|b bs IH]; intros Hall; [reflexivity|].
  inversion Hall as [|? ? Hb Hbs]; subst. cbn [UrlParse.utf8_decode_replace].
  replace (b <? 128)%N with true.
  - rewrite (IH Hbs). reflexivity.
  - symmetry. unfold UrlParse.is_ascii in Hb. apply N.ltb_lt. apply N.leb_le in Hb. lia.
Qed.

Lemma hex_value_hexval c : UrlParse.hexval c = hex_value c.
Proof. reflexivity. Qed.

Lemma replace_map s : replace plus space s = List.map spaced s.
Proof. reflexivity. Qed.

Lemma hex_value_spaced c : hex_value (spaced c) = hex_value c.
Proof.
  unfold spaced. destruct (N.eqb_spec c plus) as [->|]; reflexivity.
Qed.

Lemma contains_percent_replace : forall s,
  contains percent (replace plus space s) = contains percent s.
Proof.
  induction s as [|c s IH]; [reflexivity|].
  rewrite replace_map in *. cbn [List.map contains]. rewrite IH.
  unfold spaced. destruct (N.eqb_spec c plus) as [->|]; reflexivity.
Qed.

Lemma replace_app a b : replace plus space (a ++ b) = replace plus space a ++ replace plus space b.
Proof. apply List.map_app. Qed.

(** Text without a percent sign stands for itself, with spaces for its
    plus signs. *)
Lemma percent_octets_plain : forall a r,
  contains percent a = false ->
  percent_octets (a ++ r) = replace plus space a ++ percent_octets r.
Proof.
  induction a as [|c a IH]; intros r Ha; [reflexivity|].
  apply contains_false_cons in Ha as [Hc Ha].
  cbn [app percent_octets]. destruct (N.eqb_spec c percent); [contradiction|].
  rewrite (IH r Ha). reflexivity.
Qed.

Lemma percent_octets_stray r :
  (r = [] \/ exists r', r = percent :: r') ->
  percent_octets (percent :: r) = percent :: percent_octets r.
Proof.
  intros [->|[r' ->]]; [reflexivity|].
  cbn [percent_octets]. rewrite N.eqb_refl.
  destruct r' as [|l r'']; reflexivity.
Qed.

(** What follows a percent sign up to the next one is read as
    [unquote_to_bytes] reads an item. *)
Lemma percent_octets_item a r :
  contains percent a = false ->
  (r = [] \/ exists r', r = percent :: r') ->
  percent_octets (percent :: a ++ r)
  = UrlParse.unquote_item (replace plus space a) ++ percent_octets r.
Proof.
  intros Ha Hr. destruct a as [|h [|l a]].
  - apply percent_octets_stray, Hr.
  - apply contains_false_cons in Ha as [Hh _].
    assert (Hgo : percent_octets (percent :: [h] ++ r)
                  = percent :: percent_octets ([h] ++ r)).
    { cbn [percent_octets app]. rewrite N.eqb_refl.
      destruct Hr as [->|[r' ->]]; [reflexivity|].
      destruct (hex_value h); reflexivity. }
    rewrite Hgo. cbn [app percent_octets].
    destruct (N.eqb_spec h percent); [contradiction|]. reflexivity.
  - change (percent_octets (percent :: (h :: l :: a) ++ r))
      with (match hex_value h, hex_value l with
            | Some x, Some y => (16 * x + y)%N :: percent_octets (a ++ r)
            | _, _ => percent :: percent_octets ((h :: l :: a) ++ r)
            end).
    rewrite replace_map. cbn [List.map UrlParse.unquote_item].
    change (UrlParse.hexval (spaced h)) with (hex_value (spaced h)).
    change (UrlParse.hexval (spaced l)) with (hex_value (spaced l)).
    rewrite (hex_value_spaced h), (hex_value_spaced l), <- replace_map.
    pose proof Ha as Ha'.
    apply contains_false_cons in Ha' as [_ Ha'].
    apply contains_false_cons in Ha' as [_ Ha'].
    destruct (hex_value h) as [x|]; [destruct (hex_value l) as [y|]|].
    + rewrite (percent_octets_plain _ _ Ha'). reflexivity.
    + rewrite (percent_octets_plain _ _ Ha). reflexivity.
    + rewrite (percent_octets_plain _ _ Ha). reflexivity.
Qed.

Lemma percent_octets_items : forall n s,
  length s <= n ->
  percent_octets (percent :: s)
  = concat (List.map UrlParse.unquote_item (split percent (replace plus space s))).
Proof.
  induction n as [|n IH]; intros s Hn.
  - destruct s; [reflexivity|simpl in Hn; lia].
  - destruct (contains percent s) eqn:Hc.
    + apply contains_true_split in Hc as (a & b & -> & Ha).
      rewrite replace_app. change (replace plus space (percent :: b))
        with (percent :: replace plus space b).
      rewrite split_app by (rewrite contains_percent_replace; exact Ha).
      cbn [List.map concat]. rewrite <- IH.
      * apply percent_octets_item; [exact Ha|]. right. eexists. reflexivity.
      * rewrite length_app in Hn. simpl in Hn. lia.
    + rewrite split_all by (rewrite contains_percent_replace; exact Hc).
      cbn [List.map concat]. rewrite app_nil_r.
      rewrite <- (app_nil_r s) at 1.
      rewrite (percent_octets_item s [] Hc); [|left; reflexivity].
      apply app_nil_r.
Qed.

Lemma split_not_nil c : forall s, split c s <> [].
Proof.
  induction s as [|x s IH]; simpl; [discriminate|].
  destruct (x =? c)%N; [discriminate|].
  destruct (split c s); [contradiction|discriminate].
Qed.

(** [unquote_to_bytes], after the plus signs were replaced, gives the
    octets the text stands for. *)
Lemma unquote_to_bytes_octets s :
  UrlParse.unquote_to_bytes (replace plus space s) = percent_octets s.
Proof.
  destruct (contains percent s) eqn:Hc.
  - apply contains_true_split in Hc as (a & b & -> & Ha).
    rewrite (percent_octets_plain _ _ Ha).
    rewrite (percent_octets_items (length b) b (Nat.le_refl _)).
    rewrite replace_app. change (replace plus space (percent :: b))
      with (percent :: replace plus space b).
    unfold UrlParse.unquote_to_bytes.
    rewrite split_app by (rewrite contains_percent_replace; exact Ha).
    destruct (split percent (replace plus space b)) as [|x xs] eqn:Hs.
    { destruct (split_not_nil _ _ Hs). }
    destruct (replace plus space a ++ percent :: replace plus space b) eqn:Hw.
    { destruct (replace plus space a); discriminate. }
    reflexivity.
  - rewrite <- (app_nil_r s) at 2. rewrite (percent_octets_plain _ _ Hc), app_nil_r.
    unfold UrlParse.unquote_to_bytes.
    rewrite split_all by (rewrite contains_percent_replace; exact Hc).
    destruct (replace plus space s); reflexivity.
Qed.

Lemma ascii_text_replace s : ascii_text s -> ascii_text (replace plus space s).
Proof.
  intros H. apply Forall_map. eapply Forall_impl; [exact H|].
  intros c Hc. simpl. destruct (c =? plus)%N; [reflexivity|exact Hc].
Qed.

Lemma unquote_runs_ascii : forall s run,
  ascii_text s ->
  UrlParse.unquote_runs run s
  = UrlParse.utf8_decode_replace (UrlParse.unquote_to_bytes (run ++ s)).
Proof.
  induction s as [|c s IH]; intros run Hall.
  - rewrite app_nil_r. reflexivity.
  - inversion Hall as [|? ? Hc Hs]; subst. cbn [UrlParse.unquote_runs].
    rewrite Hc, (IH _ Hs), <- app_assoc. reflexivity.
Qed.

(** The decoding of ASCII text: its octets, read as UTF-8. *)
Lemma url_decode_octets s :
  ascii_text s ->
  url_decode s = UrlParse.utf8_decode_replace (percent_octets s).
Proof.
  intros Hs. unfold url_decode, UrlParse.unquote.
  destruct (contains percent (replace plus space s)) eqn:Hc; cbn [negb].
  - rewrite unquote_runs_ascii by (apply ascii_text_replace, Hs).
    cbn [app]. rewrite unquote_to_bytes_octets. reflexivity.
  - rewrite contains_percent_replace in Hc.
    rewrite <- (app_nil_r s) at 2. rewrite (percent_octets_plain _ _ Hc), app_nil_r.
    symmetry. apply utf8_decode_ascii, ascii_text_replace, Hs.
Qed.

(** ** URL encoding and decoding *)

Lemma hex_value_hex_digit lower d :
  (d < 16)%N -> hex_value (hex_digit lower d) = Some d.
Proof.
  intros Hd. rewrite <- (N2Nat.id d).
  assert (Hn : N.to_nat d < 16) by lia.
  revert Hn. generalize (N.to_nat d). intros n Hn.
  do 16 (destruct n as [|n]; [destruct lower; reflexivity|]). lia.
Qed.

Lemma hex_digit_class lower d :
  (d < 16)%N ->
  UrlParse.is_ascii (hex_digit lower d) = true
  /\ hex_digit lower d <> ampersand /\ hex_digit lower d <> equals
  /\ hex_digit lower d <> percent /\ hex_digit lower d <> plus.
Proof.
  intros Hd. rewrite <- (N2Nat.id d).
  assert (Hn : N.to_nat d < 16) by lia.
  revert Hn. generalize (N.to_nat d). intros n Hn.
  do 16 (destruct n as [|n];
         [destruct lower; (split; [reflexivity|]); repeat split; discriminate|]).
  lia.
Qed.

Lemma percent_octets_escape lower b r :
  (b < 256)%N -> percent_octets (escape lower b ++ r) = b :: percent_octets r.
Proof.
  intros Hb. unfold escape. cbn [app percent_octets]. rewrite N.eqb_refl.
  rewrite !hex_value_hex_digit.
  - f_equal. symmetry. apply (N.div_mod b 16). discriminate.
  - apply N.mod_upper_bound. discriminate.
  - apply N.Div0.div_lt_upper_bound. exact Hb.
Qed.

Lemma percent_octets_escapes lower : forall bs r,
  Forall (fun b => (b < 256)%N) bs ->
  percent_octets (concat (List.map (escape lower) bs) ++ r) = bs ++ percent_octets r.
Proof.
  induction bs as [|b bs IH]; intros r Hall; [reflexivity|].
  inversion Hall as [|? ? Hb Hbs]; subst.
  cbn [List.map concat]. rewrite <- app_assoc, (percent_octets_escape _ _ _ Hb).
  rewrite (IH r Hbs). reflexivity.
Qed.

(** Quotients and remainders by constants, turned into the equations that
    define them. *)
Ltac div_mod_name a b :=
  let q := fresh "q" in
  let m := fresh "m" in
  pose proof (N.div_mod a b ltac:(discriminate));
  pose proof (N.mod_upper_bound a b ltac:(discriminate));
  set (q := (a / b)%N) in *; set (m := (a mod b)%N) in *;
  clearbody q m.

Ltac div_mod_facts :=
  repeat match goal with
         | |- context [(?a / ?b)%N] => div_mod_name a b
         | |- context [(?a mod ?b)%N] => div_mod_name a b
         | H : context [(?a / ?b)%N] |- _ => div_mod_name a b
         | H : context [(?a mod ?b)%N] |- _ => div_mod_name a b
         end.

Lemma utf8_encode_octets c :
  (c <= 0x10FFFF)%N -> Forall (fun b => (b < 256)%N) (utf8_encode c).
Proof.
  intros Hc. unfold utf8_encode.
  destruct (N.ltb_spec c 0x80); [|destruct (N.ltb_spec c 0x800);
                                   [|destruct (N.ltb_spec c 0x10000)]];
    repeat (apply List.Forall_cons); try apply List.Forall_nil.
  all: div_mod_facts; lia.
Qed.

(** One test of the decoder, settled by arithmetic. *)
Ltac settle_test :=
  first
    [ match goal with
      | |- context [(?a <? ?b)%N] =>
          destruct (N.ltb_spec a b); try (exfalso; lia)
      end
    | match goal with
      | |- context [(?a <=? ?b)%N] =>
          destruct (N.leb_spec a b); try (exfalso; lia)
      end
    | match goal with
      | |- context [(?a =? ?b)%N] =>
          destruct (N.eqb_spec a b); try (exfalso; lia)
      end ];
  cbn [negb andb orb].

(** The decoder reads back the octets of a scalar value. *)
Lemma utf8_decode_encode c r :
  scalar c ->
  UrlParse.utf8_decode_replace (utf8_encode c ++ r)
  = c :: UrlParse.utf8_decode_replace r.
Proof.
  intros Hc. unfold scalar in Hc. unfold utf8_encode.
  destruct (N.ltb_spec c 0x80); [|destruct (N.ltb_spec c 0x800);
                                   [|destruct (N.ltb_spec c 0x10000)]];
    div_mod_facts;
    cbn [app UrlParse.utf8_decode_replace]; unfold UrlParse.is_continuation;
    repeat settle_test; f_equal; lia.
Qed.

Lemma utf8_decode_encoded : forall v,
  Forall scalar v ->
  UrlParse.utf8_decode_replace (concat (List.map utf8_encode v)) = v.
Proof.
  induction v as [|c v IH]; intros Hall; [reflexivity|].
  inversion Hall as [|? ? Hc Hv]; subst.
  cbn [List.map concat]. rewrite (utf8_decode_encode _ _ Hc), (IH Hv). reflexivity.
Qed.

Lemma unreserved_class c :
  unreserved c = true ->
  UrlParse.is_ascii c = true
  /\ c <> ampersand /\ c <> equals /\ c <> percent /\ c <> plus.
Proof.
  unfold unreserved, UrlParse.is_ascii, ampersand, equals, percent, plus.
  intros H. repeat (apply orb_true_iff in H as [H|H]);
    repeat (apply andb_true_iff in H as [? H]);
    repeat match goal with
           | H : (_ <=? _)%N = true |- _ => apply N.leb_le in H
           | H : (_ =? _)%N = true |- _ => apply N.eqb_eq in H
           end;
    (split; [apply N.leb_le; lia|]); repeat split; lia.
Qed.

Lemma escape_chars lower b : (b < 256)%N -> Forall encoded_char (escape lower b).
Proof.
  intros Hb. unfold escape.
  assert (Hhi : (b / 16 < 16)%N) by (apply N.Div0.div_lt_upper_bound; exact Hb).
  assert (Hlo : (b mod 16 < 16)%N) by (apply N.mod_upper_bound; discriminate).
  destruct (hex_digit_class lower _ Hhi) as (? & ? & ? & _).
  destruct (hex_digit_class lower _ Hlo) as (? & ? & ? & _).
  repeat apply List.Forall_cons; try apply List.Forall_nil;
    repeat split; try assumption; discriminate.
Qed.

Lemma encode_char_chars lower c :
  (c <= 0x10FFFF)%N -> Forall encoded_char (encode_char lower c).
Proof.
  intros Hc. unfold encode_char.
  destruct (c =? space)%N.
  { repeat constructor; discriminate. }
  destruct (unreserved c) eqn:Hu.
  { apply unreserved_class in Hu as (? & ? & ? & _). repeat constructor; assumption. }
  pose proof (utf8_encode_octets c Hc) as Hbytes.
  induction Hbytes as [|b bs Hb _ IH]; [constructor|].
  cbn [List.map concat]. apply Forall_app. split; [apply escape_chars, Hb|exact IH].
Qed.

Lemma encode_char_not_nil lower c : encode_char lower c <> [].
Proof.
  unfold encode_char. destruct (c =? space)%N; [discriminate|].
  destruct (unreserved c); [discriminate|].
  unfold utf8_encode.
  destruct (c <? 128)%N; [discriminate|].
  destruct (c <? 2048)%N; [discriminate|].
  destruct (c <? 65536)%N; discriminate.
Qed.

Lemma scalar_bound c : scalar c -> (c <= 0x10FFFF)%N.
Proof. unfold scalar. lia. Qed.

Lemma url_encode_chars lower : forall v,
  Forall scalar v -> Forall encoded_char (url_encode lower v).
Proof.
  induction v as [|c v IH]; intros Hall; [constructor|].
  inversion Hall as [|? ? Hc Hv]; subst. unfold url_encode. cbn [List.map concat].
  apply Forall_app. split; [apply encode_char_chars, scalar_bound, Hc|apply IH, Hv].
Qed.

Lemma encoded_chars_ascii s : Forall encoded_char s -> ascii_text s.
Proof. intros H. eapply Forall_impl; [exact H|]. intros c (Hc & _). exact Hc. Qed.

Lemma encoded_chars_contains s :
  Forall encoded_char s ->
  contains ampersand s = false /\ contains equals s = false.
Proof.
  induction 1 as [|c s (_ & Ha & He) _ [IHa IHe]]; [split; reflexivity|].
  split; apply contains_false_cons; split; assumption.
Qed.

Lemma url_encode_not_nil lower v : v <> [] -> url_encode lower v <> [].
Proof.
  destruct v as [|c v]; [congruence|]. intros _. unfold url_encode.
  cbn [List.map concat]. pose proof (encode_char_not_nil lower c) as Hne.
  destruct (encode_char lower c); [congruence|discriminate].
Qed.

(** The octets of an encoded character are its octets in UTF-8. *)
Lemma percent_octets_encode_char lower c r :
  scalar c ->
  percent_octets (encode_char lower c ++ r) = utf8_encode c ++ percent_octets r.
Proof.
  intros Hc. unfold encode_char.
  destruct (N.eqb_spec c space) as [->|Hsp]; [reflexivity|].
  destruct (unreserved c) eqn:Hu.
  - apply unreserved_class in Hu as (Ha & _ & _ & Hp & Hpl).
    cbn [app percent_octets].
    destruct (N.eqb_spec c percent); [contradiction|].
    destruct (N.eqb_spec c plus); [contradiction|].
    unfold utf8_encode. unfold UrlParse.is_ascii in Ha. apply N.leb_le in Ha.
    destruct (N.ltb_spec c 0x80); [reflexivity|lia].
  - apply percent_octets_escapes, utf8_encode_octets, scalar_bound, Hc.
Qed.

Lemma percent_octets_url_encode lower : forall v,
  Forall scalar v ->
  percent_octets (url_encode lower v) = concat (List.map utf8_encode v).
Proof.
  induction v as [|c v IH]; intros Hall; [reflexivity|].
  inversion Hall as [|? ? Hc Hv]; subst. unfold url_encode. cbn [List.map concat].
  rewrite (percent_octets_encode_char _ _ _ Hc). f_equal. apply IH, Hv.
Qed.

(** Decoding undoes encoding: every Unicode text comes back as it was. *)
Lemma url_decode_encode lower v :
  Forall scalar v -> url_decode (url_encode lower v) = v.
Proof.
  intros Hv. rewrite url_decode_octets.
  - rewrite (percent_octets_url_encode _ _ Hv). apply utf8_decode_encoded, Hv.
  - apply encoded_chars_ascii, url_encode_chars, Hv.
Qed.

(** ** Pieces of a query string *)

(** A piece gives no pair exactly when it holds no equals sign or nothing
    after its first one. *)
Lemma key_value_none p :
  key_value p = None
  <-> (contains equals p = false
       \/ exists key, p = key ++ [equals] /\ contains equals key = false).
Proof.
  unfold key_value. destruct (span_not equals p) as [key rest] eqn:Hs.
  pose proof Hs as Hs'.
  apply span_not_spec in Hs' as (-> & Hkey & Hrest).
  destruct rest as [|e [|c value]].
  - split; [|reflexivity]. intros _. left. rewrite app_nil_r. exact Hkey.
  - split; [|reflexivity]. intros _. right. exists key.
    destruct Hrest as [|[? [= -> _]]]; [discriminate|]. split; [reflexivity|exact Hkey].
  - split; [discriminate|].
    destruct Hrest as [|[? [= -> _]]]; [discriminate|].
    intros [Hc|(key' & Heq & Hkey')].
    + rewrite contains_app_mid in Hc. discriminate.
    + rewrite Heq, (span_not_app _ _ _ Hkey') in Hs. congruence.
Qed.

Lemma key_value_some key v :
  contains equals key = false -> v <> [] ->
  key_value (key ++ equals :: v) = Some (url_decode key, url_decode v).
Proof.
  intros Hkey Hv. unfold key_value. rewrite (span_not_app _ _ _ Hkey).
  destruct v; [congruence|reflexivity].
Qed.

(** A query string written from pairs of Unicode text reads back as those
    pairs, in order. *)
Lemma query_fields_urlencode lower pairs :
  Forall carried pairs -> query_fields (urlencode lower pairs) = pairs.
Proof.
  intros Hall. unfold urlencode.
  assert (Hpieces : List.map (encoded_piece lower) pairs
    = List.map piece
        (List.map (fun kv => (url_encode lower (fst kv), url_encode lower (snd kv))) pairs)).
  { rewrite List.map_map. reflexivity. }
  rewrite Hpieces, query_fields_pairs.
  - rewrite List.map_map. rewrite <- (List.map_id pairs) at 2.
    apply List.map_ext_in. intros [k v] Hin.
    rewrite List.Forall_forall in Hall. destruct (Hall _ Hin) as (Hk & Hv & _).
    unfold decoded. cbn [fst snd] in *.
    rewrite (url_decode_encode _ _ Hk), (url_decode_encode _ _ Hv). reflexivity.
  - apply Forall_map. eapply Forall_impl; [exact Hall|].
    intros [k v] (Hk & Hv & Hne). cbn [fst snd] in *.
    destruct (encoded_chars_contains _ (url_encode_chars lower _ Hk)) as [Hka Hke].
    destruct (encoded_chars_contains _ (url_encode_chars lower _ Hv)) as [Hva _].
    repeat split; cbn [fst snd]; try assumption.
    apply url_encode_not_nil, Hne.
Qed.

(** C2, as the program has it.  A run with a question mark is cut at the
    first one: the text before it is the accession, the text after it is
    read as pieces joined by ampersands.  A piece without an equals sign or
    with nothing after its first one is dropped; every other piece is a
    key and a value around its first equals sign, both URL-decoded: on
    ASCII text the decoding reads a plus sign as a space, a percent sign
    with two hexadecimal digits as an octet, and the octets as UTF-8, so
    that it undoes the URL encoding of every Unicode text, and a query
    string written from pairs reads back as those pairs.  The three
    qualifiers are the first values of the decoded keys [from], [to] and
    [strand] among the pairs that remain, compared exactly; the pairs of
    other keys play no part; a key that is not among them gives an absent
    field, and no field is the empty string. *)
Theorem extract_query_qualifiers (acc qs : pystr) :
  contains qmark acc = false ->
  accession_of_match (acc ++ qmark :: qs)
    = Returns {| accession := acc;
                 from_position := first_value (lit "from") (query_fields qs);
                 to_position := first_value (lit "to") (query_fields qs);
                 strand := first_value (lit "strand") (query_fields qs) |}
  /\ query_fields qs = omap key_value (split ampersand qs)
  /\ (forall p,
        key_value p = None
        <-> (contains equals p = false
             \/ exists key, p = key ++ [equals] /\ contains equals key = false))
  /\ (forall key v,
        contains equals key = false -> v <> [] ->
        key_value (key ++ equals :: v) = Some (url_decode key, url_decode v))
  /\ (forall s,
        ascii_text s ->
        url_decode s = UrlParse.utf8_decode_replace (percent_octets s))
  /\ (forall lower v, Forall scalar v -> url_decode (url_encode lower v) = v)
  /\ (forall lower pairs,
        Forall carried pairs -> qs = urlencode lower pairs ->
        query_fields qs = pairs)
  /\ (forall pairs, Forall well_formed_pair pairs ->
        qs = join ampersand (List.map piece pairs) ->
        query_fields qs = List.map decoded pairs)
  /\ (forall key, first_value key (query_fields qs)
                  = head (values_of key (query_fields qs)))
  /\ (forall key before v after,
        query_fields qs = before ++ (key, v) :: after ->
        (forall v', ~ In (key, v') before) ->
        first_value key (query_fields qs) = Some v)
  /\ (forall key,
        (forall v, ~ In (key, v) (query_fields qs)) ->
        first_value key (query_fields qs) = None)
  /\ (forall key, first_value key (query_fields qs) <> Some []).
Proof.
  intros Hacc. repeat apply conj.
  - rewrite accession_of_match_record. f_equal. apply record_of_run_query, Hacc.
  - reflexivity.
  - apply key_value_none.
  - apply key_value_some.
  - apply url_decode_octets.
  - apply url_decode_encode.
  - intros lower pairs Hall ->. apply query_fields_urlencode, Hall.
  - intros pairs Hall ->. apply query_fields_pairs, Hall.
  - intros key. symmetry. apply UrlParseFacts.head_values_of.
  - intros key before v after -> Habs. apply UrlParseFacts.first_value_first, Habs.
  - intros key Habs. apply UrlParseFacts.first_value_absent, Habs.
  - intros key. apply UrlParseFacts.first_value_not_blank.
Qed.

Lemma extract_query_qualifiers_witness :
  contains qmark (lit "ABC123") = false
  /\ accession_of_match (lit "ABC123?from=10&from=99&From=7&x=%41")
     = Returns {| accession := lit "ABC123";
                  from_position := Some (lit "10");
                  to_position := None;
                  strand := None |}
  /\ query_fields (lit "to=1+%E2%82%AC&strand=%2B")
     = [ (lit "to", [49; 32; 0x20AC]%N); (lit "strand", lit "+") ].
Proof.
  split; [reflexivity|]. split.
  - exact (proj1 (extract_query_qualifiers (lit "ABC123")
                    (lit "from=10&from=99&From=7&x=%41") eq_refl)).
  - destruct (extract_query_qualifiers (lit "ABC123") (lit "to=1+%E2%82%AC&strand=%2B")
                eq_refl) as (_ & _ & _ & _ & _ & _ & Hback & _).
    apply (Hback false [ (lit "to", [49; 32; 0x20AC]%N); (lit "strand", lit "+") ]);
      [|reflexivity].
    repeat apply List.Forall_cons; try apply List.Forall_nil;
      (split; [|split; [|discriminate]]); cbn [fst snd];
      repeat apply List.Forall_cons; try apply List.Forall_nil;
      left; reflexivity.
Defined.

(** C2, as stated, fails.  The key of the first piece is written with a
    percent escape, so it is not the text [from], and yet its value is the
    one taken: keys are decoded before they are compared.  And where the
    key is repeated and its first occurrence has a blank value, the value
    of the second occurrence is taken: blank values are dropped before the
    first one is chosen. *)
Lemma extract_decoded_key_and_blank_value :
  accession_of_match (lit "A?%66rom=7&from=10")
  = Returns {| accession := lit "A";
               from_position := Some (lit "7");
               to_position := None;
               strand := None |}
  /\ accession_of_match (lit "A?from=&from=99")
     = Returns {| accession := lit "A";
                  from_position := Some (lit "99");
                  to_position := None;
                  strand := None |}.
Proof. split; vm_compute; reflexivity. Qed.

(** The example of the specification. *)
Example extract_example_all_qualifiers :
  extract_ncbi_accessions (reference (lit "ABC123?from=10&to=50&strand=2"))
  = Returns [ {| accession := lit "ABC123";
                 from_position := Some (lit "10");
                 to_position := Some (lit "50");
                 strand := Some (lit "2") |} ].
Proof. vm_compute. reflexivity. Qed.

(** C5, as stated, fails: a run that begins with a question mark gives a
    record whose accession is empty. *)
Lemma extract_empty_accession :
  extract_ncbi_accessions (reference (lit "?from=1"))
  = Returns [ {| accession := [];
                 from_position := Some (lit "1");
                 to_position := None;
                 strand := None |} ].
Proof. vm_compute. reflexivity. Qed.

(** C5, as the program has it.  The records are those of the runs that
    [re.findall] matches in the markup, one each.  Every such run stands in
    the markup after a prefix that the fixed text of the pattern matches,
    and is non-empty.  The record of a run without a question mark has the
    run as its accession, so a non-empty one; the record of a run with one
    has the text before the first question mark, which is empty exactly
    when the run begins with it.  And the first occurrence in the markup is
    found: its record is the first of the list. *)
Theorem extract_accession_of_run (html : pystr) :
  extract_ncbi_accessions html = Returns (List.map record_of_run (Re.findall html))
  /\ Forall (fun run =>
               run <> []
               /\ occurrence html run
               /\ (contains qmark run = false ->
                     accession (record_of_run run) = run
                     /\ accession (record_of_run run) <> [])
               /\ (forall acc qs, run = acc ++ qmark :: qs -> contains qmark acc = false ->
                     accession (record_of_run run) = acc)
               /\ (accession (record_of_run run) = [] <-> exists qs, run = qmark :: qs))
            (Re.findall html)
  /\ (forall before run after,
        quiet before -> well_formed_run run ->
        html = before ++ reference run ++ after ->
        exists others,
          extract_ncbi_accessions html = Returns (record_of_run run :: others)).
Proof.
  split; [apply extract_map|]. split.
  2:{ intros before run after Hq Hrun ->. exists (List.map record_of_run (Re.findall after)).
      rewrite extract_map, (ReFacts.findall_quiet _ _ Hq).
      rewrite (ReFacts.findall_reference _ _ Hrun). reflexivity. }
  pose proof (ReFacts.findall_groups (length html) html (Nat.le_refl _)) as Hgroups.
  pose proof (ReFacts.findall_occurs (length html) html (Nat.le_refl _)) as Hoccurs.
  rewrite List.Forall_forall in Hgroups, Hoccurs.
  apply List.Forall_forall. intros run Hin.
  destruct (Hgroups run Hin) as [Hne _].
  split; [exact Hne|]. split; [apply Hoccurs, Hin|]. split; [|split].
  - intros Hc. rewrite (record_of_run_plain _ Hc). split; [reflexivity|exact Hne].
  - intros acc qs -> Hacc. rewrite (record_of_run_query _ _ Hacc). reflexivity.
  - apply accession_of_run_empty, Hne.
Qed.

Lemma extract_accession_of_run_witness :
  quiet anchor /\ well_formed_run (lit "?from=1")
  /\ exists others,
       extract_ncbi_accessions (anchor ++ reference (lit "?from=1") ++ lit ">x</a>")
       = Returns ({| accession := []; from_position := Some (lit "1");
                     to_position := None; strand := None |} :: others).
Proof.
  assert (Hrun : well_formed_run (lit "?from=1")) by (split; [discriminate|reflexivity]).
  split; [apply quiet_anchor|]. split; [exact Hrun|].
  destruct (extract_accession_of_run
              (anchor ++ reference (lit "?from=1") ++ lit ">x</a>")) as (_ & _ & Hfirst).
  exact (Hfirst anchor (lit "?from=1") (lit ">x</a>") quiet_anchor Hrun eq_refl).
Defined.

(** C7.  The records are those of the matched runs, one each, in the order
    of the scan; in markup made of occurrences between text where the
    pattern does not match, they are the records of the runs in the order
    of the text, each as often as it stands there; markup without an
    occurrence gives the empty list; and a run without a question mark gives
    a record with the three qualifiers absent. *)
Theorem extract_one_record_per_occurrence (html : pystr) :
  extract_ncbi_accessions html = Returns (List.map record_of_run (Re.findall html))
  /\ (forall segments tail,
        html = markup segments tail ->
        Forall (fun seg => quiet (fst seg) /\ well_formed_run (snd seg)) segments ->
        quiet tail ->
        extract_ncbi_accessions html
          = Returns (List.map record_of_run (List.map snd segments)))
  /\ ((forall i, Re.match_at (drop i html) = None) ->
        extract_ncbi_accessions html = Returns [])
  /\ (forall run, In run (Re.findall html) -> contains qmark run = false ->
        accession_of_match run
          = Returns {| accession := run; from_position := None;
                       to_position := None; strand := None |}).
Proof.
  split; [apply extract_map|]. split; [|split].
  - intros segments tail -> Hsegs Htail.
    rewrite extract_map, ReFacts.findall_markup by assumption. reflexivity.
  - intros Hnone. rewrite extract_map.
    apply ReFacts.findall_none in Hnone. rewrite Hnone. reflexivity.
  - intros run _ Hc. rewrite accession_of_match_record, (record_of_run_plain _ Hc).
    reflexivity.
Qed.

Lemma extract_one_record_per_occurrence_witness :
  extract_ncbi_accessions sample_page
  = Returns [ {| accession := lit "ABC123"; from_position := Some (lit "10");
                 to_position := Some (lit "50"); strand := Some (lit "2") |};
              {| accession := lit "CD2"; from_position := None;
                 to_position := None; strand := None |};
              {| accession := lit "ABC123"; from_position := Some (lit "10");
                 to_position := Some (lit "50"); strand := Some (lit "2") |} ].
Proof.
  exact (proj1 (proj2 (extract_one_record_per_occurrence sample_page))
           _ _ eq_refl sample_page_segments sample_page_tail).
Defined.

(** ** The state behind the extractor *)

Lemma hexdig_hexval c : In c Stateful.hexdig <-> UrlParse.hexval c <> None.
Proof.
  split.
  - intros Hin Hnone.
    assert (Hall : List.Forall (fun c => UrlParse.hexval c <> None) Stateful.hexdig).
    { repeat (apply List.Forall_cons; [discriminate|]). apply List.Forall_nil. }
    rewrite List.Forall_forall in Hall. exact (Hall c Hin Hnone).
  - intros Hval.
    assert (Hc : (c <= 102)%N).
    { unfold UrlParse.hexval in Hval.
      destruct (N.leb_spec 48 c), (N.leb_spec c 57), (N.leb_spec 65 c),
        (N.leb_spec c 70), (N.leb_spec 97 c), (N.leb_spec c 102);
        cbn [andb] in Hval; try lia; congruence. }
    rewrite <- (N2Nat.id c) in *.
    assert (Hn : N.to_nat c < 103) by lia.
    revert Hval Hn. generalize (N.to_nat c). clear. intros n Hval Hn.
    do 103 (destruct n as [|n];
            [first [exfalso; apply Hval; reflexivity
                   | vm_compute; tauto]|]).
    lia.
Qed.

Lemma hex_pair_in k v :
  In (k, v)
     (flat_map (fun a => List.map (fun b => ([a; b], Stateful.fromhex a b))
                           Stateful.hexdig) Stateful.hexdig)
  <-> exists a b, k = [a; b] /\ v = Stateful.fromhex a b
                  /\ In a Stateful.hexdig /\ In b Stateful.hexdig.
Proof.
  rewrite in_flat_map. split.
  - intros (a & Ha & Hin). apply in_map_iff in Hin as (b & [= <- <-] & Hb).
    exists a, b. repeat split; assumption.
  - intros (a & b & -> & -> & Ha & Hb). exists a. split; [exact Ha|].
    apply in_map_iff. exists b. split; [reflexivity|exact Hb].
Qed.

(** The table holds exactly the pairs of hexadecimal digits. *)
Lemma build_hextobyte_lookup k :
  Stateful.build_hextobyte !! k
  = match k with
    | [a; b] =>
        match UrlParse.hexval a, UrlParse.hexval b with
        | Some x, Some y => Some (16 * x + y)%N
        | _, _ => None
        end
    | _ => None
    end.
Proof.
  unfold Stateful.build_hextobyte.
  destruct (list_to_map _ !! k) as [v|] eqn:Hl.
  - apply elem_of_list_to_map_2, list_elem_of_In, hex_pair_in in Hl
      as (a & b & -> & -> & Ha & Hb).
    apply hexdig_hexval in Ha, Hb. unfold Stateful.fromhex.
    destruct (UrlParse.hexval a); [|congruence].
    destruct (UrlParse.hexval b); [|congruence]. reflexivity.
  - destruct k as [|a [|b [|c k]]]; try reflexivity.
    destruct (UrlParse.hexval a) as [x|] eqn:Ha; [|reflexivity].
    destruct (UrlParse.hexval b) as [y|] eqn:Hb; [|reflexivity].
    rewrite (elem_of_list_to_map_1' _ [a; b] (Stateful.fromhex a b)) in Hl.
    + discriminate.
    + intros v Hin. apply list_elem_of_In, hex_pair_in in Hin
        as (a' & b' & [= <- <-] & -> & _). reflexivity.
    + apply list_elem_of_In, hex_pair_in. exists a, b. repeat split.
      * apply hexdig_hexval. congruence.
      * apply hexdig_hexval. congruence.
Qed.

(** Reading an item from the table is reading its two hexadecimal
    digits. *)
Lemma unquote_item_table item :
  Stateful.unquote_item Stateful.build_hextobyte item = UrlParse.unquote_item item.
Proof.
  unfold Stateful.unquote_item, UrlParse.unquote_item.
  rewrite build_hextobyte_lookup.
  destruct item as [|a [|b rest]]; try reflexivity.
  cbn [take drop].
  destruct (UrlParse.hexval a); [|reflexivity].
  destruct (UrlParse.hexval b); reflexivity.
Qed.

Lemma cache_get_app key : forall a b,
  Stateful.cache_get key (a ++ b)
  = match Stateful.cache_get key a with
    | Some p => Some p
    | None => Stateful.cache_get key b
    end.
Proof.
  induction a as [|[k p] a IH]; intros b; [reflexivity|].
  cbn [app Stateful.cache_get]. destruct (decide (k = key)); [reflexivity|apply IH].
Qed.

Lemma cache_get_tail key cache :
  Stateful.cache_get key cache = None -> Stateful.cache_get key (tail cache) = None.
Proof.
  destruct cache as [|[k p] cache]; [reflexivity|].
  cbn [tail Stateful.cache_get]. destruct (decide (k = key)); [discriminate|tauto].
Qed.

Lemma re_compile_coherent st :
  Stateful.coherent st ->
  fst (Stateful.re_compile st) = Re.accession_pattern_text
  /\ Stateful.coherent (snd (Stateful.re_compile st))
  /\ Stateful.cache_get Stateful.accession_pattern
       (Stateful.re_cache (snd (Stateful.re_compile st)))
     = Some Re.accession_pattern_text.
Proof.
  intros Hst. pose proof Hst as [Hcache Htable]. unfold Stateful.re_compile.
  destruct (Stateful.cache_get Stateful.accession_pattern (Stateful.re_cache st))
    as [p|] eqn:Hget.
  - cbn [fst snd]. rewrite Hget, (Hcache p eq_refl).
    split; [reflexivity|]. split; [exact Hst|reflexivity].
  - cbn [fst snd Stateful.re_cache Stateful.hextobyte].
    assert (Hnew : forall cache,
      Stateful.cache_get Stateful.accession_pattern cache = None ->
      Stateful.cache_get Stateful.accession_pattern
        (cache ++ [(Stateful.accession_pattern, Re.accession_pattern_text)])
      = Some Re.accession_pattern_text).
    { intros cache Hnone. rewrite cache_get_app, Hnone.
      cbn [Stateful.cache_get].
      destruct (decide (Stateful.accession_pattern = Stateful.accession_pattern));
        [reflexivity|congruence]. }
    assert (Hgot : Stateful.cache_get Stateful.accession_pattern
        ((if (Stateful.MAXCACHE <=? length (Stateful.re_cache st))%nat
          then tail (Stateful.re_cache st) else Stateful.re_cache st)
         ++ [(Stateful.accession_pattern, Re.accession_pattern_text)])
      = Some Re.accession_pattern_text).
    { destruct (Stateful.MAXCACHE <=? length (Stateful.re_cache st))%nat;
        apply Hnew; [apply cache_get_tail|]; exact Hget. }
    split; [reflexivity|]. split; [|exact Hgot].
    split; cbn [Stateful.re_cache Stateful.hextobyte]; [|exact Htable].
    intros p Hp. rewrite Hgot in Hp. congruence.
Qed.

Lemma findall_from_compiled : forall fuel s,
  Stateful.findall_from Re.accession_pattern_text fuel s = Re.findall_from fuel s.
Proof.
  induction fuel as [|fuel IH]; intros s; [reflexivity|].
  cbn [Stateful.findall_from Re.findall_from].
  destruct s as [|c s]; [reflexivity|].
  change (Stateful.match_at Re.accession_pattern_text (c :: s))
    with (Re.match_at (c :: s)).
  destruct (Re.match_at (c :: s)) as [[group after]|]; rewrite ?IH; reflexivity.
Qed.

Lemma findall_coherent string st :
  Stateful.coherent st ->
  fst (Stateful.findall string st) = Re.findall string
  /\ Stateful.coherent (snd (Stateful.findall string st)).
Proof.
  intros Hst. unfold Stateful.findall.
  destruct (re_compile_coherent st Hst) as (Hp & Hst' & _).
  destruct (Stateful.re_compile st) as [p st']. cbn [fst snd] in *. subst p.
  split; [apply findall_from_compiled|exact Hst'].
Qed.

Lemma unquote_to_bytes_coherent string st :
  Stateful.coherent st ->
  fst (Stateful.unquote_to_bytes string st) = UrlParse.unquote_to_bytes string
  /\ Stateful.coherent (snd (Stateful.unquote_to_bytes string st)).
Proof.
  intros Hst. unfold Stateful.unquote_to_bytes, UrlParse.unquote_to_bytes.
  destruct string as [|c string]; [split; [reflexivity|exact Hst]|].
  destruct (split percent (c :: string)) as [|bit0 [|item items]];
    try (split; [reflexivity|exact Hst]).
  assert (Htable : match Stateful.hextobyte st with
                   | Some table => table
                   | None => Stateful.build_hextobyte
                   end = Stateful.build_hextobyte).
  { destruct Hst as [_ Ht]. destruct (Stateful.hextobyte st) as [table|];
      [apply Ht|]; reflexivity. }
  rewrite Htable. cbn [fst snd]. split.
  - f_equal. f_equal. apply List.map_ext. intros x. apply unquote_item_table.
  - destruct Hst as [Hc _]. split; cbn [Stateful.re_cache Stateful.hextobyte].
    + exact Hc.
    + intros table [= <-]. reflexivity.
Qed.

Lemma unquote_runs_coherent : forall s run st,
  Stateful.coherent st ->
  fst (Stateful.unquote_runs run s st) = UrlParse.unquote_runs run s
  /\ Stateful.coherent (snd (Stateful.unquote_runs run s st)).
Proof.
  induction s as [|c s IH]; intros run st Hst;
    cbn [Stateful.unquote_runs UrlParse.unquote_runs].
  - destruct (unquote_to_bytes_coherent run st Hst) as [Hb Hst'].
    destruct (Stateful.unquote_to_bytes run st) as [octets st'].
    cbn [fst snd] in *. subst octets. split; [reflexivity|exact Hst'].
  - destruct (UrlParse.is_ascii c); [apply IH, Hst|].
    destruct (unquote_to_bytes_coherent run st Hst) as [Hb Hst1].
    destruct (Stateful.unquote_to_bytes run st) as [octets st1].
    cbn [fst snd] in *. subst octets.
    destruct (IH [] st1 Hst1) as [Hr Hst2].
    destruct (Stateful.unquote_runs [] s st1) as [rest st2].
    cbn [fst snd] in *. subst rest. split; [reflexivity|exact Hst2].
Qed.

Lemma unquote_coherent string st :
  Stateful.coherent st ->
  fst (Stateful.unquote string st) = UrlParse.unquote string
  /\ Stateful.coherent (snd (Stateful.unquote string st)).
Proof.
  intros Hst. unfold Stateful.unquote, UrlParse.unquote.
  destruct (negb (contains percent string)); [split; [reflexivity|exact Hst]|].
  apply unquote_runs_coherent, Hst.
Qed.

Lemma parse_qsl_step_coherent r st name_value :
  Stateful.coherent st ->
  fst (Stateful.parse_qsl_step (r, st) name_value)
    = UrlParse.parse_qsl_step r name_value
  /\ Stateful.coherent (snd (Stateful.parse_qsl_step (r, st) name_value)).
Proof.
  intros Hst. unfold Stateful.parse_qsl_step, UrlParse.parse_qsl_step.
  destruct (negb (truthy name_value)); [split; [reflexivity|exact Hst]|].
  destruct (split1 equals name_value) as [|nv0 [|nv1 [|? ?]]];
    try (split; [reflexivity|exact Hst]).
  destruct (0 <? N.of_nat (length nv1))%N; [|split; [reflexivity|exact Hst]].
  destruct (unquote_coherent (replace plus space nv0) st Hst) as [Hn Hst1].
  destruct (Stateful.unquote (replace plus space nv0) st) as [name st1].
  cbn [fst snd] in *. subst name.
  destruct (unquote_coherent (replace plus space nv1) st1 Hst1) as [Hv Hst2].
  destruct (Stateful.unquote (replace plus space nv1) st1) as [value st2].
  cbn [fst snd] in *. subst value. split; [reflexivity|exact Hst2].
Qed.

Lemma parse_qsl_fold_coherent : forall query_args r st,
  Stateful.coherent st ->
  fst (fold_left Stateful.parse_qsl_step query_args (r, st))
    = fold_left UrlParse.parse_qsl_step query_args r
  /\ Stateful.coherent (snd (fold_left Stateful.parse_qsl_step query_args (r, st))).
Proof.
  induction query_args as [|name_value query_args IH]; intros r st Hst.
  - split; [reflexivity|exact Hst].
  - cbn [fold_left].
    destruct (parse_qsl_step_coherent r st name_value Hst) as [Hr Hst'].
    destruct (Stateful.parse_qsl_step (r, st) name_value) as [r' st'].
    cbn [fst snd] in *. subst r'. apply IH, Hst'.
Qed.

Lemma parse_qs_coherent qs st :
  Stateful.coherent st ->
  fst (Stateful.parse_qs qs st) = UrlParse.parse_qs qs
  /\ Stateful.coherent (snd (Stateful.parse_qs qs st)).
Proof.
  intros Hst. unfold Stateful.parse_qs, Stateful.parse_qsl,
    UrlParse.parse_qs, UrlParse.parse_qsl.
  destruct (parse_qsl_fold_coherent
              (if truthy qs then split ampersand qs else []) [] st Hst) as [Hp Hst'].
  destruct (fold_left Stateful.parse_qsl_step _ _) as [pairs st'].
  cbn [fst snd] in *. subst pairs. split; [reflexivity|exact Hst'].
Qed.

Lemma accession_of_match_coherent match_ st :
  Stateful.coherent st ->
  fst (Stateful.accession_of_match match_ st) = accession_of_match match_
  /\ Stateful.coherent (snd (Stateful.accession_of_match match_ st)).
Proof.
  intros Hst. unfold Stateful.accession_of_match, accession_of_match.
  destruct (contains qmark match_); [|split; [reflexivity|exact Hst]].
  destruct (unpack2 (split1 qmark match_)) as [[accession query_string]|e];
    [|split; [reflexivity|exact Hst]].
  cbn [py_bind].
  destruct (parse_qs_coherent query_string st Hst) as [Hq Hst'].
  destruct (Stateful.parse_qs query_string st) as [query_params st'].
  cbn [fst snd] in *. subst query_params. split; [reflexivity|exact Hst'].
Qed.

Lemma extract_loop_coherent : forall matches accessions st,
  Stateful.coherent st ->
  fst (Stateful.extract_loop matches accessions st) = extract_loop matches accessions
  /\ Stateful.coherent (snd (Stateful.extract_loop matches accessions st)).
Proof.
  induction matches as [|m matches IH]; intros accessions st Hst.
  - split; [reflexivity|exact Hst].
  - cbn [Stateful.extract_loop extract_loop].
    destruct (accession_of_match_coherent m st Hst) as [Ha Hst'].
    destruct (Stateful.accession_of_match m st) as [r st'].
    cbn [fst snd] in *. rewrite <- Ha.
    destruct r as [a|e]; cbn [py_bind]; [apply IH, Hst'|].
    split; [reflexivity|exact Hst'].
Qed.

(** From a coherent state, the extractor with its state passed along
    returns what the extractor returns, and leaves a coherent state. *)
Lemma extract_coherent html st :
  Stateful.coherent st ->
  fst (Stateful.extract_ncbi_accessions html st) = extract_ncbi_accessions html
  /\ Stateful.coherent (snd (Stateful.extract_ncbi_accessions html st)).
Proof.
  intros Hst. unfold Stateful.extract_ncbi_accessions, extract_ncbi_accessions.
  destruct (findall_coherent html st Hst) as [Hm Hst'].
  destruct (Stateful.findall html st) as [matches st'].
  cbn [fst snd] in *. subst matches. apply extract_loop_coherent, Hst'.
Qed.

Lemma fresh_coherent : Stateful.coherent Stateful.fresh.
Proof. split; [intros p [=]|intros table [=]]. Qed.

Lemma used_state_get :
  Stateful.cache_get Stateful.accession_pattern (Stateful.re_cache used_state) = None.
Proof. vm_compute. reflexivity. Qed.

Lemma used_state_coherent : Stateful.coherent used_state.
Proof.
  split.
  - intros p Hp. rewrite used_state_get in Hp. discriminate.
  - intros table [= <-]. reflexivity.
Qed.

(** C8.  The only state the extractor touches is the cache of compiled
    patterns of [re] and the table of hexadecimal pairs of
    [urllib.parse]; it makes no request and reads or writes no file.  A run
    may change that state, but what it returns does not depend on it:
    from any two coherent states the same text gives the same list of
    records, a second run from the state the first one left gives the list
    of the first, that list is the one the text alone determines, and the
    call always returns. *)
Theorem extract_deterministic (html : pystr) (st1 st2 : Stateful.state) :
  Stateful.coherent st1 -> Stateful.coherent st2 ->
  fst (Stateful.extract_ncbi_accessions html st1)
    = fst (Stateful.extract_ncbi_accessions html st2)
  /\ fst (Stateful.extract_ncbi_accessions html
            (snd (Stateful.extract_ncbi_accessions html st1)))
     = fst (Stateful.extract_ncbi_accessions html st1)
  /\ Stateful.coherent (snd (Stateful.extract_ncbi_accessions html st1))
  /\ fst (Stateful.extract_ncbi_accessions html st1) = extract_ncbi_accessions html
  /\ exists accessions,
       fst (Stateful.extract_ncbi_accessions html st1) = Returns accessions.
Proof.
  intros H1 H2.
  destruct (extract_coherent html st1 H1) as [Hr1 Hst1].
  destruct (extract_coherent html st2 H2) as [Hr2 _].
  destruct (extract_coherent html _ Hst1) as [Hr3 _].
  split; [congruence|]. split; [congruence|]. split; [exact Hst1|].
  split; [exact Hr1|].
  exists (List.map record_of_run (Re.findall html)).
  rewrite Hr1. apply extract_map.
Qed.

Lemma extract_deterministic_witness :
  fst (Stateful.extract_ncbi_accessions escaped_page Stateful.fresh)
    = fst (Stateful.extract_ncbi_accessions escaped_page used_state)
  /\ fst (Stateful.extract_ncbi_accessions escaped_page
            (snd (Stateful.extract_ncbi_accessions escaped_page Stateful.fresh)))
     = fst (Stateful.extract_ncbi_accessions escaped_page Stateful.fresh)
  /\ fst (Stateful.extract_ncbi_accessions escaped_page Stateful.fresh)
     = Returns [ {| accession := lit "AB1"; from_position := Some (lit "1");
                    to_position := Some (lit "5"); strand := None |} ]
  /\ Stateful.hextobyte Stateful.fresh = None
  /\ Stateful.hextobyte
       (snd (Stateful.extract_ncbi_accessions escaped_page Stateful.fresh))
     = Some Stateful.build_hextobyte
  /\ Stateful.re_cache
       (snd (Stateful.extract_ncbi_accessions escaped_page Stateful.fresh))
     = [ (Stateful.accession_pattern, Re.accession_pattern_text) ]
  /\ length (Stateful.re_cache
               (snd (Stateful.extract_ncbi_accessions escaped_page used_state)))
     = Stateful.MAXCACHE.
Proof.
  destruct (extract_deterministic escaped_page Stateful.fresh used_state
              fresh_coherent used_state_coherent) as (Hsame & Hagain & _ & Hpure & _).
  split; [exact Hsame|]. split; [exact Hagain|].
  split; [rewrite Hpure; vm_compute; reflexivity|].
  split; [reflexivity|]. split; [reflexivity|]. split; [reflexivity|].
  vm_compute. reflexivity.
Defined.

(** C10.  A piece whose value is blank is dropped while the query string
    is parsed: the record is the one of the query string without that
    piece, and no qualifier of any record is the empty string. *)
Theorem extract_blank_value_absent (html : pystr) :
  (forall accessions, extract_ncbi_accessions html = Returns accessions ->
     Forall no_blank_qualifier accessions)
  /\ (forall acc before key after,
        contains qmark acc = false ->
        contains ampersand key = false -> contains equals key = false ->
        Forall (fun p => contains ampersand p = false) before ->
        Forall (fun p => contains ampersand p = false) after ->
        accession_of_match
          (acc ++ qmark :: join ampersand (before ++ (key ++ [equals]) :: after))
        = accession_of_match (acc ++ qmark :: join ampersand (before ++ after)))
  /\ accession_of_match (lit "AB1?from=&to=5")
     = Returns {| accession := lit "AB1"; from_position := None;
                  to_position := Some (lit "5"); strand := None |}.
Proof.
  split; [|split].
  - intros accessions. rewrite extract_map. intros [= <-].
    apply Forall_map, Forall_forall. intros run _. apply record_of_run_no_blank.
  - intros acc before key after Hacc Hamp Heq Hb Ha.
    rewrite !accession_of_match_record, !(record_of_run_query _ _ Hacc).
    rewrite (query_fields_blank _ _ _ Hamp Heq Hb Ha). reflexivity.
  - vm_compute. reflexivity.
Qed.

Lemma extract_blank_value_absent_witness :
  accession_of_match (lit "AB1?" ++ join ampersand ([] ++ (lit "from" ++ [equals]) :: [lit "to=5"]))
  = accession_of_match (lit "AB1?" ++ join ampersand ([] ++ [lit "to=5"]))
  /\ Forall no_blank_qualifier
       [ {| accession := lit "AB1"; from_position := None;
            to_position := Some (lit "5"); strand := None |} ].
Proof.
  destruct (extract_blank_value_absent (reference (lit "AB1?from=&to=5")))
    as (Hnone & Hsame & _).
  split.
  - apply (Hsame (lit "AB1") [] (lit "from") [lit "to=5"]); try reflexivity.
    + constructor.
    + constructor; [reflexivity|constructor].
  - apply Hnone. vm_compute. reflexivity.
Defined.

(** * Further properties *)

(** ** The resilient fetcher, whatever the session answers *)

(** X1.  Whatever the session answers, a call makes at most [retries]
    exchanges, and the requests it records are the exchanges it makes. *)
Theorem fetch_request_bound
    (url : pystr) (s : session) (retries : Z) (delay : float) (w : world) :
  exchanges w <= exchanges (snd (fetch_fasta_sequence url s retries delay w))
  /\ exchanges (snd (fetch_fasta_sequence url s retries delay w))
       <= exchanges w + Z.to_nat retries
  /\ requests (trace (snd (fetch_fasta_sequence url s retries delay w)))
       = requests (trace w)
         + (exchanges (snd (fetch_fasta_sequence url s retries delay w)) - exchanges w).
Proof.
  unfold fetch_fasta_sequence.
  pose proof (loop_exchanges_ge url s retries delay (range retries) w) as Hge.
  destruct (loop_counts url s retries delay (range retries) w) as [Hle Hreq].
  rewrite length_range in Hle. lia.
Qed.

(** X2.  Whatever the session answers, a call pauses at most [retries - 1]
    times, and what it records never ends with a pause: a pause is always
    followed by another exchange. *)
Theorem fetch_pause_bound
    (url : pystr) (s : session) (retries : Z) (delay : float) (w : world) :
  pauses (trace (snd (fetch_fasta_sequence url s retries delay w)))
    <= pauses (trace w) + (Z.to_nat retries - 1)
  /\ (trace (snd (fetch_fasta_sequence url s retries delay w)) = trace w
      \/ exists t e,
           trace (snd (fetch_fasta_sequence url s retries delay w)) = t ++ [e]
           /\ is_sleep e = false).
Proof.
  unfold fetch_fasta_sequence, range.
  destruct (Z.to_nat retries) as [|n] eqn:Hn.
  - simpl. split; [lia|]. left. reflexivity.
  - destruct (loop_pauses url s retries delay n 0 w) as [Hp Hlast]; [lia|].
    split; [lia|]. right. exact Hlast.
Qed.



(** X23.  A delay that [time.sleep] refuses ends the call at the first
    pause: when the first exchange fails at the connection level and
    another attempt is left, the line of the failure is printed and the
    exception of [time.sleep] leaves the call, with no second exchange.
    A negative delay and a not-a-number are refused with [ValueError], an
    infinite one with [OverflowError]. *)
Theorem fetch_refused_pause
    (url : pystr) (s : session) (retries : Z) (delay : float) (w : world)
    (e : pystr) (x : exn) :
  (2 <= retries)%Z ->
  s (exchanges w) = Throws (ConnectionError e) ->
  time_sleep delay = Raises x ->
  fetch_fasta_sequence url s retries delay w
  = (Raises x,
     {| exchanges := S (exchanges w);
        trace := trace w ++ [Get url; Print (ConnectionErrorOnAttempt 1 retries e)] |}).
Proof.
  intros Hr Hx Hd. unfold fetch_fasta_sequence, range.
  destruct (Z.to_nat retries) as [|n] eqn:Hn; [lia|].
  change (List.map Z.of_nat (seq 0 (S n))) with (0%Z :: List.map Z.of_nat (seq 1 n)).
  rewrite (loop_sleep_raises url s retries delay 0 _ w e x Hx); [|apply Z.ltb_lt; lia|exact Hd].
  unfold after_refusal, after_get, emit. cbn [exchanges trace].
  rewrite <- app_assoc. reflexivity.
Qed.

Lemma fetch_refused_pause_witness :
  time_sleep (-1)%float = Raises ValueError
  /\ time_sleep nan = Raises ValueError
  /\ time_sleep infinity = Raises OverflowError
  /\ fetch_fasta_sequence sample_url flaky 3 (-1)%float start
     = (Raises ValueError,
        {| exchanges := 1;
           trace := [ Get sample_url;
                      Print (ConnectionErrorOnAttempt 1 3 (lit "refused")) ] |}).
Proof.
  split; [reflexivity|]. split; [reflexivity|]. split; [reflexivity|].
  apply (fetch_refused_pause sample_url flaky 3 (-1)%float start (lit "refused") ValueError).
  - lia.
  - reflexivity.
  - reflexivity.
Defined.

(** ** The query builder: what the locator keeps of a record *)

Lemma app_amp_unique a a' x x' :
  amp_free a -> amp_free a' ->
  a ++ ampersand :: x = a' ++ ampersand :: x' -> a = a' /\ x = x'.
Proof.
  unfold amp_free. revert a'.
  induction a as [|c a IH]; intros [|c' a'] Ha Ha'; simpl.
  - intros [= ->]. split; reflexivity.
  - intros [= <- _]. apply contains_false_cons in Ha' as [Hne _]. congruence.
  - intros [= -> _]. apply contains_false_cons in Ha as [Hne _]. congruence.
  - intros [= -> Heq].
    apply contains_false_cons in Ha as [_ Ha]. apply contains_false_cons in Ha' as [_ Ha'].
    destruct (IH a' Ha Ha' Heq) as [-> ->]. split; reflexivity.
Qed.

Lemma range_segment_effective f t :
  range_segment f t =
    match effective_range f t with
    | Some (fv, tv) => ampersand :: lit "seq_start=" ++ fv ++ ampersand :: lit "seq_stop=" ++ tv
    | None => []
    end.
Proof. destruct f as [[|c f]|], t as [[|d t]|]; reflexivity. Qed.

Lemma strand_segment_effective st :
  strand_segment st =
    match effective_strand st with
    | Some sv => ampersand :: lit "strand=" ++ sv
    | None => []
    end.
Proof. destruct st as [[|c st]|]; reflexivity. Qed.

Lemma effective_range_amp_free f t fv tv :
  amp_free_opt f -> amp_free_opt t -> effective_range f t = Some (fv, tv) ->
  amp_free fv /\ amp_free tv.
Proof.
  destruct f as [[|c f]|], t as [[|d t]|]; try discriminate.
  simpl. intros Hf Ht [= <- <-]. split; assumption.
Qed.

Lemma effective_strand_amp_free st sv :
  amp_free_opt st -> effective_strand st = Some sv -> amp_free sv.
Proof.
  destruct st as [[|c st]|]; try discriminate. simpl. intros Hs [= <-]. exact Hs.
Qed.

(** The tail of a locator, after its range, determines the strand. *)
Lemma strand_tail_unique tv tv' (so so' : option pystr) :
  amp_free tv -> amp_free tv' ->
  (forall sv, so = Some sv -> amp_free sv) ->
  (forall sv, so' = Some sv -> amp_free sv) ->
  tv ++ match so with Some sv => ampersand :: lit "strand=" ++ sv | None => [] end
  = tv' ++ match so' with Some sv => ampersand :: lit "strand=" ++ sv | None => [] end ->
  tv = tv' /\ so = so'.
Proof.
  intros Ht Ht' Hs Hs'. destruct so as [sv|], so' as [sv'|].
  - intros Heq. destruct (app_amp_unique _ _ _ _ Ht Ht' Heq) as [-> Hrest].
    apply app_inv_head in Hrest. subst. split; reflexivity.
  - rewrite app_nil_r. intros <-. exfalso.
    unfold amp_free in Ht'. rewrite contains_app_mid in Ht'. discriminate.
  - rewrite app_nil_r. intros ->. exfalso.
    unfold amp_free in Ht. rewrite contains_app_mid in Ht. discriminate.
  - rewrite !app_nil_r. intros ->. split; reflexivity.
Qed.

Lemma build_efetch_url_segments a f t st :
  build_efetch_url a f t st = locator_core a ++ range_segment f t ++ strand_segment st.
Proof.
  rewrite range_segment_present, strand_segment_present.
  unfold build_efetch_url, locator_core.
  destruct (truthy_opt f && truthy_opt t), (truthy_opt st);
    rewrite <- ?app_assoc, ?app_nil_r; reflexivity.
Qed.

Lemma locator_core_frame a :
  locator_core a
  = (base_url ++ lit "?db=nuccore&id=") ++ a
      ++ ampersand :: lit "rettype=fasta&retmode=text".
Proof. unfold locator_core. rewrite <- app_assoc. reflexivity. Qed.

Lemma frame_unique (B T a a' x x' : pystr) :
  amp_free a -> amp_free a' ->
  (B ++ a ++ ampersand :: T) ++ x = (B ++ a' ++ ampersand :: T) ++ x' ->
  a = a' /\ x = x'.
Proof.
  intros Ha Ha' Heq. rewrite <- !app_assoc in Heq. apply app_inv_head in Heq.
  cbn [app] in Heq.
  destruct (app_amp_unique _ _ _ _ Ha Ha' Heq) as [-> Hrest].
  apply app_inv_head in Hrest. split; [reflexivity|exact Hrest].
Qed.

Lemma range_unique (P1 P2 fv tv fv' tv' x x' : pystr) :
  amp_free fv -> amp_free fv' ->
  (ampersand :: P1 ++ fv ++ ampersand :: P2 ++ tv) ++ x
  = (ampersand :: P1 ++ fv' ++ ampersand :: P2 ++ tv') ++ x' ->
  fv = fv' /\ tv ++ x = tv' ++ x'.
Proof.
  intros Hf Hf' Heq. cbn [app] in Heq. injection Heq as Heq.
  rewrite <- !app_assoc in Heq. apply app_inv_head in Heq. cbn [app] in Heq.
  destruct (app_amp_unique _ _ _ _ Hf Hf' Heq) as [-> Hrest].
  rewrite <- !app_assoc in Hrest. apply app_inv_head in Hrest.
  split; [reflexivity|exact Hrest].
Qed.

(** X4.  When no field holds an ampersand, the locator determines the
    accession and the qualifiers that reach it: two records with the same
    locator have the same accession, the same range and the same strand. *)
Theorem build_efetch_url_injective
    (a a' : pystr) (f t st f' t' st' : option pystr) :
  amp_free a -> amp_free a' ->
  amp_free_opt f -> amp_free_opt t -> amp_free_opt st ->
  amp_free_opt f' -> amp_free_opt t' -> amp_free_opt st' ->
  build_efetch_url a f t st = build_efetch_url a' f' t' st' ->
  a = a'
  /\ effective_range f t = effective_range f' t'
  /\ effective_strand st = effective_strand st'.
Proof.
  intros Ha Ha' Hf Ht Hst Hf' Ht' Hst' Heq.
  rewrite !build_efetch_url_segments, !locator_core_frame in Heq.
  destruct (frame_unique _ _ _ _ _ _ Ha Ha' Heq) as [-> Hrest].
  split; [reflexivity|].
  rewrite !range_segment_effective, !strand_segment_effective in Hrest.
  pose proof (effective_range_amp_free f t) as Hr.
  pose proof (effective_range_amp_free f' t') as Hr'.
  pose proof (effective_strand_amp_free st) as Hs.
  pose proof (effective_strand_amp_free st') as Hs'.
  destruct (effective_range f t) as [[fv tv]|], (effective_range f' t') as [[fv' tv']|].
  - destruct (Hr fv tv Hf Ht eq_refl) as [Hfv Htv].
    destruct (Hr' fv' tv' Hf' Ht' eq_refl) as [Hfv' Htv'].
    destruct (range_unique _ _ _ _ _ _ _ _ Hfv Hfv' Hrest) as [-> Htail].
    destruct (strand_tail_unique tv tv' (effective_strand st) (effective_strand st'))
      as [-> ->]; auto.
  - exfalso. destruct (effective_strand st'); vm_compute in Hrest; discriminate.
  - exfalso. destruct (effective_strand st); vm_compute in Hrest; discriminate.
  - split; [reflexivity|].
    destruct (strand_tail_unique [] [] (effective_strand st) (effective_strand st'))
      as [_ ->]; auto; reflexivity.
Qed.

Lemma build_efetch_url_injective_witness :
  lit "X1" = lit "X1"
  /\ effective_range (Some (lit "5")) (Some (lit "20"))
     = effective_range (Some (lit "5")) (Some (lit "20"))
  /\ effective_strand None = effective_strand (Some []).
Proof.
  apply (build_efetch_url_injective (lit "X1") (lit "X1")
           (Some (lit "5")) (Some (lit "20")) None
           (Some (lit "5")) (Some (lit "20")) (Some []));
    reflexivity || exact I.
Defined.

(** X5.  Values are put into the locator as they are: a [to_position]
    that holds a strand qualifier gives the locator of the record with that
    strand, so with an ampersand in a field two records can share a
    locator. *)
Theorem build_efetch_url_no_escaping (a f t st : pystr) :
  f <> [] -> t <> [] -> st <> [] ->
  build_efetch_url a (Some f) (Some (t ++ lit "&strand=" ++ st)) None
  = build_efetch_url a (Some f) (Some t) (Some st).
Proof.
  intros Hf Ht Hst. rewrite !build_efetch_url_segments.
  destruct f as [|c f], t as [|d t], st as [|e st]; try congruence.
  cbn [range_segment strand_segment]. rewrite app_nil_r.
  repeat first [rewrite <- app_assoc | progress cbn [app]]. reflexivity.
Qed.

Lemma build_efetch_url_no_escaping_witness :
  build_efetch_url (lit "X1") (Some (lit "5")) (Some (lit "20&strand=2")) None
  = build_efetch_url (lit "X1") (Some (lit "5")) (Some (lit "20")) (Some (lit "2")).
Proof.
  apply (build_efetch_url_no_escaping (lit "X1") (lit "5") (lit "20") (lit "2"));
    discriminate.
Defined.

(** ** The extractor: what every record satisfies *)

Lemma accession_of_run run :
  accession (record_of_run run) = fst (span_not qmark run).
Proof.
  unfold record_of_run. destruct (span_not qmark run) as [acc [|q qs]] eqn:Hs; simpl.
  - apply span_not_spec in Hs as (-> & _ & _). apply app_nil_r.
  - reflexivity.
Qed.

Lemma contains_app_false c a b :
  contains c (a ++ b) = false -> contains c a = false /\ contains c b = false.
Proof.
  rewrite contains_app. intros H. apply orb_false_iff in H. exact H.
Qed.

(** X6.  No accession holds a question mark or a double quote. *)
Theorem extract_accession_characters (html : pystr) :
  exists accessions,
    extract_ncbi_accessions html = Returns accessions
    /\ Forall (fun a => contains qmark (accession a) = false
                        /\ contains dquote (accession a) = false) accessions.
Proof.
  exists (List.map record_of_run (Re.findall html)). split; [apply extract_map|].
  apply Forall_map.
  eapply Forall_impl; [apply (ReFacts.findall_groups (length html)); lia|].
  intros run [_ Hq]. simpl. rewrite accession_of_run.
  destruct (span_not qmark run) as [acc rest] eqn:Hs.
  apply span_not_spec in Hs as (-> & Hacc & _).
  apply contains_app_false in Hq as [Hq _]. split; assumption.
Qed.

Lemma match_atoms_app : forall p s rest,
  Re.match_atoms p s = Some rest ->
  exists pre, s = pre ++ rest /\ length pre = length p.
Proof.
  induction p as [|a p IH]; intros s rest; simpl.
  - intros [= ->]. exists []. split; reflexivity.
  - destruct s as [|c s]; [discriminate|].
    destruct (Re.atom_matches a c); [|discriminate].
    intros H. apply IH in H as (pre & -> & Hlen).
    exists (c :: pre). split; [reflexivity|simpl; lia].
Qed.

(** A match is the fixed text, the group, and what is left; what is left
    is nothing or begins with the double quote. *)
Lemma match_at_parts s group after :
  Re.match_at s = Some (group, after) ->
  exists pre, s = pre ++ group ++ after /\ length pre = 36 /\ group <> []
              /\ (after = [] \/ exists after', after = dquote :: after').
Proof.
  unfold Re.match_at.
  destruct (Re.match_atoms Re.accession_pattern_text s) as [rest|] eqn:Hp; [|discriminate].
  apply match_atoms_app in Hp as (pre & -> & Hlen).
  destruct (span_not dquote rest) as [g a] eqn:Hs.
  apply span_not_spec in Hs as (-> & _ & Hafter).
  destruct g as [|c g]; [discriminate|].
  intros [= <- <-]. exists pre. repeat split; try assumption. discriminate.
Qed.

Lemma count_char_app c a b : count_char c (a ++ b) = count_char c a + count_char c b.
Proof. unfold count_char. rewrite List.filter_app, length_app. reflexivity. Qed.

Lemma findall_bounds : forall n s,
  length s <= n ->
  37 * length (Re.findall s) <= length s
  /\ length (Re.findall s) <= S (count_char dquote s).
Proof.
  induction n as [|n IH]; intros s Hn.
  - destruct s; [simpl; lia|simpl in Hn; lia].
  - destruct s as [|c s]; [simpl; lia|].
    destruct (Re.match_at (c :: s)) as [[group after]|] eqn:Hm.
    + rewrite (ReFacts.findall_hit _ _ _ Hm).
      apply match_at_parts in Hm as (pre & Heq & Hpre & Hg & Hafter).
      assert (Hlen : length (c :: s) = 36 + length group + length after).
      { rewrite Heq, !length_app. lia. }
      assert (Hgl : 1 <= length group) by (destruct group; [congruence|simpl; lia]).
      assert (Hcount : count_char dquote (c :: s)
                       = count_char dquote pre + count_char dquote group
                         + count_char dquote after).
      { rewrite Heq, !count_char_app. lia. }
      destruct Hafter as [->|[after' ->]].
      * rewrite ReFacts.findall_nil. simpl length in *. lia.
      * rewrite ReFacts.findall_miss by apply ReFacts.match_at_dquote.
        destruct (IH after') as [H37 Hq].
        { simpl in Hlen, Hn. simpl. lia. }
        change (count_char dquote (dquote :: after'))
          with (S (count_char dquote after')) in Hcount.
        simpl length in *. lia.
    + rewrite (ReFacts.findall_miss _ _ Hm).
      destruct (IH s) as [H37 Hq]; [simpl in Hn; lia|].
      assert (count_char dquote s <= count_char dquote (c :: s)).
      { unfold count_char. simpl. destruct (c =? dquote)%N; simpl; lia. }
      simpl length. lia.
Qed.

(** X7.  Occurrences do not overlap and each takes at least 37 characters
    of the text, so there are at most a 37th as many records as
    characters. *)
Theorem extract_count_by_length (html : pystr) :
  exists accessions,
    extract_ncbi_accessions html = Returns accessions
    /\ 37 * length accessions <= length html.
Proof.
  exists (List.map record_of_run (Re.findall html)). split; [apply extract_map|].
  rewrite length_map. apply (findall_bounds (length html)). lia.
Qed.

(** X8.  A run goes on to the next double quote, whatever lies between,
    so there is at most one record more than there are double quotes in the
    text; markup without a double quote gives at most one record. *)
Theorem extract_count_by_quotes (html : pystr) :
  exists accessions,
    extract_ncbi_accessions html = Returns accessions
    /\ length accessions <= S (count_char dquote html)
    /\ (contains dquote html = false -> length accessions <= 1).
Proof.
  exists (List.map record_of_run (Re.findall html)). split; [apply extract_map|].
  rewrite length_map.
  destruct (findall_bounds (length html) html) as [_ Hq]; [lia|].
  split; [exact Hq|]. intros Hnone.
  assert (count_char dquote html = 0); [|lia].
  clear Hq. induction html as [|c html IH]; [reflexivity|].
  apply contains_false_cons in Hnone as [Hne Hnone].
  unfold count_char. simpl. destruct (N.eqb_spec c dquote); [contradiction|].
  apply IH, Hnone.
Qed.

(** ** The extractor: the dots of the pattern *)

Lemma match_atoms_cat : forall p1 p2 s,
  Re.match_atoms (p1 ++ p2) s
  = match Re.match_atoms p1 s with
    | Some r => Re.match_atoms p2 r
    | None => None
    end.
Proof.
  induction p1 as [|a p1 IH]; intros p2 s; [reflexivity|].
  simpl. destruct s as [|c s]; [reflexivity|].
  destruct (Re.atom_matches a c); [apply IH|reflexivity].
Qed.

Lemma match_atoms_any p a s :
  a <> newline ->
  Re.match_atoms (Re.AnyButNewline :: p) (a :: s) = Re.match_atoms p s.
Proof.
  intros Ha. simpl. destruct (N.eqb_spec a newline); [contradiction|reflexivity].
Qed.

Lemma match_atoms_cat_some p1 p2 s r :
  Re.match_atoms p1 s = Some r ->
  Re.match_atoms (p1 ++ p2) s = Re.match_atoms p2 r.
Proof. intros H. rewrite match_atoms_cat, H. reflexivity. Qed.

Lemma match_atoms_lookalike a b c d rest :
  a <> newline -> b <> newline -> c <> newline -> d <> newline ->
  Re.match_atoms Re.accession_pattern_text (lookalike a b c d ++ rest) = Some rest.
Proof.
  intros Ha Hb Hc Hd.
  change Re.accession_pattern_text
    with (Re.compile_text "http://www" ++ Re.AnyButNewline
            :: Re.compile_text "ncbi" ++ Re.AnyButNewline
            :: Re.compile_text "nlm" ++ Re.AnyButNewline
            :: Re.compile_text "nih" ++ Re.AnyButNewline
            :: Re.compile_text "gov/nuccore/").
  unfold lookalike. repeat first [rewrite <- app_assoc | progress cbn [app]].
  erewrite match_atoms_cat_some by reflexivity.
  rewrite (match_atoms_any _ _ _ Ha).
  erewrite match_atoms_cat_some by reflexivity.
  rewrite (match_atoms_any _ _ _ Hb).
  erewrite match_atoms_cat_some by reflexivity.
  rewrite (match_atoms_any _ _ _ Hc).
  erewrite match_atoms_cat_some by reflexivity.
  rewrite (match_atoms_any _ _ _ Hd).
  reflexivity.
Qed.

(** X9.  The dots of the pattern are not escaped: the fixed text with any
    characters but newlines where it has its dots is an occurrence as
    well. *)
Theorem extract_dots_are_wildcards (a b c d : char) (run : pystr) :
  a <> newline -> b <> newline -> c <> newline -> d <> newline ->
  well_formed_run run ->
  extract_ncbi_accessions (lookalike a b c d ++ run ++ [dquote])
  = Returns [record_of_run run].
Proof.
  intros Ha Hb Hc Hd [Hne Hq]. rewrite extract_map.
  assert (Hm : Re.match_at (lookalike a b c d ++ run ++ [dquote]) = Some (run, [dquote])).
  { unfold Re.match_at. rewrite (match_atoms_lookalike a b c d _ Ha Hb Hc Hd).
    rewrite (span_not_app _ _ _ Hq). destruct run; [congruence|reflexivity]. }
  rewrite (ReFacts.findall_hit _ _ _ Hm).
  rewrite ReFacts.findall_miss by apply ReFacts.match_at_dquote.
  reflexivity.
Qed.

Lemma extract_dots_are_wildcards_witness :
  extract_ncbi_accessions (lit "http://wwwxncbi-nlm/nih_gov/nuccore/CD2" ++ [dquote])
  = Returns [ {| accession := lit "CD2"; from_position := None;
                 to_position := None; strand := None |} ].
Proof.
  apply (extract_dots_are_wildcards 120%N 45%N 47%N 95%N (lit "CD2"));
    try discriminate.
  split; [discriminate|reflexivity].
Defined.

(** ** The extractor: qualifiers in plain text *)

Lemma replace_absent a b : forall s, contains a s = false -> replace a b s = s.
Proof.
  induction s as [|x s IH]; intros Hs; [reflexivity|].
  apply contains_false_cons in Hs as [Hne Hs]. unfold replace in *. simpl.
  destruct (N.eqb_spec x a); [contradiction|]. rewrite (IH Hs). reflexivity.
Qed.

Lemma url_decode_plain v :
  contains percent v = false -> contains plus v = false -> url_decode v = v.
Proof.
  intros Hp Hplus. unfold url_decode. rewrite (replace_absent _ _ _ Hplus).
  apply UrlParseFacts.unquote_plain, Hp.
Qed.

Lemma plain_pair_well_formed kv : plain_pair kv -> well_formed_pair kv.
Proof.
  destruct kv as [k v]. intros [(_ & _ & Hka & Hke) (Hv & _ & _ & Hva)].
  repeat split; assumption.
Qed.

Lemma plain_pair_decoded kv : plain_pair kv -> decoded kv = kv.
Proof.
  destruct kv as [k v]. intros [(Hkp & Hkplus & _ & _) (_ & Hvp & Hvplus & _)].
  unfold decoded. simpl in *.
  rewrite (url_decode_plain _ Hkp Hkplus), (url_decode_plain _ Hvp Hvplus). reflexivity.
Qed.

Lemma query_fields_plain pairs :
  Forall plain_pair pairs ->
  query_fields (join ampersand (List.map piece pairs)) = pairs.
Proof.
  intros Hall. rewrite query_fields_pairs.
  - induction Hall as [|kv pairs Hkv _ IH]; [reflexivity|].
    simpl. rewrite (plain_pair_decoded _ Hkv), IH. reflexivity.
  - eapply Forall_impl; [exact Hall|]. intros kv. apply plain_pair_well_formed.
Qed.

(** X10.  Qualifiers written in plain text come out as they were written
    and reach the locator unchanged: the record holds the first value of
    each of the three keys among the pairs of the link, and its locator
    carries these values. *)
Theorem extract_plain_qualifiers (acc : pystr) (pairs : list (pystr * pystr)) :
  contains qmark acc = false ->
  Forall plain_pair pairs ->
  exists a,
    accession_of_match (acc ++ qmark :: join ampersand (List.map piece pairs)) = Returns a
    /\ a = {| accession := acc;
              from_position := first_value (lit "from") pairs;
              to_position := first_value (lit "to") pairs;
              strand := first_value (lit "strand") pairs |}
    /\ locator_of a
       = locator_core acc
           ++ range_segment (first_value (lit "from") pairs) (first_value (lit "to") pairs)
           ++ strand_segment (first_value (lit "strand") pairs).
Proof.
  intros Hacc Hall. eexists. split; [apply accession_of_match_record|].
  rewrite (record_of_run_query _ _ Hacc), (query_fields_plain _ Hall).
  split; [reflexivity|]. unfold locator_of. simpl. apply build_efetch_url_segments.
Qed.

Lemma extract_plain_qualifiers_witness :
  exists a,
    accession_of_match (lit "ABC123?strand=2&from=10&to=50") = Returns a
    /\ locator_of a
       = locator_core (lit "ABC123") ++ lit "&seq_start=10&seq_stop=50" ++ lit "&strand=2".
Proof.
  destruct (extract_plain_qualifiers (lit "ABC123")
              [(lit "strand", lit "2"); (lit "from", lit "10"); (lit "to", lit "50")])
    as (a & Ha & -> & Hloc).
  - reflexivity.
  - repeat constructor; discriminate.
  - eexists. split; [exact Ha|exact Hloc].
Defined.

(** ** The extractor: links escaped for HTML *)

Lemma key_value_cut key v :
  contains equals key = false ->
  key_value (key ++ equals :: v)
  = match v with
    | [] => None
    | _ :: _ => Some (url_decode key, url_decode v)
    end.
Proof.
  intros Hk. unfold key_value. rewrite (span_not_app _ _ _ Hk).
  destruct v; reflexivity.
Qed.

Lemma first_value_skip key k v fields :
  k <> key -> first_value key ((k, v) :: fields) = first_value key fields.
Proof. intros Hne. simpl. destruct (decide (k = key)); [contradiction|reflexivity]. Qed.

Lemma lit_neq (x y : pystr) : (if decide (x = y) then true else false) = false -> x <> y.
Proof. destruct (decide (x = y)); [discriminate|tauto]. Qed.

(** X11.  The link is not unescaped before it is parsed: when the
    ampersands of the query string are written [&amp;], as HTML asks, only
    the first pair is read under its key; the keys after it begin with
    [amp;], so [to] and [strand] are absent. *)
Theorem extract_html_escaped_ampersand (acc f t st : pystr) :
  contains qmark acc = false ->
  f <> [] -> amp_free f -> amp_free t -> amp_free st ->
  accession_of_match
    (acc ++ qmark :: join ampersand
       [lit "from" ++ equals :: f;
        lit "amp;to" ++ equals :: t;
        lit "amp;strand" ++ equals :: st])
  = Returns {| accession := acc;
               from_position := Some (url_decode f);
               to_position := None;
               strand := None |}.
Proof.
  intros Hacc Hf Haf Hat Hast.
  rewrite accession_of_match_record, (record_of_run_query _ _ Hacc).
  rewrite query_fields_join.
  2:{ repeat constructor; rewrite contains_app; simpl; unfold amp_free in *;
        rewrite ?Haf, ?Hat, ?Hast; reflexivity. }
  cbn [omap list_omap]. rewrite !key_value_cut by reflexivity.
  change (url_decode (lit "from")) with (lit "from").
  change (url_decode (lit "amp;to")) with (lit "amp;to").
  change (url_decode (lit "amp;strand")) with (lit "amp;strand").
  assert (H1 : lit "from" <> lit "to") by (apply lit_neq; reflexivity).
  assert (H2 : lit "from" <> lit "strand") by (apply lit_neq; reflexivity).
  assert (H3 : lit "amp;to" <> lit "to") by (apply lit_neq; reflexivity).
  assert (H4 : lit "amp;to" <> lit "strand") by (apply lit_neq; reflexivity).
  assert (H5 : lit "amp;strand" <> lit "to") by (apply lit_neq; reflexivity).
  assert (H6 : lit "amp;strand" <> lit "strand") by (apply lit_neq; reflexivity).
  assert (H7 : forall v fields,
             first_value (lit "from") ((lit "from", v) :: fields) = Some v).
  { intros v fields. simpl. destruct (decide (lit "from" = lit "from")); congruence. }
  destruct f as [|c f]; [congruence|].
  destruct t as [|d t], st as [|e st]; cbn [option_list app];
    rewrite H7, ?first_value_skip by assumption; reflexivity.
Qed.

Lemma extract_html_escaped_ampersand_witness :
  accession_of_match (lit "ABC123?from=10&amp;to=50&amp;strand=2")
  = Returns {| accession := lit "ABC123";
               from_position := Some (lit "10");
               to_position := None;
               strand := None |}.
Proof.
  apply (extract_html_escaped_ampersand (lit "ABC123") (lit "10") (lit "50") (lit "2"));
    reflexivity || discriminate.
Defined.

(** ** The extractor: the order of the qualifiers *)

Lemma first_value_in key : forall fields v,
  first_value key fields = Some v -> In (key, v) fields.
Proof.
  induction fields as [|[k w] fields IH]; intros v; simpl; [discriminate|].
  destruct (decide (k = key)) as [->|Hne].
  - intros [= ->]. left. reflexivity.
  - intros H. right. apply IH, H.
Qed.

Lemma first_value_none key : forall fields,
  first_value key fields = None -> forall v, ~ In (key, v) fields.
Proof.
  induction fields as [|[k w] fields IH]; simpl; [tauto|].
  destruct (decide (k = key)) as [->|Hne]; [discriminate|].
  intros H v [[= -> _]|Hin]; [congruence|]. apply (IH H v Hin).
Qed.

Lemma first_value_unique key : forall fields v,
  List.NoDup (List.map fst fields) -> In (key, v) fields ->
  first_value key fields = Some v.
Proof.
  induction fields as [|[k w] fields IH]; intros v Hnd Hin; [destruct Hin|].
  simpl in *. inversion Hnd as [|? ? Hnotin Hnd']; subst.
  destruct (decide (k = key)) as [->|Hne].
  - destruct Hin as [[= ->]|Hin]; [reflexivity|].
    exfalso. apply Hnotin. apply (in_map fst) in Hin. exact Hin.
  - destruct Hin as [[= -> _]|Hin]; [congruence|]. apply IH; assumption.
Qed.

Lemma first_value_permutation key fields fields' :
  List.NoDup (List.map fst fields) -> Permutation fields fields' ->
  first_value key fields = first_value key fields'.
Proof.
  intros Hnd Hperm.
  assert (Hnd' : List.NoDup (List.map fst fields')).
  { eapply Permutation_NoDup; [|exact Hnd]. apply Permutation_map, Hperm. }
  destruct (first_value key fields) as [v|] eqn:Hv.
  - symmetry. apply first_value_unique; [exact Hnd'|].
    eapply Permutation_in; [exact Hperm|]. apply first_value_in, Hv.
  - destruct (first_value key fields') as [v'|] eqn:Hv'; [|reflexivity].
    exfalso. apply (first_value_none _ _ Hv v').
    eapply Permutation_in; [symmetry; exact Hperm|]. apply first_value_in, Hv'.
Qed.

(** X12.  When every key stands once in the link, the order of its pairs
    does not matter: the same pairs in another order give the same
    record. *)
Theorem extract_order_of_pairs (acc : pystr) (pairs pairs' : list (pystr * pystr)) :
  contains qmark acc = false ->
  Forall well_formed_pair pairs ->
  List.NoDup (List.map fst (List.map decoded pairs)) ->
  Permutation pairs pairs' ->
  accession_of_match (acc ++ qmark :: join ampersand (List.map piece pairs))
  = accession_of_match (acc ++ qmark :: join ampersand (List.map piece pairs')).
Proof.
  intros Hacc Hall Hnd Hperm.
  assert (Hall' : Forall well_formed_pair pairs').
  { apply Forall_forall. intros kv Hin.
    rewrite Forall_forall in Hall. apply Hall.
    apply list_elem_of_In. apply list_elem_of_In in Hin.
    eapply Permutation_in; [symmetry; exact Hperm|exact Hin]. }
  rewrite !accession_of_match_record, !(record_of_run_query _ _ Hacc).
  rewrite !query_fields_pairs by assumption.
  assert (Hp : Permutation (List.map decoded pairs) (List.map decoded pairs'))
    by (apply Permutation_map, Hperm).
  rewrite (first_value_permutation (lit "from") _ _ Hnd Hp).
  rewrite (first_value_permutation (lit "to") _ _ Hnd Hp).
  rewrite (first_value_permutation (lit "strand") _ _ Hnd Hp).
  reflexivity.
Qed.

Lemma extract_order_of_pairs_witness :
  accession_of_match (lit "ABC123?from=10&to=50&strand=2")
  = accession_of_match (lit "ABC123?strand=2&from=10&to=50").
Proof.
  apply (extract_order_of_pairs (lit "ABC123")
           [(lit "from", lit "10"); (lit "to", lit "50"); (lit "strand", lit "2")]
           [(lit "strand", lit "2"); (lit "from", lit "10"); (lit "to", lit "50")]).
  - reflexivity.
  - repeat constructor; discriminate.
  - vm_compute. repeat (constructor; [simpl; intuition discriminate|]). constructor.
  - symmetry. apply Permutation_cons_append
      with (l := [(lit "from", lit "10"); (lit "to", lit "50")]).
Defined.

(** ** The run *)

Section MainFacts.

Context {fs : Type} `{FileSystem fs}.

Variable output_dir : option pystr.
Variable s : session.

Local Abbreviation loop := (main_loop output_dir s).
Local Abbreviation fetch a m :=
  (fetch_fasta_sequence (locator_of a) s default_retries default_delay (network_of m)).
Local Abbreviation path_of a := (fasta_path (fmt output_dir) (accession a)).

Lemma on_network_after {A} (call : world -> A * world) (m : run_state fs) :
  on_network call m = (fst (call (network_of m)), after_call m (snd (call (network_of m)))).
Proof.
  unfold on_network, network_of, after_call.
  destruct (call {| exchanges := made m; trace := [] |}). reflexivity.
Qed.

Lemma on_disk_with {A} (call : fs -> A * fs) (m : run_state fs) :
  on_disk call m = (fst (call (disk m)), with_disk m (snd (call (disk m)))).
Proof. unfold on_disk, with_disk. destruct (call (disk m)). reflexivity. Qed.

(** A record whose file is there is passed over. *)
Lemma loop_skip a l m :
  truthy_opt output_dir = true -> path_exists (path_of a) (disk m) = true ->
  loop (a :: l) m = loop l (record (Say (AlreadyExists (accession a) (path_of a))) m).
Proof. intros Hod Hex. cbn [main_loop]. rewrite Hod, Hex. reflexivity. Qed.

(** A record that is not passed over is fetched; what follows depends on
    what the fetch gives. *)
Lemma loop_fetch_raises a l m e :
  truthy_opt output_dir && path_exists (path_of a) (disk m) = false ->
  fst (fetch a m) = Raises e ->
  loop (a :: l) m = (Raises e, after_call m (snd (fetch a m))).
Proof.
  intros Hskip Hres. cbn [main_loop]. rewrite Hskip, on_network_after, Hres. reflexivity.
Qed.

Lemma loop_fetch_nothing a l m r :
  truthy_opt output_dir && path_exists (path_of a) (disk m) = false ->
  fst (fetch a m) = Returns r -> truthy_opt r = false ->
  loop (a :: l) m
  = loop l (record (Net (Sleep pace))
              (record (Say (FailedToFetch (accession a)))
                 (after_call m (snd (fetch a m))))).
Proof.
  intros Hskip Hres Hr. cbn [main_loop].
  rewrite Hskip, on_network_after, Hres, Hr. reflexivity.
Qed.

Lemma loop_fetch_printed a l m r :
  truthy_opt output_dir = false ->
  fst (fetch a m) = Returns r -> truthy_opt r = true ->
  loop (a :: l) m
  = loop l (record (Net (Sleep pace))
              (record (Say (Sequence (fmt r))) (after_call m (snd (fetch a m))))).
Proof.
  intros Hod Hres Hr. cbn [main_loop].
  rewrite Hod, on_network_after, Hres, Hr. reflexivity.
Qed.

Lemma loop_fetch_written a l m r :
  truthy_opt output_dir = true -> path_exists (path_of a) (disk m) = false ->
  fst (fetch a m) = Returns r -> truthy_opt r = true ->
  loop (a :: l) m
  = match write_text (path_of a) (fmt r) (disk m) with
    | (Returns _, d) =>
        loop l (record (Net (Sleep pace))
                  (record (Say (SavedTo (accession a) (path_of a)))
                     (with_disk (after_call m (snd (fetch a m))) d)))
    | (Raises e, d) => (Raises e, with_disk (after_call m (snd (fetch a m))) d)
    end.
Proof.
  intros Hod Hex Hres Hr. cbn [main_loop].
  rewrite Hod, Hex, on_network_after, Hres, Hr. cbn [andb].
  rewrite on_disk_with. cbn [disk after_call].
  destruct (write_text (path_of a) (fmt r) (disk m)) as [[u|e] d]; reflexivity.
Qed.

(** Without an output directory the disk is never touched. *)
Lemma loop_keeps_disk : forall l m,
  truthy_opt output_dir = false -> disk (snd (loop l m)) = disk m.
Proof.
  induction l as [|a l IH]; intros m Hod; [reflexivity|].
  destruct (fst (fetch a m)) as [r|e] eqn:Hres.
  - destruct (truthy_opt r) eqn:Hr.
    + rewrite (loop_fetch_printed a l m r Hod Hres Hr), IH by exact Hod. reflexivity.
    + rewrite (loop_fetch_nothing a l m r) by (rewrite ?Hod; auto).
      rewrite IH by exact Hod. reflexivity.
  - rewrite (loop_fetch_raises a l m e) by (rewrite ?Hod; auto). reflexivity.
Qed.

(** At most three exchanges for each record. *)
Lemma loop_made : forall l m,
  made m <= made (snd (loop l m)) /\ made (snd (loop l m)) <= made m + 3 * length l.
Proof.
  induction l as [|a l IH]; intros m; [simpl; lia|].
  pose proof (loop_exchanges_ge (locator_of a) s default_retries default_delay
                (range default_retries) (network_of m)) as Hge.
  destruct (loop_counts (locator_of a) s default_retries default_delay
              (range default_retries) (network_of m)) as [Hle _].
  change (fetch_loop (locator_of a) s default_retries default_delay
            (range default_retries) (network_of m)) with (fetch a m) in Hge, Hle.
  change (length (range default_retries)) with 3 in Hle.
  change (exchanges (network_of m)) with (made m) in Hge, Hle.
  destruct (truthy_opt output_dir && path_exists (path_of a) (disk m)) eqn:Hskip.
  - apply andb_true_iff in Hskip as [Hod Hex].
    rewrite (loop_skip a l m Hod Hex).
    destruct (IH (record (Say (AlreadyExists (accession a) (path_of a))) m)) as [H1 H2].
    simpl in *. lia.
  - destruct (fst (fetch a m)) as [r|e] eqn:Hres.
    + destruct (truthy_opt r) eqn:Hr.
      * destruct (truthy_opt output_dir) eqn:Hod.
        -- rewrite (loop_fetch_written a l m r Hod Hskip Hres Hr).
           destruct (write_text (path_of a) (fmt r) (disk m)) as [[u|e] d].
           ++ match goal with |- context [loop l ?m'] => destruct (IH m') as [H1 H2] end.
              simpl in *. lia.
           ++ simpl. lia.
        -- rewrite (loop_fetch_printed a l m r Hod Hres Hr).
           match goal with |- context [loop l ?m'] => destruct (IH m') as [H1 H2] end.
           simpl in *. lia.
      * rewrite (loop_fetch_nothing a l m r Hskip Hres Hr).
        match goal with |- context [loop l ?m'] => destruct (IH m') as [H1 H2] end.
        simpl in *. lia.
    + rewrite (loop_fetch_raises a l m e Hskip Hres). simpl. lia.
Qed.

Lemma loop_all_present : forall l m,
  truthy_opt output_dir = true ->
  Forall (fun a => path_exists (path_of a) (disk m) = true) l ->
  loop l m
  = (Returns tt,
     {| made := made m; disk := disk m;
        history := history m
                   ++ List.map (fun a => Say (AlreadyExists (accession a) (path_of a))) l |}).
Proof.
  induction l as [|a l IH]; intros m Hod Hall.
  - simpl. rewrite app_nil_r. destruct m; reflexivity.
  - inversion Hall as [|? ? Ha Hl]; subst.
    rewrite (loop_skip a l m Hod Ha), IH by assumption.
    simpl. rewrite <- app_assoc. reflexivity.
Qed.

End MainFacts.

Lemma main_prepared {fs : Type} `{FileSystem fs} output_dir s (m : run_state fs) :
  main output_dir s m
  = match prepare output_dir m with
    | (Raises e, m1) => (Raises e, m1)
    | (Returns _, m1) =>
        match fst (fetch_html_content bldb_url s (network_of m1)) with
        | Raises e =>
            (Raises e, after_call m1 (snd (fetch_html_content bldb_url s (network_of m1))))
        | Returns html_content =>
            main_loop output_dir s (List.map record_of_run (Re.findall html_content))
              (after_call m1 (snd (fetch_html_content bldb_url s (network_of m1))))
        end
    end.
Proof.
  unfold main, prepare.
  destruct (if truthy_opt output_dir then on_disk (makedirs (fmt output_dir)) m
            else (Returns tt, m)) as [[u|e] m1]; [|reflexivity].
  rewrite on_network_after.
  destruct (fst (fetch_html_content bldb_url s (network_of m1))) as [html|e]; [|reflexivity].
  rewrite extract_map. reflexivity.
Qed.

Lemma fetch_html_content_once url s w :
  snd (fetch_html_content url s w)
  = {| exchanges := S (exchanges w); trace := trace w ++ [Get url] |}.
Proof.
  unfold fetch_html_content, session_get. destruct (s (exchanges w)); reflexivity.
Qed.

Lemma fetch_html_content_result url s w :
  fst (fetch_html_content url s w)
  = match s (exchanges w) with
    | Completes r => if ok r then Returns (text r) else Raises HTTPError
    | Throws e => Raises e
    end.
Proof.
  unfold fetch_html_content, session_get, raise_for_status.
  destruct (s (exchanges w)) as [r|e]; [|reflexivity]. destruct (ok r); reflexivity.
Qed.

(** X13.  The page is asked for once and never again: when that exchange
    raises, a connection error included, or completes with a non-success
    status, [main] raises after this single exchange, with no record
    processed and the disk as the making of the directory left it.  When the
    directory cannot be made, nothing is requested at all. *)
Theorem main_needs_the_page {fs : Type} `{FileSystem fs}
    (output_dir : option pystr) (s : session) (m : run_state fs) :
  (forall e m1, prepare output_dir m = (Raises e, m1) ->
     main output_dir s m = (Raises e, m1)
     /\ made m1 = made m /\ history m1 = history m)
  /\ (forall m1, prepare output_dir m = (Returns tt, m1) ->
      (forall r, s (made m) = Completes r -> ok r = false) ->
      exists e,
        main output_dir s m
        = (Raises e, {| made := S (made m); disk := disk m1;
                        history := history m ++ [Net (Get bldb_url)] |})).
Proof.
  assert (Hsame : forall r m1, prepare output_dir m = (r, m1) ->
                    made m1 = made m /\ history m1 = history m).
  { unfold prepare. intros r m1. destruct (truthy_opt output_dir).
    - rewrite on_disk_with. intros [= _ <-]. split; reflexivity.
    - intros [= _ <-]. split; reflexivity. }
  split.
  - intros e m1 Hp. rewrite main_prepared, Hp. split; [reflexivity|].
    apply (Hsame _ _ Hp).
  - intros m1 Hp Hbad. rewrite main_prepared, Hp.
    destruct (Hsame _ _ Hp) as [Hmade Hhist].
    rewrite fetch_html_content_result, fetch_html_content_once.
    unfold after_call, network_of. cbn [exchanges trace List.map app].
    rewrite Hmade, Hhist.
    destruct (s (made m)) as [r|e] eqn:Hx.
    + rewrite (Hbad r eq_refl). eexists. reflexivity.
    + eexists. reflexivity.
Qed.

Lemma main_needs_the_page_witness :
  exists e,
    main (Some (lit "out")) unreachable (fresh_run ∅)
    = (Raises e, {| made := 1; disk := ∅; history := [Net (Get bldb_url)] |}).
Proof.
  destruct (main_needs_the_page (Some (lit "out")) unreachable (fresh_run ∅)) as [_ Hpage].
  apply (Hpage (fresh_run ∅)).
  - reflexivity.
  - intros r Hr. discriminate Hr.
Defined.

(** X14.  With an output directory that already holds the file of every
    record, only the page is requested: every record is passed over with
    its line, nothing is fetched, nothing is written and no pause is
    taken. *)
Theorem main_all_files_present {fs : Type} `{FileSystem fs}
    (output_dir : option pystr) (s : session) (m : run_state fs) (d : fs) (html : pystr) :
  truthy_opt output_dir = true ->
  makedirs (fmt output_dir) (disk m) = (Returns tt, d) ->
  s (made m) = Completes {| ok := true; text := html |} ->
  Forall (fun run =>
            path_exists (fasta_path (fmt output_dir) (accession (record_of_run run))) d = true)
         (Re.findall html) ->
  main output_dir s m
  = (Returns tt,
     {| made := S (made m); disk := d;
        history := history m ++ Net (Get bldb_url)
          :: List.map (fun run =>
                         Say (AlreadyExists (accession (record_of_run run))
                                (fasta_path (fmt output_dir) (accession (record_of_run run)))))
               (Re.findall html) |}).
Proof.
  intros Hod Hmk Hpage Hall.
  rewrite main_prepared. unfold prepare. rewrite Hod, on_disk_with, Hmk.
  cbn [fst snd]. rewrite fetch_html_content_result, fetch_html_content_once.
  unfold network_of, with_disk. cbn [made exchanges]. rewrite Hpage. cbn [ok text].
  rewrite loop_all_present.
  - unfold after_call. cbn [made disk history exchanges trace List.map app].
    rewrite <- app_assoc, List.map_map. reflexivity.
  - exact Hod.
  - apply Forall_map. exact Hall.
Qed.

Lemma main_all_files_present_witness :
  main (Some (lit "out")) (serves sample_page) (fresh_run filled_disk)
  = (Returns tt,
     {| made := 1; disk := filled_disk;
        history := [ Net (Get bldb_url);
                     Say (AlreadyExists (lit "ABC123") (lit "out/ABC123.fasta"));
                     Say (AlreadyExists (lit "CD2") (lit "out/CD2.fasta"));
                     Say (AlreadyExists (lit "ABC123") (lit "out/ABC123.fasta")) ] |}).
Proof.
  assert (Hruns : Re.findall sample_page
                  = [lit "ABC123?from=10&to=50&strand=2"; lit "CD2";
                     lit "ABC123?from=10&to=50&strand=2"]).
  { apply (ReFacts.findall_markup _ _ sample_page_segments sample_page_tail). }
  pose proof (main_all_files_present (Some (lit "out")) (serves sample_page)
                (fresh_run filled_disk) filled_disk sample_page
                eq_refl eq_refl eq_refl) as Hmain.
  rewrite Hruns in Hmain. apply Hmain.
  repeat constructor.
Defined.

(** X15.  Without an output directory the disk is never touched, whatever
    the session answers and however the run ends. *)
Theorem main_stdout_keeps_disk {fs : Type} `{FileSystem fs}
    (output_dir : option pystr) (s : session) (m : run_state fs) :
  truthy_opt output_dir = false ->
  disk (snd (main output_dir s m)) = disk m.
Proof.
  intros Hod. rewrite main_prepared. unfold prepare. rewrite Hod.
  destruct (fst (fetch_html_content bldb_url s (network_of m))); [|reflexivity].
  rewrite loop_keeps_disk by exact Hod. reflexivity.
Qed.

Lemma main_stdout_keeps_disk_witness :
  disk (snd (main None (serves sample_page) (fresh_run filled_disk))) = filled_disk
  /\ disk (snd (main (Some []) flaky (fresh_run filled_disk))) = filled_disk.
Proof.
  split.
  - apply (main_stdout_keeps_disk None (serves sample_page) (fresh_run filled_disk)).
    reflexivity.
  - apply (main_stdout_keeps_disk (Some []) flaky (fresh_run filled_disk)).
    reflexivity.
Defined.

(** X16.  A run makes one exchange for the page and at most three for each
    occurrence in it, so at most one and three 37ths of the length of the
    page. *)
Theorem main_request_bound {fs : Type} `{FileSystem fs}
    (output_dir : option pystr) (s : session) (m : run_state fs) :
  made (snd (main output_dir s m))
    <= made m + 1 + 3 * match s (made m) with
                        | Completes r => length (Re.findall (text r))
                        | Throws _ => 0
                        end
  /\ 37 * match s (made m) with
          | Completes r => length (Re.findall (text r))
          | Throws _ => 0
          end
     <= match s (made m) with
        | Completes r => length (text r)
        | Throws _ => 0
        end.
Proof.
  split.
  - rewrite main_prepared.
    assert (Hsame : made (snd (prepare output_dir m)) = made m).
    { unfold prepare. destruct (truthy_opt output_dir); [|reflexivity].
      rewrite on_disk_with. reflexivity. }
    destruct (prepare output_dir m) as [[u|e] m1]; cbn [snd] in Hsame;
      rewrite <- Hsame; [|simpl; lia].
    rewrite fetch_html_content_result, fetch_html_content_once.
    unfold network_of. cbn [exchanges trace].
    destruct (s (made m1)) as [r|e]; [|simpl; lia].
    destruct (ok r); [|simpl; lia].
    match goal with |- context [main_loop output_dir s ?l ?m'] =>
      destruct (loop_made output_dir s l m') as [_ Hle] end.
    rewrite length_map in Hle. simpl in Hle. simpl. lia.
  - destruct (s (made m)) as [r|e]; [|lia].
    apply (findall_bounds (length (text r))). lia.
Qed.

(** X17.  The file is named after the accession alone: of two records
    with the same accession, whatever their qualifiers, the second is passed
    over once the first has been saved, and nothing is requested for it. *)
Theorem main_same_accession_fetched_once {fs : Type} `{FileSystem fs}
    (output_dir : option pystr) (s : session) (m : run_state fs)
    (a1 a2 : Accession) (l : list Accession) (body : pystr) (d : fs) :
  truthy_opt output_dir = true ->
  accession a2 = accession a1 ->
  path_exists (fasta_path (fmt output_dir) (accession a1)) (disk m) = false ->
  fst (fetch_fasta_sequence (locator_of a1) s default_retries default_delay (network_of m))
    = Returns (Some body) ->
  body <> [] ->
  write_text (fasta_path (fmt output_dir) (accession a1)) body (disk m) = (Returns tt, d) ->
  main_loop output_dir s (a1 :: a2 :: l) m
  = main_loop output_dir s l
      (record (Say (AlreadyExists (accession a1)
                      (fasta_path (fmt output_dir) (accession a1))))
         (record (Net (Sleep pace))
            (record (Say (SavedTo (accession a1)
                            (fasta_path (fmt output_dir) (accession a1))))
               (with_disk
                  (after_call m
                     (snd (fetch_fasta_sequence (locator_of a1) s default_retries
                             default_delay (network_of m))))
                  d)))).
Proof.
  intros Hod Hsame Hex Hres Hbody Hwrite.
  rewrite (loop_fetch_written output_dir s a1 (a2 :: l) m (Some body) Hod Hex Hres).
  2:{ destruct body; [congruence|reflexivity]. }
  cbn [fmt]. rewrite Hwrite.
  rewrite loop_skip.
  - rewrite Hsame. reflexivity.
  - exact Hod.
  - rewrite Hsame. cbn [record with_disk disk].
    eapply write_text_exists. exact Hwrite.
Qed.

Lemma main_same_accession_fetched_once_witness :
  fst (main_loop (Some (lit "out")) (fun _ => Completes fasta)
         [ {| accession := lit "ABC123"; from_position := Some (lit "1");
              to_position := Some (lit "5"); strand := None |};
           {| accession := lit "ABC123"; from_position := Some (lit "10");
              to_position := Some (lit "50"); strand := None |} ]
         (fresh_run ∅)) = Returns tt
  /\ made (snd (main_loop (Some (lit "out")) (fun _ => Completes fasta)
         [ {| accession := lit "ABC123"; from_position := Some (lit "1");
              to_position := Some (lit "5"); strand := None |};
           {| accession := lit "ABC123"; from_position := Some (lit "10");
              to_position := Some (lit "50"); strand := None |} ]
         (fresh_run ∅))) = 1.
Proof.
  rewrite (main_same_accession_fetched_once (Some (lit "out")) (fun _ => Completes fasta)
             (fresh_run ∅) _ _ [] (text fasta)
             (<[lit "out/ABC123.fasta" := text fasta]> ∅));
    try reflexivity; try discriminate.
  split; reflexivity.
Defined.

(** X18.  A sequence that is the empty string counts as none: after a
    response with a success status and an empty body the record is reported
    as failed, nothing is written, and the run goes on with the next
    record after its pause. *)
Theorem main_empty_body_is_a_failure {fs : Type} `{FileSystem fs}
    (output_dir : option pystr) (s : session) (m : run_state fs)
    (a : Accession) (l : list Accession) :
  truthy_opt output_dir
    && path_exists (fasta_path (fmt output_dir) (accession a)) (disk m) = false ->
  s (made m) = Completes {| ok := true; text := [] |} ->
  main_loop output_dir s (a :: l) m
  = main_loop output_dir s l
      {| made := S (made m); disk := disk m;
         history := history m ++ [ Net (Get (locator_of a));
                                   Say (FailedToFetch (accession a));
                                   Net (Sleep pace) ] |}.
Proof.
  intros Hskip Hx.
  assert (Hfetch : fetch_fasta_sequence (locator_of a) s default_retries default_delay
                     (network_of m)
                   = (Returns (Some []), after_get (locator_of a) (network_of m))).
  { apply (loop_success _ _ _ _ 0%Z [1; 2]%Z (network_of m)
             {| ok := true; text := [] |}); [exact Hx|reflexivity]. }
  rewrite (loop_fetch_nothing output_dir s a l m (Some []) Hskip);
    rewrite ?Hfetch; try reflexivity.
  unfold record, after_call. cbn [made disk history exchanges trace after_get
                                  network_of List.map app].
  rewrite <- !app_assoc. reflexivity.
Qed.

Lemma main_empty_body_is_a_failure_witness :
  main_loop None (fun _ => Completes {| ok := true; text := [] |})
    [ {| accession := lit "CD2"; from_position := None;
         to_position := None; strand := None |} ] (fresh_run ∅)
  = (Returns tt,
     {| made := 1; disk := ∅;
        history := [ Net (Get (locator_core (lit "CD2")));
                     Say (FailedToFetch (lit "CD2"));
                     Net (Sleep pace) ] |}).
Proof.
  rewrite (main_empty_body_is_a_failure None
             (fun _ => Completes {| ok := true; text := [] |}) (fresh_run ∅));
    reflexivity.
Defined.

(** X19.  An exception of a sequence request that is not a connection
    error ends the whole run: [main] raises it after that exchange, and the
    records after this one are not processed. *)
Theorem main_exception_ends_the_run {fs : Type} `{FileSystem fs}
    (output_dir : option pystr) (s : session) (m : run_state fs)
    (a : Accession) (l : list Accession) (e : exn) :
  truthy_opt output_dir
    && path_exists (fasta_path (fmt output_dir) (accession a)) (disk m) = false ->
  s (made m) = Throws e ->
  (forall msg, e <> ConnectionError msg) ->
  main_loop output_dir s (a :: l) m
  = (Raises e,
     {| made := S (made m); disk := disk m;
        history := history m ++ [Net (Get (locator_of a))] |}).
Proof.
  intros Hskip Hx He.
  assert (Hfetch : fetch_fasta_sequence (locator_of a) s default_retries default_delay
                     (network_of m)
                   = (Raises e, after_get (locator_of a) (network_of m))).
  { unfold fetch_fasta_sequence. change (range default_retries) with [0; 1; 2]%Z.
    cbn [fetch_loop]. unfold session_get, network_of. cbn [exchanges trace].
    rewrite Hx. destruct e; try reflexivity. destruct (He msg eq_refl). }
  rewrite (loop_fetch_raises output_dir s a l m e Hskip); rewrite Hfetch; reflexivity.
Qed.

Lemma main_exception_ends_the_run_witness :
  main_loop None (fun _ => Throws (OtherException (lit "ReadTimeout")))
    [ {| accession := lit "CD2"; from_position := None;
         to_position := None; strand := None |};
      {| accession := lit "ABC123"; from_position := None;
         to_position := None; strand := None |} ] (fresh_run ∅)
  = (Raises (OtherException (lit "ReadTimeout")),
     {| made := 1; disk := ∅;
        history := [Net (Get (locator_core (lit "CD2")))] |}).
Proof.
  refine (main_exception_ends_the_run None
            (fun _ => Throws (OtherException (lit "ReadTimeout"))) (fresh_run ∅)
            {| accession := lit "CD2"; from_position := None;
               to_position := None; strand := None |}
            [ {| accession := lit "ABC123"; from_position := None;
                 to_position := None; strand := None |} ]
            (OtherException (lit "ReadTimeout")) eq_refl eq_refl _).
  discriminate.
Defined.

(** X20.  The path of the file is [os.path.join] of the directory and the
    accession with [.fasta]: under the directory for an accession that does
    not begin with a slash, and the accession's own absolute path, outside
    the directory, for one that does; and the extractor does give such
    accessions. *)
Theorem fasta_path_of_accession (output_dir name : pystr) :
  (startswith slash name = false -> output_dir <> [] -> endswith slash output_dir = false ->
     fasta_path output_dir name = output_dir ++ slash :: name ++ lit ".fasta")
  /\ fasta_path output_dir (slash :: name) = slash :: name ++ lit ".fasta"
  /\ (well_formed_run name -> contains qmark name = false ->
        extract_ncbi_accessions (reference (slash :: name))
        = Returns [ {| accession := slash :: name; from_position := None;
                       to_position := None; strand := None |} ]).
Proof.
  split; [|split].
  - intros Hs Hne He. unfold fasta_path, os_path_join.
    destruct name as [|c name].
    + simpl. destruct output_dir; [congruence|]. cbn [truthy negb orb].
      rewrite He. reflexivity.
    + cbn [app startswith] in *. rewrite Hs.
      destruct output_dir; [congruence|]. cbn [truthy negb orb]. rewrite He. reflexivity.
  - reflexivity.
  - intros [Hne Hq] Hc. rewrite extract_map.
    assert (Hrun : well_formed_run (slash :: name)).
    { split; [discriminate|]. apply contains_false_cons. split; [discriminate|exact Hq]. }
    rewrite <- (app_nil_r (reference (slash :: name))).
    rewrite (ReFacts.findall_reference _ _ Hrun), ReFacts.findall_nil.
    cbn [List.map]. rewrite record_of_run_plain; [reflexivity|].
    apply contains_false_cons. split; [discriminate|exact Hc].
Qed.

Lemma fasta_path_of_accession_witness :
  fasta_path (lit "out") (lit "CD2") = lit "out/CD2.fasta"
  /\ fasta_path (lit "out") (lit "/tmp/CD2") = lit "/tmp/CD2.fasta"
  /\ extract_ncbi_accessions (reference (lit "/tmp/CD2"))
     = Returns [ {| accession := lit "/tmp/CD2"; from_position := None;
                    to_position := None; strand := None |} ].
Proof.
  destruct (fasta_path_of_accession (lit "out") (lit "CD2")) as (Hunder & _ & _).
  destruct (fasta_path_of_accession (lit "out") (lit "tmp/CD2")) as (_ & Habs & Hex).
  split; [|split].
  - apply Hunder; reflexivity || discriminate.
  - exact Habs.
  - apply Hex; [split; [discriminate|reflexivity]|reflexivity].
Defined.

(** ** Percent escapes from the link to the locator *)

Lemma ascii_text_app a b : ascii_text a -> ascii_text b -> ascii_text (a ++ b).
Proof. intros Ha Hb. apply Forall_app. split; assumption. Qed.

Lemma ascii_text_lit_amp_strand : ascii_text (lit "&strand=").
Proof. repeat constructor. Qed.

Lemma ascii_text_lit_escaped : ascii_text (lit "%26strand%3D").
Proof. repeat constructor. Qed.

(** An escaped ampersand and equals sign in a value of ASCII text are
    decoded. *)
Lemma url_decode_escaped_strand t st :
  ascii_text t -> ascii_text st ->
  contains percent t = false -> contains percent st = false ->
  contains plus t = false -> contains plus st = false ->
  url_decode (t ++ lit "%26strand%3D" ++ st) = t ++ lit "&strand=" ++ st.
Proof.
  intros Hat Hast Hpt Hpst Hplt Hplst. unfold url_decode.
  rewrite replace_absent.
  2:{ rewrite !contains_app, Hplt, Hplst. reflexivity. }
  unfold UrlParse.unquote.
  replace (contains percent (t ++ lit "%26strand%3D" ++ st)) with true.
  2:{ symmetry. apply (contains_app_mid percent t (lit "26strand%3D" ++ st)). }
  cbn [negb]. rewrite unquote_runs_ascii.
  2:{ apply ascii_text_app; [exact Hat|].
      apply ascii_text_app; [apply ascii_text_lit_escaped|exact Hast]. }
  cbn [app].
  assert (Hbytes : UrlParse.unquote_to_bytes (t ++ lit "%26strand%3D" ++ st)
                   = t ++ lit "&strand=" ++ st).
  { unfold UrlParse.unquote_to_bytes.
    assert (Hsplit : split percent (t ++ lit "%26strand%3D" ++ st)
                     = [t; lit "26strand"; lit "3D" ++ st]).
    { change (lit "%26strand%3D" ++ st)
        with (percent :: lit "26strand" ++ percent :: lit "3D" ++ st).
      rewrite (split_app _ _ _ Hpt).
      rewrite (split_app percent (lit "26strand")) by reflexivity.
      rewrite split_all; [reflexivity|].
      rewrite contains_app, Hpst. reflexivity. }
    rewrite Hsplit. cbn [concat List.map]. rewrite app_nil_r.
    destruct t as [|c t]; reflexivity. }
  rewrite Hbytes. apply utf8_decode_ascii.
  apply ascii_text_app; [exact Hat|].
  apply ascii_text_app; [apply ascii_text_lit_amp_strand|exact Hast].
Qed.

(** X21.  The extractor decodes the percent escapes of a value and the
    query builder puts the decoded value into the locator as it is: a link
    whose [to] value ends in an escaped strand qualifier asks for the same
    locator as the link that has this strand qualifier, though their
    records differ. *)
Theorem escaped_qualifier_reaches_locator (acc f t st : pystr) :
  contains qmark acc = false ->
  plain f -> plain t -> plain st -> ascii_text t -> ascii_text st ->
  exists a a',
    accession_of_match
      (acc ++ qmark :: join ampersand
         [piece (lit "from", f); piece (lit "to", t ++ lit "%26strand%3D" ++ st)])
      = Returns a
    /\ accession_of_match
         (acc ++ qmark :: join ampersand
            [piece (lit "from", f); piece (lit "to", t); piece (lit "strand", st)])
       = Returns a'
    /\ strand a = None /\ strand a' = Some st
    /\ locator_of a = locator_of a'.
Proof.
  intros Hacc (Hf & Hfp & Hfplus & Hfa) (Ht & Htp & Htplus & Hta)
         (Hst & Hstp & Hstplus & Hsta) Hat Hast.
  assert (H1 : lit "from" <> lit "to") by (apply lit_neq; reflexivity).
  assert (H2 : lit "from" <> lit "strand") by (apply lit_neq; reflexivity).
  assert (H3 : lit "to" <> lit "strand") by (apply lit_neq; reflexivity).
  assert (H4 : lit "to" <> lit "from") by (apply lit_neq; reflexivity).
  assert (Hself : forall k v fields, first_value k ((k, v) :: fields) = Some v).
  { intros k v fields. simpl. destruct (decide (k = k)); congruence. }
  eexists _, _. split; [apply accession_of_match_record|].
  split; [apply accession_of_match_record|].
  rewrite !(record_of_run_query _ _ Hacc).
  change [piece (lit "from", f); piece (lit "to", t ++ lit "%26strand%3D" ++ st)]
    with (List.map piece [(lit "from", f); (lit "to", t ++ lit "%26strand%3D" ++ st)]).
  change [piece (lit "from", f); piece (lit "to", t); piece (lit "strand", st)]
    with (List.map piece [(lit "from", f); (lit "to", t); (lit "strand", st)]).
  rewrite query_fields_pairs.
  2:{ repeat constructor; cbn [fst snd]; try assumption.
      - rewrite !contains_app, Hta, Hsta. reflexivity.
      - destruct t; [congruence|discriminate]. }
  rewrite query_fields_plain.
  2:{ repeat constructor; cbn [fst snd]; assumption. }
  cbn [List.map]. unfold decoded. cbn [fst snd].
  rewrite (url_decode_escaped_strand t st) by assumption.
  rewrite (url_decode_plain f) by assumption.
  change (url_decode (lit "from")) with (lit "from").
  change (url_decode (lit "to")) with (lit "to").
  rewrite !Hself, !first_value_skip, !Hself by assumption.
  rewrite !first_value_skip by assumption. rewrite Hself.
  cbn [strand first_value]. split; [reflexivity|]. split; [reflexivity|].
  unfold locator_of. cbn [accession from_position to_position strand first_value].
  rewrite !build_efetch_url_segments.
  destruct f as [|c f], t as [|d t], st as [|e st]; try congruence.
  cbn [range_segment strand_segment]. rewrite app_nil_r.
  repeat first [rewrite <- app_assoc | progress cbn [app]]. reflexivity.
Qed.

Lemma escaped_qualifier_reaches_locator_witness :
  exists a a',
    accession_of_match (lit "ABC123?from=10&to=50%26strand%3D2") = Returns a
    /\ accession_of_match (lit "ABC123?from=10&to=50&strand=2") = Returns a'
    /\ strand a = None /\ strand a' = Some (lit "2")
    /\ locator_of a = locator_of a'.
Proof.
  apply (escaped_qualifier_reaches_locator (lit "ABC123") (lit "10") (lit "50") (lit "2"));
    try reflexivity;
    try (repeat split; reflexivity || discriminate);
    repeat constructor.
Defined.

(** ** A run in which every request delivers *)

Lemma fetch_delivers url s w :
  delivers (s (exchanges w)) ->
  fetch_fasta_sequence url s default_retries default_delay w
  = (Returns (Some (body_at s (exchanges w))), after_get url w)
  /\ body_at s (exchanges w) <> [].
Proof.
  unfold delivers, body_at. destruct (s (exchanges w)) as [r|e] eqn:Hx; [|contradiction].
  intros [Hok Hbody]. split; [|exact Hbody].
  apply (loop_success url s default_retries default_delay 0%Z [1; 2]%Z w r Hx Hok).
Qed.

(** X22.  Without an output directory, when every sequence request
    delivers at its first exchange, the run asks for the locators of the
    records in their order, one exchange each, prints each sequence after
    its request and pauses after each. *)
Theorem main_loop_prints_in_order {fs : Type} `{FileSystem fs}
    (output_dir : option pystr) (s : session) (l : list Accession) (m : run_state fs) :
  truthy_opt output_dir = false ->
  (forall i, i < length l -> delivers (s (made m + i))) ->
  main_loop output_dir s l m
  = (Returns tt,
     {| made := made m + length l; disk := disk m;
        history := history m ++ printed_run s (made m) l |}).
Proof.
  intros Hod. revert m. induction l as [|a l IH]; intros m Hall.
  - simpl. rewrite Nat.add_0_r, app_nil_r. destruct m; reflexivity.
  - assert (H0 : delivers (s (made m))).
    { specialize (Hall 0). rewrite Nat.add_0_r in Hall. apply Hall. simpl. lia. }
    destruct (fetch_delivers (locator_of a) s (network_of m) H0) as [Hfetch Hbody].
    cbn [network_of exchanges] in Hfetch, Hbody.
    rewrite (loop_fetch_printed output_dir s a l m (Some (body_at s (made m))) Hod).
    + rewrite Hfetch. cbn [snd fmt]. rewrite IH.
      * unfold record, after_call, after_get, network_of.
        cbn [made disk history exchanges trace List.map app printed_run length].
        rewrite <- !app_assoc. cbn [app].
        f_equal. f_equal. lia.
      * intros i Hi. unfold record, after_call, after_get, network_of.
        cbn [made exchanges].
        replace (S (made m) + i) with (made m + S i) by lia.
        apply Hall. simpl. lia.
    + rewrite Hfetch. reflexivity.
    + destruct (body_at s (made m)); [congruence|reflexivity].
Qed.

Lemma main_loop_prints_in_order_witness :
  main_loop None (fun _ => Completes fasta)
    [ {| accession := lit "CD2"; from_position := None;
         to_position := None; strand := None |};
      {| accession := lit "ABC123"; from_position := Some (lit "10");
         to_position := Some (lit "50"); strand := None |} ]
    (fresh_run ∅)
  = (Returns tt,
     {| made := 2; disk := ∅;
        history := [ Net (Get (locator_core (lit "CD2")));
                     Say (Sequence (text fasta));
                     Net (Sleep pace);
                     Net (Get (locator_core (lit "ABC123") ++ lit "&seq_start=10&seq_stop=50"));
                     Say (Sequence (text fasta));
                     Net (Sleep pace) ] |}).
Proof.
  refine (main_loop_prints_in_order None (fun _ => Completes fasta)
            [ {| accession := lit "CD2"; from_position := None;
                 to_position := None; strand := None |};
              {| accession := lit "ABC123"; from_position := Some (lit "10");
                 to_position := Some (lit "50"); strand := None |} ]
            (fresh_run ∅) eq_refl _).
  intros i _. split; [reflexivity|discriminate].
Defined.
